(** * cppfibonacci: the Fibonacci heap of [fibonacci.hpp]

    A shallow embedding of the class template [fibonacci_heap<K,T,Compare>]
    and of the helpers of [test.cpp] that inspect it.

    Objects live in a [memory]: one finite map per class
    ([internal_structure], [internal_data], [fibonacci_heap]), keyed by
    address.  A [std::shared_ptr] or [std::weak_ptr] is an [option addr]
    ([None] is [nullptr]); a weak pointer whose target is no longer
    allocated is expired.  Reference counts are not modelled: an object is
    taken out of the memory only where a destructor is run explicitly, and
    an [internal_data] object is never taken out (a handle may still own
    it).

    Member functions are state transformers [memory -> outcome (A * memory)]
    whose first argument is the address of [*this].  *)

From stdpp Require Import gmap list sorting.
From Stdlib Require Import ZArith Lia.

#[local] Open Scope Z_scope.

(** ** Addresses, pointers and machine integers *)

Abbreviation addr := positive.
Abbreviation ptr := (option positive).

(** [size_t] is taken to be 64 bits wide; arithmetic on it wraps. *)
Definition size_t_modulus : Z := 2 ^ 64.
Definition size_t_wrap (z : Z) : Z := z mod size_t_modulus.

(** ** The classes *)

(** [class internal_structure] (fibonacci.hpp, lines 42-57). *)
Record internal_structure := mk_structure {
  childcut : bool;
  degree : Z;
  data : ptr;
  right_sibling : ptr;
  left_sibling : ptr;
  child : ptr;
  parent : ptr;
  fh : ptr
}.

(** [class internal_data] (lines 60-68).  Its member [data] shares its name
    with the member of [internal_structure], hence the module. *)
Module internal_data.
Record t (K T : Type) := mk {
  structure : ptr;
  key : K;
  data : T
}.
Arguments mk {K T} _ _ _.
Arguments structure {K T} _.
Arguments key {K T} _.
Arguments data {K T} _.
End internal_data.

(** The data members of [fibonacci_heap] (lines 110-111). *)
Record fibonacci_heap := mk_heap {
  min : ptr;
  _size : Z
}.

(** [class node] (lines 175-204): a shared pointer to an [internal_data]. *)
Record node := mk_node { internal : ptr }.

#[global] Instance node_eq_dec : EqDecision node.
Proof. solve_decision. Defined.

(** Member-wise assignment. *)
Definition set_childcut (v : bool) (n : internal_structure) :=
  mk_structure v (degree n) (data n) (right_sibling n) (left_sibling n)
    (child n) (parent n) (fh n).
Definition set_degree (v : Z) (n : internal_structure) :=
  mk_structure (childcut n) v (data n) (right_sibling n) (left_sibling n)
    (child n) (parent n) (fh n).
Definition set_data (v : ptr) (n : internal_structure) :=
  mk_structure (childcut n) (degree n) v (right_sibling n) (left_sibling n)
    (child n) (parent n) (fh n).
Definition set_right_sibling (v : ptr) (n : internal_structure) :=
  mk_structure (childcut n) (degree n) (data n) v (left_sibling n)
    (child n) (parent n) (fh n).
Definition set_left_sibling (v : ptr) (n : internal_structure) :=
  mk_structure (childcut n) (degree n) (data n) (right_sibling n) v
    (child n) (parent n) (fh n).
Definition set_child (v : ptr) (n : internal_structure) :=
  mk_structure (childcut n) (degree n) (data n) (right_sibling n)
    (left_sibling n) v (parent n) (fh n).
Definition set_parent (v : ptr) (n : internal_structure) :=
  mk_structure (childcut n) (degree n) (data n) (right_sibling n)
    (left_sibling n) (child n) v (fh n).
Definition set_fh (v : ptr) (n : internal_structure) :=
  mk_structure (childcut n) (degree n) (data n) (right_sibling n)
    (left_sibling n) (child n) (parent n) v.

Definition set_structure {K T} (v : ptr) (d : internal_data.t K T) :=
  internal_data.mk v (internal_data.key d) (internal_data.data d).
Definition set_key {K T} (v : K) (d : internal_data.t K T) :=
  internal_data.mk (internal_data.structure d) v (internal_data.data d).

Definition set_min (v : ptr) (h : fibonacci_heap) := mk_heap v (_size h).
Definition set_size (v : Z) (h : fibonacci_heap) := mk_heap (min h) v.

(** ** Outcomes *)

(** How a call ends.  [NullDeref]: a null, expired or dangling pointer is
    dereferenced.  [NoReturn]: control flows off the end of a function that
    has to return a value.  [OutOfFuel]: the step bound given to a recursive
    function of the model is used up. *)
Inductive outcome (A : Type) : Type :=
| Done (a : A)
| NullDeref
| NoReturn
| OutOfFuel.
Arguments Done {A} a.
Arguments NullDeref {A}.
Arguments NoReturn {A}.
Arguments OutOfFuel {A}.

(** Errors that an operation reports to its caller (spec.md, section 7). *)
Inductive error := InvalidKey | StaleHandle.

Section Heap.

Context {K T : Type}.

(** The template parameter [Compare]: a "less than" on keys. *)
Variable Compare : K → K → bool.

Record memory := mk_memory {
  structs : gmap positive internal_structure;
  datas : gmap positive (internal_data.t K T);
  heaps : gmap positive fibonacci_heap
}.

Definition with_structs (s : gmap positive internal_structure) (m : memory) :=
  mk_memory s (datas m) (heaps m).
Definition with_datas (d : gmap positive (internal_data.t K T)) (m : memory) :=
  mk_memory (structs m) d (heaps m).
Definition with_heaps (h : gmap positive fibonacci_heap) (m : memory) :=
  mk_memory (structs m) (datas m) h.

Definition M (A : Type) : Type := memory → outcome (A * memory).

#[global] Instance M_ret : MRet M := λ A a m, Done (a, m).
#[global] Instance M_bind : MBind M := λ A B f c m,
  match c m with
  | Done (a, m') => f a m'
  | NullDeref => NullDeref
  | NoReturn => NoReturn
  | OutOfFuel => OutOfFuel
  end.

Definition null_deref {A} : M A := λ _, NullDeref.
Definition no_return {A} : M A := λ _, NoReturn.
Definition out_of_fuel {A} : M A := λ _, OutOfFuel.

(** [*p] and [p->...] *)
Definition deref_s (p : ptr) : M internal_structure := λ m,
  match p with
  | Some a =>
      match structs m !! a with
      | Some n => Done (n, m)
      | None => NullDeref
      end
  | None => NullDeref
  end.
Definition deref_d (p : ptr) : M (internal_data.t K T) := λ m,
  match p with
  | Some a =>
      match datas m !! a with
      | Some d => Done (d, m)
      | None => NullDeref
      end
  | None => NullDeref
  end.
Definition deref_h (p : ptr) : M fibonacci_heap := λ m,
  match p with
  | Some a =>
      match heaps m !! a with
      | Some h => Done (h, m)
      | None => NullDeref
      end
  | None => NullDeref
  end.

(** [p->field = v] *)
Definition modify_s (p : ptr) (f : internal_structure → internal_structure)
  : M unit := λ m,
  match p with
  | Some a =>
      match structs m !! a with
      | Some n => Done (tt, with_structs (<[a := f n]> (structs m)) m)
      | None => NullDeref
      end
  | None => NullDeref
  end.
Definition modify_d (p : ptr)
    (f : internal_data.t K T → internal_data.t K T) : M unit := λ m,
  match p with
  | Some a =>
      match datas m !! a with
      | Some d => Done (tt, with_datas (<[a := f d]> (datas m)) m)
      | None => NullDeref
      end
  | None => NullDeref
  end.
Definition modify_h (p : ptr) (f : fibonacci_heap → fibonacci_heap)
  : M unit := λ m,
  match p with
  | Some a =>
      match heaps m !! a with
      | Some h => Done (tt, with_heaps (<[a := f h]> (heaps m)) m)
      | None => NullDeref
      end
  | None => NullDeref
  end.

(** Placing a heap object at an address, and taking a structure object out
    of the memory. *)
Definition store_h (a : addr) (h : fibonacci_heap) : M unit := λ m,
  Done (tt, with_heaps (<[a := h]> (heaps m)) m).
Definition free_s (a : addr) : M unit := λ m,
  Done (tt, with_structs (delete a (structs m)) m).

(** [std::make_shared]: the new object gets an address that is not in use. *)
Definition make_shared_s (n : internal_structure) : M addr := λ m,
  let a := fresh (dom (structs m)) in
  Done (a, with_structs (<[a := n]> (structs m)) m).
Definition make_shared_d (d : internal_data.t K T) : M addr := λ m,
  let a := fresh (dom (datas m)) in
  Done (a, with_datas (<[a := d]> (datas m)) m).

(** [w.lock()] for a weak pointer to an [internal_structure]: null once the
    target is gone. *)
Definition lock_s (w : ptr) : M ptr := λ m,
  Done (match w with
        | Some a => match structs m !! a with Some _ => w | None => None end
        | None => None
        end, m).

(** ** Functions whose bodies are in fibonacci.hpp *)

(** [duplicate_nodes] (lines 84-108).  The recursion follows pointers, so
    the model takes a step bound.  The body has one [return], in the first
    line; every other path reaches the closing brace of the function. *)
Fixpoint duplicate_nodes (fuel : nat) (fh_ : ptr) (root head newhead : ptr)
  : M ptr :=
  match fuel with
  | O => out_of_fuel
  | S fuel =>
      if decide (root = head) then mret None else
      r ← deref_s root;
      newroot ← make_shared_s r;
      let head' := if decide (head = None) then root else head in
      let newhead' := if decide (head = None) then Some newroot else newhead in
      (* setup new data *)
      r ← deref_s root;
      rd ← deref_d (data r);
      newroot_data ← make_shared_d rd;
      _ ← modify_d (Some newroot_data) (set_structure (Some newroot));
      _ ← modify_s (Some newroot) (set_data (Some newroot_data));
      (* setup new fh *)
      _ ← modify_s (Some newroot) (set_fh fh_);
      (* setup new right_sibling *)
      r ← deref_s root;
      rs ← duplicate_nodes fuel fh_ (right_sibling r) head' newhead';
      _ ← modify_s (Some newroot) (set_right_sibling rs);
      nr ← deref_s (Some newroot);
      _ ← (if decide (right_sibling nr = None)
           then modify_s (Some newroot) (set_right_sibling newhead')
           else mret tt);
      (* setup new left_sibling *)
      nr ← deref_s (Some newroot);
      _ ← modify_s (right_sibling nr) (set_left_sibling (Some newroot));
      (* setup new child *)
      r ← deref_s root;
      c ← duplicate_nodes fuel fh_ (child r) None None;
      _ ← modify_s (Some newroot) (set_child c);
      (* setup new parent *)
      _ ← modify_s (Some newroot) (set_parent None);
      nr ← deref_s (Some newroot);
      _ ← (if decide (child nr = None)
           then mret tt
           else modify_s (child nr) (set_parent (Some newroot)));
      no_return
  end.

(** The default constructor (line 116), with the default member
    initialisers of lines 110-111. *)
Definition default_constructor (this : addr) : M unit :=
  store_h this (mk_heap None 0).

(** The copy constructor (line 137). *)
Definition copy_constructor (fuel : nat) (this : addr) (old : addr) : M unit :=
  o ← deref_h (Some old);
  m ← duplicate_nodes fuel (Some this) (min o) None None;
  o ← deref_h (Some old);
  store_h this (mk_heap m (_size o)).

(** The body of the destructor (lines 139-143). *)
Definition destructor_body (this : addr) : M unit :=
  h ← deref_h (Some this);
  if decide (min h = None) then mret tt
  else modify_s (min h) (set_right_sibling None).

(** The copy assignment operator (lines 158-167).  Line 161 is read as what
    its comment says, a run of the destructor's body on [*this]. *)
Definition copy_assignment (fuel : nat) (this : addr) (old : addr) : M unit :=
  h ← deref_h (Some this);
  _ ← (if decide (min h = None) then mret tt else destructor_body this);
  o ← deref_h (Some old);
  _ ← modify_h (Some this) (set_size (_size o));
  o ← deref_h (Some old);
  m ← duplicate_nodes fuel (Some this) (min o) None None;
  modify_h (Some this) (set_min m).

(** The destructor of [internal_structure] (lines 51-56), after which the
    object is gone. *)
Definition destroy_structure (a : addr) : M unit :=
  n ← deref_s (Some a);
  _ ← modify_d (data n) (set_structure None);
  n ← deref_s (Some a);
  _ ← (if decide (child n = None) then mret tt
       else modify_s (child n) (set_right_sibling None));
  free_s a.

(** The destructor of [internal_data] (lines 65-67).  Its body is the
    guard alone; the result is what it throws, if anything. *)
Inductive thrown : Type := data_node_in_use.
Definition data_destructor (d : addr) : M (option thrown) :=
  dn ← deref_d (Some d);
  s ← lock_s (internal_data.structure dn);
  if decide (s = None) then mret None else mret (Some data_node_in_use).

(** The private constructor of [node] (line 185). *)
Definition node_of (p : ptr) : M node :=
  s ← deref_s p;
  mret (mk_node (data s)).

(** [node::key] and [node::data] (lines 192-202). *)
Definition node_key (n : node) : M K :=
  d ← deref_d (internal n);
  mret (internal_data.key d).
Definition node_data (n : node) : M T :=
  d ← deref_d (internal n);
  mret (internal_data.data d).

(** [size] (line 210). *)
Definition size (this : addr) : M Z :=
  h ← deref_h (Some this);
  mret (_size h).

(** [top] (line 238). *)
Definition top (this : addr) : M node :=
  h ← deref_h (Some this);
  node_of (min h).

(** [insert(node)] (line 233), over the [insert(K, const T&)] it calls. *)
Definition insert_node_with (insert_kv : addr → K → T → M node)
    (this : addr) (n : node) : M node :=
  k ← node_key n;
  v ← node_data n;
  insert_kv this k v.

(** The constructor from an initializer list (lines 121-124): the default
    member initialisers, then the range-based [for]. *)
Fixpoint for_each_insert (insert_kv : addr → K → T → M node)
    (this : addr) (list : list (K * T)) : M unit :=
  match list with
  | [] => mret tt
  | i :: rest =>
      _ ← insert_kv this (fst i) (snd i);
      for_each_insert insert_kv this rest
  end.
Definition list_constructor_with (insert_kv : addr → K → T → M node)
    (this : addr) (list : list (K * T)) : M unit :=
  _ ← store_h this (mk_heap None 0);
  for_each_insert insert_kv this list.

(** The constructor from a sequence as spec.md words it (section 6):
    "construct empty, then insert each pair in sequence". *)
Definition construct_then_insert (insert_kv : addr → K → T → M node)
    (this : addr) (pairs : list (K * T)) : M unit :=
  foldl (λ (so_far : M unit) (kv : K * T),
           _ ← so_far; _ ← insert_kv this (fst kv) (snd kv); mret tt)
        (default_constructor this) pairs.

(** ** Helpers of test.cpp *)

(** [fibonacci_test::count_nodes] (test.cpp, lines 101-110).  [sum] is a
    [size_t]. *)
Fixpoint count_nodes (fuel : nat) (root : ptr) : M Z :=
  match fuel with
  | O => out_of_fuel
  | S fuel =>
      if decide (root = None) then mret 0 else
      (fix do_while (n : nat) (p : ptr) (sum : Z) : M Z :=
         match n with
         | O => out_of_fuel
         | S n =>
             s ← deref_s p;
             c ← count_nodes fuel (child s);
             let sum := size_t_wrap (sum + size_t_wrap (1 + c)) in
             s ← deref_s p;
             let p := right_sibling s in
             if decide (p = root) then mret sum else do_while n p sum
         end) fuel root 0
  end.

(** [fibonacci_test::element_in] (test.cpp, lines 113-126); the result is
    the value of [found] that the final assertion checks. *)
Fixpoint root_of (fuel : nat) (e : ptr) : M ptr :=
  match fuel with
  | O => out_of_fuel
  | S fuel =>
      s ← deref_s e;
      p ← lock_s (parent s);
      if decide (p = None) then mret e else root_of fuel p
  end.
Fixpoint scan_roots (fuel : nat) (first e p : ptr) : M bool :=
  match fuel with
  | O => out_of_fuel
  | S fuel =>
      if decide (p = e) then mret true else
      s ← deref_s p;
      let p := right_sibling s in
      if decide (p = first) then mret false else scan_roots fuel first e p
  end.
Definition element_in (fuel : nat) (e : ptr) (fh_ : addr) : M bool :=
  e ← root_of fuel e;
  h ← deref_h (Some fh_);
  scan_roots fuel (min h) e (min h).

(** ** Pointer-level core of the operations that fibonacci.hpp only declares

    [insert], [meld], [decrease_key], [remove] and [remove(node)] have no
    body in the repository.  Their model follows spec.md, sections 4.2 to
    4.4, on the classes above.  The core works on the two object maps and
    returns [None] where a null or dangling pointer would be followed or a
    ring walk does not close within its bound. *)

Definition right_of (σ : gmap positive internal_structure) (a : addr) : ptr :=
  σ !! a ≫= right_sibling.
Definition left_of (σ : gmap positive internal_structure) (a : addr) : ptr :=
  σ !! a ≫= left_sibling.
Definition parent_of (σ : gmap positive internal_structure) (a : addr) : ptr :=
  σ !! a ≫= parent.
Definition key_of (σ : gmap positive internal_structure)
    (δ : gmap positive (internal_data.t K T)) (a : addr) : option K :=
  n ← σ !! a; d ← data n; dn ← δ !! d; Some (internal_data.key dn).

Definition upd (a : addr) (f : internal_structure → internal_structure)
    (σ : gmap positive internal_structure)
  : option (gmap positive internal_structure) :=
  n ← σ !! a; Some (<[a := f n]> σ).

Fixpoint upd_all (l : list addr) (f : internal_structure → internal_structure)
    (σ : gmap positive internal_structure)
  : option (gmap positive internal_structure) :=
  match l with
  | [] => Some σ
  | a :: l => σ ← upd a f σ; upd_all l f σ
  end.

(** Modelled from the spec: the ring splice of section 4.2 (no function of
    the source implements it), "joins them into one ring in O(1) by
    swapping two pairs of sibling pointers". *)
Definition ring_splice (a b : addr) (σ : gmap positive internal_structure)
  : option (gmap positive internal_structure) :=
  ra ← right_of σ a;
  rb ← right_of σ b;
  σ ← upd a (set_right_sibling (Some rb)) σ;
  σ ← upd rb (set_left_sibling (Some a)) σ;
  σ ← upd b (set_right_sibling (Some ra)) σ;
  upd ra (set_left_sibling (Some b)) σ.

(** Modelled from the spec: removal from a ring (section 4.2), "rewires its
    two neighbors". *)
Definition ring_remove (x : addr) (σ : gmap positive internal_structure)
  : option (gmap positive internal_structure) :=
  l ← left_of σ x;
  r ← right_of σ x;
  σ ← upd l (set_right_sibling (Some r)) σ;
  upd r (set_left_sibling (Some l)) σ.

(** A node on its own is a ring of one. *)
Definition ring_alone (x : addr) (σ : gmap positive internal_structure)
  : option (gmap positive internal_structure) :=
  σ ← upd x (set_right_sibling (Some x)) σ;
  upd x (set_left_sibling (Some x)) σ.

(** The members of a ring, read rightwards from [first]. *)
Fixpoint ring_walk (R : addr → ptr) (fuel : nat) (first cur : addr)
  : option (list addr) :=
  match fuel with
  | O => None
  | S fuel =>
      r ← R cur;
      if decide (r = first) then Some [cur]
      else (cur ::.) <$> ring_walk R fuel first r
  end.
Definition ring_members (fuel : nat) (σ : gmap positive internal_structure)
    (p : ptr) : option (list addr) :=
  match p with
  | None => Some []
  | Some a => ring_walk (right_of σ) fuel a a
  end.

(** Modelled from the spec: [insert(key, value)] of section 4.4 (declared
    at line 218, no body in the repository). *)
Definition insert_core (this : ptr) (k : K) (v : T)
    (σ : gmap positive internal_structure)
    (δ : gmap positive (internal_data.t K T)) (h : fibonacci_heap)
  : option (gmap positive internal_structure *
            gmap positive (internal_data.t K T) * fibonacci_heap * node) :=
  let d := fresh (dom δ) in
  let x := fresh (dom σ) in
  let δ' := <[d := internal_data.mk (Some x) k v]> δ in
  let σ1 :=
    <[x := mk_structure false 0 (Some d) (Some x) (Some x) None None this]> σ in
  let len := size_t_wrap (_size h + 1) in
  match min h with
  | None => Some (σ1, δ', mk_heap (Some x) len, mk_node (Some d))
  | Some m =>
      σ2 ← ring_splice m x σ1;
      km ← key_of σ δ m;
      Some (σ2, δ', mk_heap (if Compare k km then Some x else Some m) len,
            mk_node (Some d))
  end.

(** Modelled from the spec: Link(a, b) of section 4.3. *)
Definition link (a b : addr) (σ : gmap positive internal_structure)
  : option (gmap positive internal_structure) :=
  σ ← ring_remove b σ;
  σ ← ring_alone b σ;
  na ← σ !! a;
  σ ← match child na with
      | None => upd a (set_child (Some b)) σ
      | Some c => ring_splice c b σ
      end;
  σ ← upd b (set_parent (Some a)) σ;
  σ ← upd a (λ n, set_degree (size_t_wrap (degree n + 1)) n) σ;
  upd b (set_childcut false) σ.

(** Modelled from the spec: the inner loop of step 5 of extract_min, for one
    root [w] of the working list; [A] is the index from degree to root.
    Every turn of the loop clears an entry of [A]. *)
Fixpoint link_loop (fuel : nat) (δ : gmap positive (internal_data.t K T))
    (σ : gmap positive internal_structure) (A : gmap Z positive)
    (w : addr) (d : Z)
  : option (gmap positive internal_structure * gmap Z positive) :=
  match fuel with
  | O => None
  | S fuel =>
      match A !! d with
      | None => Some (σ, <[d := w]> A)
      | Some u =>
          if decide (u = w) then Some (σ, <[d := w]> A) else
          ku ← key_of σ δ u;
          kw ← key_of σ δ w;
          let w' := if Compare ku kw then u else w in
          let u' := if Compare ku kw then w else u in
          σ ← link w' u' σ;
          link_loop fuel δ σ (delete d A) w' (d + 1)
      end
  end.

Fixpoint consolidate_roots (δ : gmap positive (internal_data.t K T))
    (W : list addr) (σ : gmap positive internal_structure)
    (A : gmap Z positive)
  : option (gmap positive internal_structure * gmap Z positive) :=
  match W with
  | [] => Some (σ, A)
  | w :: W =>
      nw ← σ !! w;
      '(σ, A) ← link_loop (S (base.size A)) δ σ A w (degree nw);
      consolidate_roots δ W σ A
  end.

(** Modelled from the spec: step 6 of extract_min, the new root ring made of
    the entries of [A] ... *)
Fixpoint rebuild_ring (first : addr) (rest : list addr)
    (σ : gmap positive internal_structure)
  : option (gmap positive internal_structure) :=
  match rest with
  | [] => Some σ
  | e :: rest =>
      σ ← ring_alone e σ;
      σ ← ring_splice first e σ;
      rebuild_ring first rest σ
  end.

(** ... and the entry with the smallest key. *)
Fixpoint smallest (σ : gmap positive internal_structure)
    (δ : gmap positive (internal_data.t K T)) (best : addr)
    (rest : list addr) : option addr :=
  match rest with
  | [] => Some best
  | e :: rest =>
      ke ← key_of σ δ e;
      kb ← key_of σ δ best;
      smallest σ δ (if Compare ke kb then e else best) rest
  end.

(** Modelled from the spec: steps 5 and 6 of extract_min (consolidation),
    started at a root [r]; the result is the new [min]. *)
Definition consolidate (fuel : nat) (δ : gmap positive (internal_data.t K T))
    (r : addr) (σ : gmap positive internal_structure)
  : option (gmap positive internal_structure * ptr) :=
  W ← ring_members fuel σ (Some r);
  '(σ, A) ← consolidate_roots δ W σ ∅;
  match (map_to_list A).*2 with
  | [] => Some (σ, None)
  | e :: rest =>
      σ ← ring_alone e σ;
      σ ← rebuild_ring e rest σ;
      m ← smallest σ δ e rest;
      Some (σ, Some m)
  end.

(** Modelled from the spec: steps 1 and 2 of extract_min (section 4.4), for
    a heap whose [min] is [z].  The children of [z] become roots, with
    their parent pointers and marks cleared, and [z] leaves the root ring
    with no child left. *)
Definition detach_min (fuel : nat) (z : addr)
    (σ : gmap positive internal_structure)
  : option (gmap positive internal_structure) :=
  nz ← σ !! z;
  cs ← ring_members fuel σ (child nz);
  σ ← upd_all cs (λ n, set_childcut false (set_parent None n)) σ;
  σ ← match child nz with
      | None => Some σ
      | Some c => ring_splice z c σ
      end;
  σ ← upd z (λ n, set_degree 0 (set_child None n)) σ;
  ring_remove z σ.

(** Modelled from the spec: steps 1 to 6 of extract_min, up to the
    destruction of [z], which is still allocated at the end. *)
Definition unlink_min (z : addr) (σ : gmap positive internal_structure)
    (δ : gmap positive (internal_data.t K T)) (h : fibonacci_heap)
  : option (gmap positive internal_structure * fibonacci_heap) :=
  let fuel := Z.to_nat (_size h) in
  σ ← detach_min fuel z σ;
  let len := size_t_wrap (_size h - 1) in
  if decide (len = 0) then Some (σ, mk_heap None len)
  else
    r ← right_of σ z;
    '(σ, m) ← consolidate fuel δ r σ;
    Some (σ, mk_heap m len).

(** Modelled from the spec: Cut(x) of section 4.3; [m] is the heap's
    [min]. *)
Definition cut (m x : addr) (σ : gmap positive internal_structure)
  : option (gmap positive internal_structure) :=
  p ← parent_of σ x;
  xr ← right_of σ x;
  σ ← ring_remove x σ;
  σ ← upd p (λ n, set_degree (size_t_wrap (degree n - 1)) n) σ;
  np ← σ !! p;
  σ ← (if decide (child np = Some x)
       then upd p (set_child (if decide (degree np = 0) then None
                              else Some xr)) σ
       else Some σ);
  σ ← ring_alone x σ;
  σ ← ring_splice m x σ;
  σ ← upd x (set_parent None) σ;
  upd x (set_childcut false) σ.

(** Modelled from the spec: Cascading-cut(p) of section 4.3. *)
Fixpoint cascading_cut (fuel : nat) (m p : addr)
    (σ : gmap positive internal_structure)
  : option (gmap positive internal_structure) :=
  match fuel with
  | O => None
  | S fuel =>
      np ← σ !! p;
      match parent np with
      | None => Some σ
      | Some pp =>
          if childcut np then
            σ ← cut m p σ;
            cascading_cut fuel m pp σ
          else upd p (set_childcut true) σ
      end
  end.

(** ** Well-formed heaps

    What the proofs about the modelled operations maintain: invariants 1, 2,
    4 and 6 of spec.md, section 3, on the object maps. *)

(** [seg R L l b]: along [l], each element's right pointer is the next
    element, [b] after the last one, and left pointers lead back. *)
Fixpoint seg (R L : addr → ptr) (l : list addr) (b : addr) : Prop :=
  match l with
  | [] => True
  | a :: l' => R a = Some (hd b l') ∧ L (hd b l') = Some a ∧ seg R L l' b
  end.

(** [l] lists a sibling ring once around (or is empty). *)
Definition cycle (R L : addr → ptr) (l : list addr) : Prop :=
  NoDup l ∧ seg R L l (hd 1%positive l).

(** A pointer into a ring: null exactly when the ring is empty. *)
Definition entry_ok (e : ptr) (l : list addr) : Prop :=
  match e with
  | None => l = []
  | Some c => c ∈ l
  end.

Definition child_of (σ : gmap positive internal_structure) (a : addr) : ptr :=
  σ !! a ≫= child.
Definition data_of (σ : gmap positive internal_structure) (a : addr) : ptr :=
  σ !! a ≫= data.

(** Following parent pointers from [a] ends at a root, inside [F]. *)
Inductive grounded (P : addr → ptr) (F : gset positive) : addr → Prop :=
| grounded_root a : a ∈ F → P a = None → grounded P F a
| grounded_child a p :
    a ∈ F → P a = Some p → grounded P F p → grounded P F a.

(** The forest of a heap whose nodes are the keys of [G], each with the key
    and data that [G] gives, and whose root ring is entered at [top]. *)
Record wf (σ : gmap positive internal_structure)
    (δ : gmap positive (internal_data.t K T))
    (G : gmap positive (K * T)) (top : ptr) : Prop := mk_wf {
  wf_data : ∀ a kv, G !! a = Some kv →
    ∃ d dn, data_of σ a = Some d ∧ δ !! d = Some dn
      ∧ internal_data.structure dn = Some a
      ∧ (internal_data.key dn, internal_data.data dn) = kv;
  wf_roots : ∃ l, cycle (right_of σ) (left_of σ) l
      ∧ (∀ a, a ∈ l ↔ a ∈ dom G ∧ parent_of σ a = None)
      ∧ entry_ok top l;
  wf_children : ∀ p, p ∈ dom G →
    ∃ l, cycle (right_of σ) (left_of σ) l
      ∧ (∀ a, a ∈ l ↔ a ∈ dom G ∧ parent_of σ a = Some p)
      ∧ entry_ok (child_of σ p) l;
  wf_order : ∀ a p ka va kp vp,
    G !! a = Some (ka, va) → parent_of σ a = Some p →
    G !! p = Some (kp, vp) → Compare ka kp = false;
  wf_grounded : ∀ a, a ∈ dom G → grounded (parent_of σ) (dom G) a
}.

(** [top] is a root whose key no root's key is less than. *)
Definition min_ok (σ : gmap positive internal_structure)
    (G : gmap positive (K * T)) (top : ptr) : Prop :=
  ∀ m r km vm kr vr,
    top = Some m → G !! m = Some (km, vm) →
    G !! r = Some (kr, vr) → parent_of σ r = None →
    Compare kr km = false.

(** The heap object [h] over the forest. *)
Record heap_inv (σ : gmap positive internal_structure)
    (δ : gmap positive (internal_data.t K T))
    (G : gmap positive (K * T)) (h : fibonacci_heap) : Prop := mk_heap_inv {
  inv_wf : wf σ δ G (min h);
  inv_min : min_ok σ G (min h);
  inv_size : _size h = Z.of_nat (base.size G);
  inv_bound : Z.of_nat (base.size G) < size_t_modulus
}.

(** [a] is stored in the index [A] of a consolidation. *)
Definition is_entry (A : gmap Z positive) (a : addr) : Prop :=
  ∃ d, A !! d = Some a.

(** A consolidation under way: the roots of the forest are the roots [X]
    still in the working list and the entries of [A], each once. *)
Record consolidating (σ : gmap positive internal_structure)
    (δ : gmap positive (internal_data.t K T))
    (G : gmap positive (K * T)) (A : gmap Z positive) (X : list addr)
  : Prop := mk_consolidating {
  cons_wf : ∃ top, wf σ δ G top;
  cons_nodup : NoDup X;
  cons_apart : ∀ a, a ∈ X → ¬ is_entry A a;
  cons_inj : ∀ d1 d2 a, A !! d1 = Some a → A !! d2 = Some a → d1 = d2;
  cons_roots : ∀ a,
    (a ∈ dom G ∧ parent_of σ a = None) ↔ (a ∈ X ∨ is_entry A a)
}.

(** Two states of the structure objects that agree on a field. *)
Definition same_right (σ σ' : gmap positive internal_structure) : Prop :=
  ∀ x, right_of σ' x = right_of σ x.
Definition same_left (σ σ' : gmap positive internal_structure) : Prop :=
  ∀ x, left_of σ' x = left_of σ x.
Definition same_parent (σ σ' : gmap positive internal_structure) : Prop :=
  ∀ x, parent_of σ' x = parent_of σ x.
Definition same_child (σ σ' : gmap positive internal_structure) : Prop :=
  ∀ x, child_of σ' x = child_of σ x.
Definition same_data (σ σ' : gmap positive internal_structure) : Prop :=
  ∀ x, data_of σ' x = data_of σ x.
Definition same_alloc (σ σ' : gmap positive internal_structure) : Prop :=
  ∀ x, is_Some (σ' !! x) ↔ is_Some (σ !! x).
Definition same_nonsib (σ σ' : gmap positive internal_structure) : Prop :=
  same_parent σ σ' ∧ same_child σ σ' ∧ same_data σ σ' ∧ same_alloc σ σ'.
Definition same_sib (σ σ' : gmap positive internal_structure) : Prop :=
  same_right σ σ' ∧ same_left σ σ'.

(** ** The declared operations, as member functions *)

(** Runs of the core inside [M]. *)
Definition core_s
    (f : gmap positive internal_structure
         → option (gmap positive internal_structure)) : M unit := λ m,
  match f (structs m) with
  | Some σ => Done (tt, with_structs σ m)
  | None => NullDeref
  end.
Definition key_at (a : addr) : M K := λ m,
  match key_of (structs m) (datas m) a with
  | Some k => Done (k, m)
  | None => NullDeref
  end.

(** Modelled from the spec: [insert(key, value)] (section 4.4; line 218 of
    fibonacci.hpp declares it without a body). *)
Definition insert (this : addr) (k : K) (v : T) : M node := λ m,
  match heaps m !! this
        ≫= insert_core (Some this) k v (structs m) (datas m) with
  | Some (σ, δ, h, n) => Done (n, mk_memory σ δ (<[this := h]> (heaps m)))
  | None => NullDeref
  end.

(** Modelled from the spec: [extract_min] (section 4.4; line 255 declares
    [remove()] without a body).  An empty heap gives none.  The removed
    structure object is destroyed once it is out of the forest; the handle
    that is returned keeps its data object. *)
Definition remove (this : addr) : M (option node) :=
  h ← deref_h (Some this);
  match min h with
  | None => mret None
  | Some z =>
      n ← node_of (Some z);
      _ ← (λ m,
           match unlink_min z (structs m) (datas m) h with
           | Some (σ, h') =>
               Done (tt, mk_memory σ (datas m) (<[this := h']> (heaps m)))
           | None => NullDeref
           end);
      _ ← destroy_structure z;
      mret (Some n)
  end.

(** Modelled from the spec: [meld(other)] (section 4.4; line 243 declares
    it without a body). *)
Definition meld (this other : addr) : M unit :=
  h ← deref_h (Some this);
  g ← deref_h (Some other);
  _ ← match min h, min g with
      | _, None => mret tt
      | None, Some b => modify_h (Some this) (set_min (Some b))
      | Some a, Some b =>
          ka ← key_at a;
          kb ← key_at b;
          _ ← core_s (ring_splice a b);
          modify_h (Some this)
            (set_min (if Compare kb ka then Some b else Some a))
      end;
  _ ← modify_h (Some this) (set_size (size_t_wrap (_size h + _size g)));
  store_h other (mk_heap None 0).

(** The structural part shared by [decrease_key] and [delete]: [x] is cut
    from its parent, which then takes a cascading cut. *)
Definition cut_to_root (this : addr) (x : addr) : M unit :=
  h ← deref_h (Some this);
  s ← deref_s (Some x);
  match parent s, min h with
  | Some p, Some m =>
      _ ← core_s (cut m x);
      core_s (cascading_cut (Z.to_nat (_size h)) m p)
  | Some p, None => null_deref
  | None, _ => mret tt
  end.

(** Modelled from the spec: [decrease_key(h, new_key)] (section 4.4 and the
    error kinds of section 7; line 250 declares it without a body).  The
    result is the error reported to the caller, if any. *)
Definition decrease_key (this : addr) (n : node) (new_key : K)
  : M (option error) :=
  d ← deref_d (internal n);
  x ← lock_s (internal_data.structure d);
  match x with
  | None => mret (Some StaleHandle)
  | Some x =>
      if Compare (internal_data.key d) new_key then mret (Some InvalidKey)
      else
        _ ← modify_d (internal n) (set_key new_key);
        s ← deref_s (Some x);
        _ ← match parent s with
            | Some p =>
                kp ← key_at p;
                if Compare new_key kp then cut_to_root this x else mret tt
            | None => mret tt
            end;
        h ← deref_h (Some this);
        km ← match min h with Some m => key_at m | None => null_deref end;
        _ ← (if Compare new_key km
             then modify_h (Some this) (set_min (Some x)) else mret tt);
        mret None
  end.

(** Modelled from the spec: [delete(h)] (section 4.4; line 261 declares
    [remove(node)] without a body), in its structural form: the node is cut
    to the root list, takes the place of [min], and is extracted. *)
Definition remove_node (this : addr) (n : node) : M (error + node) :=
  d ← deref_d (internal n);
  x ← lock_s (internal_data.structure d);
  match x with
  | None => mret (inl StaleHandle)
  | Some x =>
      _ ← cut_to_root this x;
      _ ← modify_h (Some this) (set_min (Some x));
      r ← remove this;
      match r with
      | Some n' => mret (inr n')
      | None => null_deref
      end
  end.

(** [insert(node)] and the list constructor over the modelled [insert]. *)
Definition insert_node : addr → node → M node := insert_node_with insert.
Definition list_constructor : addr → list (K * T) → M unit :=
  list_constructor_with insert.

(** Calling [remove] until the heap reports that it is empty, reading key
    and value through each handle that comes back. *)
Fixpoint extract_all (fuel : nat) (this : addr) : M (list (K * T)) :=
  match fuel with
  | O => out_of_fuel
  | S fuel =>
      r ← remove this;
      match r with
      | None => mret []
      | Some n =>
          k ← node_key n;
          v ← node_data n;
          rest ← extract_all fuel this;
          mret ((k, v) :: rest)
      end
  end.

(** ** Forests laid out in the memory

    What the helpers of test.cpp walk: sibling lists closed by
    [right_sibling], entered through [min] or a [child] pointer, and parent
    pointers followed upwards. *)

(** A tree as a term: the address of a node and the trees of its children,
    listed as [right_sibling] runs from the node that [child] points to. *)
Inductive tree : Type := Node (a : addr) (children : list tree).

Definition tree_root (t : tree) : addr :=
  match t with Node a _ => a end.

Fixpoint tree_size (t : tree) : nat :=
  match t with
  | Node _ cs =>
      S ((fix sum (cs : list tree) : nat :=
            match cs with
            | [] => O
            | c :: cs => (tree_size c + sum cs)%nat
            end) cs)
  end.
Definition forest_size (ts : list tree) : nat :=
  foldr (λ t n, (tree_size t + n)%nat) O ts.

(** Along [l], [right_sibling] leads from each element to the next, and
    from the last one to [b]. *)
Fixpoint chain (R : addr → ptr) (l : list addr) (b : addr) : Prop :=
  match l with
  | [] => True
  | a :: l' => R a = Some (hd b l') ∧ chain R l' b
  end.

(** [l] is a sibling list that [right_sibling] closes: from the last
    element back to the first, none met twice. *)
Definition right_ring (σ : gmap positive internal_structure)
    (l : list addr) : Prop :=
  NoDup l ∧ chain (right_of σ) l (hd 1%positive l).

(** The tree is laid out in [σ]: the [child] pointer of its node enters the
    closed sibling list of its children's nodes (it is null when there is
    none), and so on below. *)
Fixpoint laid_out (σ : gmap positive internal_structure) (t : tree)
  : Prop :=
  match t with
  | Node a cs =>
      child_of σ a = head (tree_root <$> cs)
      ∧ right_ring σ (tree_root <$> cs)
      ∧ (fix each (cs : list tree) : Prop :=
           match cs with
           | [] => True
           | c :: cs => laid_out σ c ∧ each cs
           end) cs
  end.
Definition forest_laid_out (σ : gmap positive internal_structure)
    (ts : list tree) : Prop :=
  right_ring σ (tree_root <$> ts) ∧ Forall (laid_out σ) ts.

(** [path] lists the nodes from one node up to, and without, [r]: each has
    for parent the next one, which is allocated; [r] is allocated and has no
    parent, or one that is gone. *)
Fixpoint ascent (σ : gmap positive internal_structure)
    (path : list addr) (r : addr) : Prop :=
  match path with
  | [] =>
      is_Some (σ !! r)
      ∧ match parent_of σ r with
        | Some q => σ !! q = None
        | None => True
        end
  | a :: path' =>
      parent_of σ a = Some (hd r path')
      ∧ is_Some (σ !! a) ∧ ascent σ path' r
  end.

(** ** Heaps as finite maps *)

(** The heap object at [this] stands for the nodes of [G]. *)
Definition represents (m : memory) (this : addr) (G : gmap positive (K * T))
  : Prop :=
  ∃ h, heaps m !! this = Some h ∧ heap_inv (structs m) (datas m) G h.

(** The pairs that the nodes of [G] hold. *)
Definition contents (G : gmap positive (K * T)) : list (K * T) :=
  (map_to_list G).*2.

(** [a] may come before [b]: the key of [b] is not less than the key of
    [a]. *)
Definition key_le (a b : K * T) : Prop := Compare b.1 a.1 = false.

(** A heap is built at [this] from the pairs of [S], and emptied. *)
Definition sort_run (fuel : nat) (this : addr) (S : list (K * T))
  : M (list (K * T)) :=
  _ ← list_constructor this S;
  extract_all fuel this.

End Heap.

(** ** Concrete memories, for [int] keys and data as in test.cpp *)

(** A heap at address 1 that holds one node, with key 1 and data 1. *)
Definition one_node_memory : @memory Z Z :=
  mk_memory
    {[ 1%positive :=
         mk_structure false 0 (Some 1%positive) (Some 1%positive)
           (Some 1%positive) None None (Some 1%positive) ]}
    {[ 1%positive := internal_data.mk (Some 1%positive) 1 1 ]}
    {[ 1%positive := mk_heap (Some 1%positive) 1 ]}.

(** An empty heap at address 1, in a memory with nothing else. *)
Definition empty_heap_memory : @memory Z Z :=
  mk_memory ∅ ∅ {[ 1%positive := mk_heap None 0 ]}.

(** Two heaps of one node each: at address 1 with key 5, at address 2 with
    key 3. *)
Definition two_heaps_memory : @memory Z Z :=
  mk_memory
    {[ 1%positive :=
         mk_structure false 0 (Some 1%positive) (Some 1%positive)
           (Some 1%positive) None None (Some 1%positive);
       2%positive :=
         mk_structure false 0 (Some 2%positive) (Some 2%positive)
           (Some 2%positive) None None (Some 2%positive) ]}
    {[ 1%positive := internal_data.mk (Some 1%positive) 5 50;
       2%positive := internal_data.mk (Some 2%positive) 3 30 ]}
    {[ 1%positive := mk_heap (Some 1%positive) 1;
       2%positive := mk_heap (Some 2%positive) 1 ]}.

(** A heap at address 1 with three nodes: the roots 1 (key 1) and 2
    (key 4), and the node 3 (key 6), the child of 2. *)
Definition three_node_memory : @memory Z Z :=
  mk_memory
    {[ 1%positive :=
         mk_structure false 0 (Some 1%positive) (Some 2%positive)
           (Some 2%positive) None None (Some 1%positive);
       2%positive :=
         mk_structure false 1 (Some 2%positive) (Some 1%positive)
           (Some 1%positive) (Some 3%positive) None (Some 1%positive);
       3%positive :=
         mk_structure false 0 (Some 3%positive) (Some 3%positive)
           (Some 3%positive) None (Some 2%positive) (Some 1%positive) ]}
    {[ 1%positive := internal_data.mk (Some 1%positive) 1 10;
       2%positive := internal_data.mk (Some 2%positive) 4 40;
       3%positive := internal_data.mk (Some 3%positive) 6 60 ]}
    {[ 1%positive := mk_heap (Some 1%positive) 3 ]}.

(** The nodes of [three_node_memory], with their keys and data. *)
Definition three_node_contents : gmap positive (Z * Z) :=
  {[ 1%positive := (1, 10); 2%positive := (4, 40); 3%positive := (6, 60) ]}.

(** [one_node_memory] with one more heap, empty, at address 2. *)
Definition one_node_and_empty_memory : @memory Z Z :=
  with_heaps (<[2%positive := mk_heap None 0]> (heaps one_node_memory))
    one_node_memory.

(** The forest of [three_node_memory]. *)
Definition three_node_forest : list tree :=
  [Node 1%positive []; Node 2%positive [Node 3%positive []]].

(** ** Helpers of test.cpp that compare keys

    test.cpp instantiates the heap as [fibonacci_heap<int,int>]; the keys
    are read as integers. *)

(** [fibonacci_test::test_min_ptr] (test.cpp, lines 94-98).  The result
    tells whether every [ASSERT_LE] held; the first one that does not
    leaves the function. *)
Fixpoint test_min_ptr_loop (fuel : nat) (mn p : ptr) : @M Z Z bool :=
  match fuel with
  | O => out_of_fuel
  | S fuel =>
      if decide (p = mn) then mret true else
      s ← deref_s mn;
      dm ← deref_d (data s);
      s ← deref_s p;
      dp ← deref_d (data s);
      if internal_data.key dm <=? internal_data.key dp then
        s ← deref_s p;
        test_min_ptr_loop fuel mn (right_sibling s)
      else mret false
  end.
Definition test_min_ptr (fuel : nat) (fh_ : addr) : @M Z Z bool :=
  h ← deref_h (Some fh_);
  s ← deref_s (min h);
  test_min_ptr_loop fuel (min h) (right_sibling s).

(** A memory with a data object whose structure is gone. *)
Definition stale_memory : @memory Z Z :=
  mk_memory ∅ {[ 1%positive := internal_data.mk None 1 1 ]}
    {[ 1%positive := mk_heap None 0 ]}.

(** The node of [one_node_memory] is destroyed while a handle to its data
    is held, and the key is read through the handle. *)
Definition stale_read : @M Z Z Z :=
  _ ← destroy_structure 1%positive;
  node_key (mk_node (Some 1%positive)).

(* ================================================================== *)
(** * Properties *)

Section Properties.

Context {K T : Type}.
Variable Compare : K → K → bool.

#[local] Abbreviation memory := (@memory K T).
#[local] Abbreviation M := (@M K T).

(** ** The monad *)

Lemma bind_Done {A B} (c : M A) (f : A → M B) (m m' : memory) a :
  c m = Done (a, m') → (c ≫= f) m = f a m'.
Proof. unfold mbind, M_bind. by intros ->. Qed.

Lemma bind_assoc {A B C} (c : M A) (f : A → M B) (g : B → M C) m :
  ((c ≫= f) ≫= g) m = (c ≫= (λ a, f a ≫= g)) m.
Proof.
  unfold mbind, M_bind. destruct (c m) as [[a m']| | |]; reflexivity.
Qed.

(** Running one primitive step of a sequence: the lookups it makes are
    settled by rewriting with what is known about the maps. *)
Ltac mprim :=
  unfold deref_h, deref_s, deref_d, modify_h, modify_s, modify_d, store_h,
    free_s, make_shared_s, make_shared_d, lock_s, mret, M_ret;
  simpl;
  repeat first
    [ rewrite lookup_insert_eq
    | match goal with H : _ !! _ = _ |- _ => rewrite H end ];
  simpl; try reflexivity.
Ltac mstep := erewrite bind_Done by mprim.

Lemma bind_NullDeref {A B} (c : M A) (f : A → M B) (m : memory) :
  c m = NullDeref → (c ≫= f) m = NullDeref.
Proof. unfold mbind, M_bind. by intros ->. Qed.

(** ** [duplicate_nodes] *)

(** Past its first line, the body of [duplicate_nodes] has no [return]:
    a call whose [root] differs from [head] never hands back a pointer. *)
Lemma duplicate_nodes_not_done fuel fh_ root head newhead (m : memory) r :
  root ≠ head →
  duplicate_nodes fuel fh_ root head newhead m ≠ Done r.
Proof.
  intros Hne. destruct fuel as [|fuel]; [discriminate|].
  cbn [duplicate_nodes]. rewrite decide_False by done.
  unfold mbind, M_bind, no_return.
  repeat match goal with
  | |- match ?c with _ => _ end ≠ _ => destruct c as [[? ?]| | |]
  | |- (if ?c then _ else _) _ ≠ _ => destruct c
  end; discriminate.
Qed.

#[local] Arguments duplicate_nodes : simpl never.

(** One unfolding of the recursion. *)
Lemma duplicate_nodes_S fuel fh_ root head newhead :
  @duplicate_nodes K T (S fuel) fh_ root head newhead =
    if decide (root = head) then mret None else
    r ← deref_s root;
    newroot ← make_shared_s r;
    let head' := if decide (head = None) then root else head in
    let newhead' := if decide (head = None) then Some newroot else newhead in
    r ← deref_s root;
    rd ← deref_d (data r);
    newroot_data ← make_shared_d rd;
    _ ← modify_d (Some newroot_data) (set_structure (Some newroot));
    _ ← modify_s (Some newroot) (set_data (Some newroot_data));
    _ ← modify_s (Some newroot) (set_fh fh_);
    r ← deref_s root;
    rs ← duplicate_nodes fuel fh_ (right_sibling r) head' newhead';
    _ ← modify_s (Some newroot) (set_right_sibling rs);
    nr ← deref_s (Some newroot);
    _ ← (if decide (right_sibling nr = None)
         then modify_s (Some newroot) (set_right_sibling newhead')
         else mret tt);
    nr ← deref_s (Some newroot);
    _ ← modify_s (right_sibling nr) (set_left_sibling (Some newroot));
    r ← deref_s root;
    c ← duplicate_nodes fuel fh_ (child r) None None;
    _ ← modify_s (Some newroot) (set_child c);
    _ ← modify_s (Some newroot) (set_parent None);
    nr ← deref_s (Some newroot);
    _ ← (if decide (child nr = None)
         then mret tt
         else modify_s (child nr) (set_parent (Some newroot)));
    no_return.
Proof. reflexivity. Qed.

(** Inside a ring, a null [right_sibling] is dereferenced. *)
Lemma duplicate_nodes_null_root fuel fh_ head newhead (m : memory) :
  head ≠ None →
  duplicate_nodes (S fuel) fh_ None head newhead m = NullDeref.
Proof.
  intros Hne. rewrite duplicate_nodes_S.
  destruct (decide (None = head)) as [<-|_]; [done|]. done.
Qed.

(** C2 (defect).  Copy-construction from a heap that is not empty never
    yields a root pointer: [duplicate_nodes] is entered with a [root] that
    differs from [head] and runs off its end, so no copy with the nodes,
    links and [min] of the original is produced. *)
Theorem copy_constructor_returns_no_root fuel this old (m : memory) h a r :
  heaps m !! old = Some h →
  min h = Some a →
  copy_constructor fuel this old m ≠ Done r.
Proof.
  intros Hh Hmin. unfold copy_constructor.
  unfold mbind at 1. unfold M_bind, deref_h. simpl. rewrite Hh.
  unfold mbind at 1. unfold M_bind.
  destruct (duplicate_nodes _ _ _ _ _ _) as [[p m']| | |] eqn:E;
    try discriminate.
  exfalso. revert E. apply duplicate_nodes_not_done. by rewrite Hmin.
Qed.

(** Copy-construction from an empty heap does complete, with an empty
    copy. *)
Lemma copy_constructor_empty fuel this old (m : memory) h :
  heaps m !! old = Some h →
  min h = None →
  copy_constructor (S fuel) this old m =
    Done (tt, with_heaps (<[this := mk_heap None (_size h)]> (heaps m)) m).
Proof.
  intros Hh Hmin. unfold copy_constructor, mbind, M_bind, deref_h. simpl.
  rewrite Hh, Hmin. simpl. by rewrite Hh.
Qed.

(** ** Copy assignment *)

(** C10 (defect).  Assigning a heap that is not empty to itself does not
    leave it unchanged: the destructor's body resets [min->right_sibling],
    and the duplication that follows reads the same node as [old.min] and
    dereferences that null pointer. *)
Theorem self_assignment_dereferences_null fuel this (m : memory) h a n :
  heaps m !! this = Some h →
  min h = Some a →
  structs m !! a = Some n →
  copy_assignment (S (S fuel)) this this m = NullDeref.
Proof.
  intros Hh Hmin Ha. unfold copy_assignment.
  mstep. rewrite decide_False by (by rewrite Hmin).
  unfold destructor_body.
  erewrite (bind_Done (_ ≫= _)); cycle 1.
  { mstep. rewrite decide_False by (by rewrite Hmin). rewrite Hmin.
    mprim. }
  mstep. mstep. mstep. cbn [min set_size]. rewrite Hmin.
  (* the duplication starts at [a], whose right sibling is now null *)
  set (m1 := with_heaps _ _).
  assert (Ha1 : structs m1 !! a = Some (set_right_sibling None n))
    by (subst m1; simpl; by rewrite lookup_insert_eq).
  assert (Hfresh : structs m1 !! fresh (dom (structs m1)) = None)
    by (apply not_elem_of_dom, is_fresh).
  assert (Hne : fresh (dom (structs m1)) ≠ a) by congruence.
  clearbody m1.
  apply bind_NullDeref. rewrite duplicate_nodes_S.
  destruct (decide (Some a = None)) as [|_]; [done|].
  mstep. mstep. simpl.
  erewrite bind_Done
    by (unfold deref_s; simpl; rewrite lookup_insert_ne by done;
        rewrite Ha1; reflexivity).
  simpl. destruct (data n) as [dn|]; [|done].
  destruct (datas m1 !! dn) as [d|] eqn:Hd; [|by apply bind_NullDeref; mprim].
  mstep. mstep. mstep. mstep. mstep.
  erewrite bind_Done
    by (unfold deref_s; simpl; rewrite !lookup_insert_ne by done;
        rewrite Ha1; reflexivity).
  cbn [right_sibling set_right_sibling].
  by apply bind_NullDeref, duplicate_nodes_null_root.
Qed.

(** Self-assignment of an empty heap completes and changes nothing in the
    heap object. *)
Lemma self_assignment_empty fuel this (m : memory) h :
  heaps m !! this = Some h →
  min h = None →
  copy_assignment (S fuel) this this m = Done (tt, m).
Proof.
  intros Hh Hmin. unfold copy_assignment.
  mstep. rewrite decide_True by done.
  mstep. mstep. mstep. mstep. cbn [min set_size]. rewrite Hmin.
  rewrite duplicate_nodes_S. rewrite decide_True by done.
  mstep. mprim.
  destruct m as [σ δ hs], h as [mn sz]. simpl in *. subst mn.
  unfold with_heaps, set_min, set_size. simpl.
  by rewrite !insert_insert_eq, insert_id.
Qed.

(** ** [top], [remove] and the empty heap *)

(** C3 (amended).  On an empty heap [remove] returns none and leaves the
    memory as it is, while [top] has no none to return: it dereferences the
    null [min].  On a heap that is not empty [top] returns the handle of the
    data of [min]; whenever it returns, the memory is unchanged. *)
Theorem top_and_remove_on_empty this (m : memory) h :
  heaps m !! this = Some h →
  (min h = None →
     remove Compare this m = Done (None, m) ∧ top this m = NullDeref)
  ∧ (∀ a n, min h = Some a → structs m !! a = Some n →
       top this m = Done (mk_node (data n), m))
  ∧ (∀ r m', top this m = Done (r, m') → m' = m).
Proof.
  intros Hh. split; [|split].
  - intros Hmin. split.
    + unfold remove. mstep. by rewrite Hmin.
    + unfold top. mstep. by rewrite Hmin.
  - intros a n Hmin Ha. unfold top. mstep. rewrite Hmin.
    unfold node_of. mstep. done.
  - intros r m'. unfold top. mstep. unfold node_of, mbind, M_bind, deref_s.
    destruct (min h) as [a|]; [|done].
    destruct (structs m !! a); [|done].
    unfold mret, M_ret. by intros [= _ <-].
Qed.

(** ** Handles *)

(** Reading through a handle whose data object is allocated. *)
Lemma node_key_live (n : node) (m : memory) p d :
  internal n = Some p → datas m !! p = Some d →
  node_key n m = Done (internal_data.key d, m).
Proof. intros Hn Hd. unfold node_key. rewrite Hn. by mstep. Qed.

Lemma node_data_live (n : node) (m : memory) p d :
  internal n = Some p → datas m !! p = Some d →
  node_data n m = Done (internal_data.data d, m).
Proof. intros Hn Hd. unfold node_data. rewrite Hn. by mstep. Qed.

(** C5.  [decrease_key] through a live handle with a key that is worse than
    the node's key reports [InvalidKey] and leaves the memory unchanged. *)
Theorem decrease_key_worse_key this (n : node) new_key (m : memory) p d x s :
  internal n = Some p →
  datas m !! p = Some d →
  internal_data.structure d = Some x →
  structs m !! x = Some s →
  Compare (internal_data.key d) new_key = true →
  decrease_key Compare this n new_key m = Done (Some InvalidKey, m).
Proof.
  intros Hn Hd Hx Hs Hworse. unfold decrease_key. rewrite Hn.
  mstep. rewrite Hx. mstep. by rewrite Hworse.
Qed.

(** C6 (amended).  Through a handle whose node has been removed (the
    structure pointer of its data object is null or expired),
    [decrease_key] and [remove(node)] report [StaleHandle] and leave the
    memory unchanged; [key()] and [data()] are no errors: they return what
    the data object, which the handle keeps, still stores. *)
Theorem stale_handle_operations this (n : node) (m : memory) p d :
  internal n = Some p →
  datas m !! p = Some d →
  (∀ x, internal_data.structure d = Some x → structs m !! x = None) →
  node_key n m = Done (internal_data.key d, m)
  ∧ node_data n m = Done (internal_data.data d, m)
  ∧ (∀ k, decrease_key Compare this n k m = Done (Some StaleHandle, m))
  ∧ remove_node Compare this n m = Done (inl StaleHandle, m).
Proof.
  intros Hn Hd Hx.
  assert (Hlock : lock_s (internal_data.structure d) m = Done (None, m)).
  { unfold lock_s. destruct (internal_data.structure d) as [x|]; [|done].
    by rewrite (Hx x eq_refl). }
  repeat split.
  - by apply node_key_live with p.
  - by apply node_data_live with p.
  - intros k. unfold decrease_key. rewrite Hn. mstep.
    by rewrite (bind_Done _ _ _ _ _ Hlock).
  - unfold remove_node. rewrite Hn. mstep.
    by rewrite (bind_Done _ _ _ _ _ Hlock).
Qed.

(** C9.  [insert(n)] is [insert(n.key(), n.data())]: the node object only
    has its key and data read, by value, and is not handed on, so it is not
    attached again; and as [insert(K, const T&)] returns a handle to a data
    object that it allocates, the handle that comes back differs from
    [n]. *)
Theorem insert_node_inserts_a_copy
    (insert_kv : addr → K → T → M node) this (n : node) (m : memory) p d :
  internal n = Some p →
  datas m !! p = Some d →
  (∀ k v n' m' q, insert_kv this k v m = Done (n', m') →
     internal n' = Some q → datas m !! q = None) →
  insert_node_with insert_kv this n m
    = insert_kv this (internal_data.key d) (internal_data.data d) m
  ∧ ∀ n' m', insert_node_with insert_kv this n m = Done (n', m') → n' ≠ n.
Proof.
  intros Hn Hd Hfresh.
  assert (Heq : insert_node_with insert_kv this n m
                = insert_kv this (internal_data.key d) (internal_data.data d) m).
  { unfold insert_node_with.
    rewrite (bind_Done _ _ _ _ _ (node_key_live n m p d Hn Hd)).
    by rewrite (bind_Done _ _ _ _ _ (node_data_live n m p d Hn Hd)). }
  split; [done|]. intros n' m' Hrun Hsame. subst n'.
  rewrite Heq in Hrun.
  specialize (Hfresh _ _ _ _ _ Hrun Hn). congruence.
Qed.

(** The modelled [insert] returns a handle to a data object that was not
    allocated before the call, and leaves the data objects that were as they
    are. *)
Lemma insert_returns_fresh_handle this k v (m : memory) n' m' q :
  insert Compare this k v m = Done (n', m') →
  internal n' = Some q →
  datas m !! q = None
  ∧ datas m' !! q = Some (internal_data.mk (Some (fresh (dom (structs m)))) k v)
  ∧ ∀ p d, datas m !! p = Some d → datas m' !! p = Some d.
Proof.
  unfold insert, insert_core. intros Hrun Hq.
  destruct (heaps m !! this) as [h|]; simpl in Hrun; [|done].
  assert (Hnone : datas m !! fresh (dom (datas m)) = None)
    by apply not_elem_of_dom, is_fresh.
  destruct (min h) as [mn|]; simpl in Hrun.
  - destruct (ring_splice _ _ _) as [σ2|]; simpl in Hrun; [|done].
    destruct (key_of _ _ _) as [km|]; simpl in Hrun; [|done].
    injection Hrun as <- <-. simpl in *. injection Hq as <-.
    split; [done|]. split; [by rewrite lookup_insert_eq|].
    intros p d Hp. rewrite lookup_insert_ne; [done|congruence].
  - injection Hrun as <- <-. simpl in *. injection Hq as <-.
    split; [done|]. split; [by rewrite lookup_insert_eq|].
    intros p d Hp. rewrite lookup_insert_ne; [done|congruence].
Qed.

(** ** Construction from a list *)

Lemma for_each_insert_foldl insert_kv this (l : list (K * T))
    (so_far : M unit) (m : memory) :
  (_ ← so_far; for_each_insert insert_kv this l) m =
  foldl (λ (so_far : M unit) (kv : K * T),
           _ ← so_far; _ ← insert_kv this (fst kv) (snd kv); mret tt)
        so_far l m.
Proof.
  revert so_far m. induction l as [|kv l IH]; intros so_far m; simpl.
  - unfold mbind, M_bind, mret, M_ret.
    by destruct (so_far m) as [[[] m']| | |].
  - rewrite <- IH. unfold mbind, M_bind, mret, M_ret.
    destruct (so_far m) as [[[] m']| | |]; try done.
    by destruct (insert_kv this kv.1 kv.2 m') as [[? m'']| | |].
Qed.

(** C8.  The constructor from an initializer list behaves as the
    construction of an empty heap followed by one [insert] per pair, in the
    order of the list; this holds whatever [insert] does. *)
Theorem list_constructor_is_inserts insert_kv this (l : list (K * T))
    (m : memory) :
  list_constructor_with insert_kv this l m =
  construct_then_insert insert_kv this l m.
Proof.
  unfold list_constructor_with, construct_then_insert, default_constructor.
  apply for_each_insert_foldl.
Qed.

End Properties.

(** C2, at [one_node_memory]. *)
Lemma copy_constructor_returns_no_root_witness :
  copy_constructor 5 2%positive 1%positive one_node_memory
  ≠ Done (tt, one_node_memory).
Proof.
  apply (copy_constructor_returns_no_root 5 2%positive 1%positive
           one_node_memory (mk_heap (Some 1%positive) 1) 1%positive);
    reflexivity.
Defined.

(** C10, at [one_node_memory]. *)
Lemma self_assignment_dereferences_null_witness :
  copy_assignment 5 1%positive 1%positive one_node_memory = NullDeref.
Proof.
  apply (self_assignment_dereferences_null 3 1%positive one_node_memory
           (mk_heap (Some 1%positive) 1) 1%positive
           (mk_structure false 0 (Some 1%positive) (Some 1%positive)
              (Some 1%positive) None None (Some 1%positive)));
    reflexivity.
Defined.

(** C7 (defect).  In [one_node_memory] the stored length is 1 and
    [count_nodes] counts 1, yet the copy constructor, a public operation,
    yields no heap for which the two could agree: it stops without a
    root pointer for [min]. *)
Theorem size_not_kept_by_copy :
  (h ← deref_h (Some 1%positive); count_nodes 3 (min h)) one_node_memory
    = Done (1, one_node_memory)
  ∧ size 1%positive one_node_memory = Done (1, one_node_memory)
  ∧ copy_constructor 5 2%positive 1%positive one_node_memory = NoReturn.
Proof. repeat split; vm_compute; reflexivity. Qed.

(** C3, as stated, fails on the empty heap of [empty_heap_memory]: [top]
    does not come back with a result. *)
Lemma top_of_empty_heap_fails :
  ¬ ∃ r, top 1%positive empty_heap_memory = Done r.
Proof. intros [r Hr]. vm_compute in Hr. discriminate. Qed.

(** C3 (amended), at [empty_heap_memory]. *)
Lemma top_and_remove_on_empty_witness :
  (min (mk_heap None 0) = None →
     remove Z.ltb 1%positive empty_heap_memory = Done (None, empty_heap_memory)
     ∧ top 1%positive empty_heap_memory = NullDeref)
  ∧ (∀ a n, min (mk_heap None 0) = Some a →
       structs empty_heap_memory !! a = Some n →
       top 1%positive empty_heap_memory
       = Done (mk_node (data n), empty_heap_memory))
  ∧ (∀ r m', top 1%positive empty_heap_memory = Done (r, m') →
       m' = empty_heap_memory).
Proof.
  apply (top_and_remove_on_empty Z.ltb 1%positive empty_heap_memory
           (mk_heap None 0)).
  reflexivity.
Defined.

(** C6, as stated, fails: in [one_node_memory] the node is destroyed, the
    structure pointer of its data object is reset, and reading the key
    through the handle is no error but gives the key, 1. *)
Lemma key_through_stale_handle :
  ∃ m, stale_read one_node_memory = Done (1, m)
       ∧ structs m = ∅
       ∧ internal_data.structure <$> datas m !! 1%positive = Some None.
Proof. eexists. vm_compute. repeat split; reflexivity. Qed.

(** C6 (amended), at [stale_memory]. *)
Lemma stale_handle_operations_witness :
  node_key (mk_node (Some 1%positive)) stale_memory = Done (1, stale_memory)
  ∧ node_data (mk_node (Some 1%positive)) stale_memory = Done (1, stale_memory)
  ∧ (∀ k, decrease_key Z.ltb 1%positive (mk_node (Some 1%positive)) k
            stale_memory = Done (Some StaleHandle, stale_memory))
  ∧ remove_node Z.ltb 1%positive (mk_node (Some 1%positive)) stale_memory
    = Done (inl StaleHandle, stale_memory).
Proof.
  apply (stale_handle_operations Z.ltb 1%positive (mk_node (Some 1%positive))
           stale_memory 1%positive (internal_data.mk None 1 1)).
  - reflexivity.
  - reflexivity.
  - intros x Hx. discriminate.
Defined.

(** C5, at [one_node_memory]: the key 1 is not to be "decreased" to 2. *)
Lemma decrease_key_worse_key_witness :
  decrease_key Z.ltb 1%positive (mk_node (Some 1%positive)) 2 one_node_memory
  = Done (Some InvalidKey, one_node_memory).
Proof.
  apply (decrease_key_worse_key Z.ltb 1%positive (mk_node (Some 1%positive)) 2
           one_node_memory 1%positive (internal_data.mk (Some 1%positive) 1 1)
           1%positive
           (mk_structure false 0 (Some 1%positive) (Some 1%positive)
              (Some 1%positive) None None (Some 1%positive)));
    reflexivity.
Defined.

(** C9, at [one_node_memory], with the modelled [insert] and the handle of
    the node that is already in the heap. *)
Lemma insert_node_inserts_a_copy_witness :
  insert_node_with (insert Z.ltb) 1%positive (mk_node (Some 1%positive))
    one_node_memory
  = insert Z.ltb 1%positive 1 1 one_node_memory
  ∧ ∀ n' m',
      insert_node_with (insert Z.ltb) 1%positive (mk_node (Some 1%positive))
        one_node_memory = Done (n', m') →
      n' ≠ mk_node (Some 1%positive).
Proof.
  apply (insert_node_inserts_a_copy (insert Z.ltb) 1%positive
           (mk_node (Some 1%positive)) one_node_memory 1%positive
           (internal_data.mk (Some 1%positive) 1 1)).
  - reflexivity.
  - reflexivity.
  - intros k v n' m' q Hrun Hq.
    exact (proj1 (insert_returns_fresh_handle Z.ltb 1%positive k v
                    one_node_memory n' m' q Hrun Hq)).
Defined.

(* ================================================================== *)
(** * Well-formed heaps: insert, extract_min and meld *)

(** ** Sibling rings *)

Section Rings.
Implicit Types (R L : addr → ptr) (l : list addr) (a b x : addr).

Lemma hd_app_default l1 l2 b : hd b (l1 ++ l2) = hd (hd b l2) l1.
Proof. by destruct l1. Qed.

Lemma seg_app R L l1 l2 b :
  seg R L (l1 ++ l2) b ↔ seg R L l1 (hd b l2) ∧ seg R L l2 b.
Proof.
  induction l1 as [|a l1 IH]; simpl; [tauto|].
  rewrite IH, hd_app_default. tauto.
Qed.

Lemma seg_frame R L R' L' l b :
  (∀ x, x ∈ l → R' x = R x) →
  (∀ x, x ∈ tl (l ++ [b]) → L' x = L x) →
  seg R L l b → seg R' L' l b.
Proof.
  revert b. induction l as [|a l IH]; intros b HR HL; simpl; [done|].
  intros (Ha & Hb & Hseg). split; [|split].
  - rewrite HR; [done|set_solver].
  - rewrite HL; [done|]. simpl. destruct l; set_solver.
  - apply IH; [| |done].
    + intros x Hx. apply HR. set_solver.
    + intros x Hx. apply HL. simpl. destruct l; simpl in *; set_solver.
Qed.

Lemma cycle_nil R L : cycle R L [].
Proof. split; [constructor|done]. Qed.

Lemma cycle_single R L a :
  R a = Some a → L a = Some a → cycle R L [a].
Proof. intros HR HL. split; [apply NoDup_singleton|]. by simpl. Qed.

Lemma cycle_rotate R L l1 l2 : cycle R L (l1 ++ l2) → cycle R L (l2 ++ l1).
Proof.
  intros [Hnd Hseg]. split.
  { by rewrite (comm (++)) in Hnd. }
  destruct l2 as [|b l2]; [by rewrite app_nil_r in *|].
  destruct l1 as [|a l1]; [by rewrite app_nil_r in *|].
  simpl hd in *. rewrite seg_app in Hseg. rewrite seg_app.
  simpl hd in *. tauto.
Qed.

Lemma cycle_frame R L R' L' l :
  (∀ x, x ∈ l → R' x = R x ∧ L' x = L x) →
  cycle R L l → cycle R' L' l.
Proof.
  intros Hsame [Hnd Hseg]. split; [done|].
  revert Hseg. apply seg_frame.
  - intros x Hx. by apply Hsame.
  - intros x Hx. apply Hsame.
    destruct l as [|a l]; simpl in *; set_solver.
Qed.

(** Pointers stay inside the ring. *)
Lemma seg_right_in R L l b x :
  seg R L l b → x ∈ l → ∃ y, R x = Some y ∧ y ∈ l ++ [b].
Proof.
  revert b. induction l as [|a l IH]; intros b; simpl;
    [by intros _ ?%elem_of_nil|].
  intros (Ha & _ & Hseg) [->|Hx]%elem_of_cons.
  - eexists; split; [done|]. destruct l; set_solver.
  - destruct (IH _ Hseg Hx) as (y & Hy & Hin). exists y. set_solver.
Qed.

Lemma cycle_right_in R L l x :
  cycle R L l → x ∈ l → ∃ y, R x = Some y ∧ y ∈ l.
Proof.
  intros [_ Hseg] Hx.
  destruct (seg_right_in _ _ _ _ _ Hseg Hx) as (y & Hy & Hin).
  exists y. split; [done|]. destruct l; set_solver.
Qed.

Lemma seg_left_in R L l b x :
  seg R L l b → x ∈ tl (l ++ [b]) → ∃ y, L x = Some y ∧ y ∈ l.
Proof.
  revert b. induction l as [|a l IH]; intros b; simpl;
    [by intros _ ?%elem_of_nil|].
  intros (_ & Hb & Hseg) Hx.
  destruct l as [|a' l].
  - simpl in *. exists a. set_solver.
  - simpl in Hx. apply elem_of_cons in Hx as [->|Hx].
    + exists a. set_solver.
    + destruct (IH _ Hseg) as (y & Hy & Hin); [done|].
      exists y. set_solver.
Qed.

Lemma cycle_left_in R L l x :
  cycle R L l → x ∈ l → ∃ y, L x = Some y ∧ y ∈ l.
Proof.
  intros [_ Hseg] Hx. apply (seg_left_in _ _ _ _ _ Hseg).
  destruct l as [|a l]; simpl in *; set_solver.
Qed.

(** In a ring, [L] undoes [R]. *)
Lemma seg_left_right R L l b x y :
  seg R L l b → x ∈ l → R x = Some y → L y = Some x.
Proof.
  revert b. induction l as [|a l IH]; intros b; simpl;
    [by intros _ ?%elem_of_nil|].
  intros (Ha & Hb & Hseg) [->|Hx]%elem_of_cons HR.
  - congruence.
  - by apply (IH _ Hseg).
Qed.

Lemma cycle_left_right R L l x y :
  cycle R L l → x ∈ l → R x = Some y → L y = Some x.
Proof. intros [_ Hseg]. by apply (seg_left_right _ _ _ _ _ _ Hseg). Qed.

(** The splice of two rings. *)
Lemma cycle_splice R L R' L' a la b lb :
  cycle R L (a :: la) →
  cycle R L (b :: lb) →
  (∀ x, x ∈ a :: la → x ∉ b :: lb) →
  R' a = R b → R' b = R a →
  (∀ x, x ≠ a → x ≠ b → R' x = R x) →
  L' (hd b lb) = Some a → L' (hd a la) = Some b →
  (∀ x, x ≠ hd b lb → x ≠ hd a la → L' x = L x) →
  cycle R' L' (a :: lb ++ b :: la).
Proof.
  intros [Hnda Hsa] [Hndb Hsb] Hdisj HRa HRb HR HLb HLa HL.
  simpl in Hsa, Hsb.
  destruct Hsa as (Ha1 & Ha2 & Hsa), Hsb as (Hb1 & Hb2 & Hsb).
  apply NoDup_cons in Hnda as [Hala Hnda], Hndb as [Hblb Hndb].
  assert (Hab : a ≠ b) by set_solver.
  assert (Halb : a ∉ lb) by set_solver.
  assert (Hbla : b ∉ la) by set_solver.
  assert (Hlalb : ∀ x, x ∈ la → x ∉ lb) by set_solver.
  split.
  { apply NoDup_cons. split; [set_solver|].
    apply NoDup_app. split; [done|]. split; [set_solver|].
    by apply NoDup_cons. }
  simpl. rewrite hd_app_default. simpl.
  split; [congruence|]. split; [done|].
  apply seg_app. simpl. split; [|split; [congruence|split; [done|]]].
  - revert Hsb. apply seg_frame.
    + intros x Hx. apply HR; set_solver.
    + intros x Hx. apply HL.
      * intros ->. destruct lb as [|b' lb]; simpl in *; [done|].
        apply NoDup_cons in Hndb as [Hb' _]. set_solver.
      * intros ->.
        assert (Hin : hd a la ∈ lb ∨ hd a la = b)
          by (destruct lb; simpl in Hx; set_solver).
        destruct la as [|a' la]; simpl in *; set_solver.
  - revert Hsa. apply seg_frame.
    + intros x Hx. apply HR; set_solver.
    + intros x Hx.
      assert (Hin : x ∈ la ∨ x = a) by (destruct la; simpl in Hx; set_solver).
      apply HL.
      * intros ->. destruct lb as [|b' lb]; simpl in *; set_solver.
      * intros ->. destruct la as [|a' la]; simpl in *; [done|].
        apply NoDup_cons in Hnda as [Ha' _]. set_solver.
Qed.


(** Taking the first element out of a ring of at least two. *)
Lemma cycle_remove R L R' L' x l r y :
  cycle R L (x :: l) → l ≠ [] →
  R x = Some r → L x = Some y →
  R' y = Some r → (∀ z, z ≠ y → R' z = R z) →
  L' r = Some y → (∀ z, z ≠ r → L' z = L z) →
  cycle R' L' l.
Proof.
  intros [Hnd Hseg] Hne HRx HLx HRy HR HLr HL.
  apply NoDup_cons in Hnd as [Hxl Hnd].
  destruct l as [|y' l0 _] using rev_ind; [done|].
  split; [done|].
  simpl in Hseg. destruct Hseg as (Hr & _ & Hseg).
  apply seg_app in Hseg as [Hseg0 (Hy1 & Hy2 & _)]. simpl in *.
  assert (y' = y) as -> by congruence.
  assert (hd x (l0 ++ [y]) = r) as Hhd by congruence.
  assert (hd 1%positive (l0 ++ [y]) = r) as ->
    by (rewrite <- Hhd; by destruct l0).
  apply NoDup_app in Hnd as (Hnd0 & Hy0 & _).
  apply seg_app. simpl. split; [|split; [done|split; [|done]]].
  - revert Hseg0. apply seg_frame.
    + intros z Hz. apply HR. intros ->. apply (Hy0 y Hz). set_solver.
    + intros z Hz. apply HL. intros ->.
      destruct l0 as [|a l0]; simpl in *; [set_solver|].
      subst a. apply NoDup_cons in Hnd0 as [Hr0 _].
      apply elem_of_app in Hz as [Hz|Hz]; [done|].
      apply (Hy0 r); set_solver.
  - destruct l0; simpl in *; congruence.
Qed.

(** Reading a ring rightwards. *)
Lemma ring_walk_seg R L l first cur fuel :
  seg R L (cur :: l) first → first ∉ l → (length l < fuel)%nat →
  ring_walk R fuel first cur = Some (cur :: l).
Proof.
  revert cur fuel. induction l as [|a l IH]; intros cur fuel Hseg Hfirst Hfuel;
    (destruct fuel as [|fuel]; [simpl in Hfuel; lia|]);
    simpl in *; destruct Hseg as (Hcur & _ & Hseg); rewrite Hcur; simpl.
  - by rewrite decide_True.
  - rewrite decide_False by set_solver.
    rewrite (IH a fuel); [done|done|set_solver|lia].
Qed.

Lemma ring_walk_cycle R L l1 a l2 fuel :
  cycle R L (l1 ++ a :: l2) → (length (l1 ++ a :: l2) ≤ fuel)%nat →
  ring_walk R fuel a a = Some (a :: l2 ++ l1).
Proof.
  intros Hc%cycle_rotate Hfuel. simpl in Hc. destruct Hc as [Hnd Hseg].
  apply (ring_walk_seg R L); [done| |].
  - by apply NoDup_cons in Hnd as [? _].
  - rewrite length_app in *. simpl in *. lia.
Qed.

End Rings.

(** ** Updates of structure objects, seen through the pointer fields *)

Section Store.
Implicit Types (σ : gmap positive internal_structure) (a b x y : addr).

Lemma upd_Some σ a f n :
  σ !! a = Some n → upd a f σ = Some (<[a := f n]> σ).
Proof. unfold upd. by intros ->. Qed.

Lemma upd_inv σ a f σ' :
  upd a f σ = Some σ' → ∃ n, σ !! a = Some n ∧ σ' = <[a := f n]> σ.
Proof.
  unfold upd. destruct (σ !! a) as [n|]; [|done].
  intros [= <-]. by exists n.
Qed.


Lemma field_insert {A} (proj : internal_structure → option A) σ a n' x :
  (<[a := n']> σ) !! x ≫= proj
  = if decide (x = a) then proj n' else σ !! x ≫= proj.
Proof.
  rewrite lookup_insert. destruct (decide (a = x)), (decide (x = a));
    simpl; congruence.
Qed.

Lemma field_insert_same {A} (proj : internal_structure → option A)
    σ a n n' x :
  σ !! a = Some n → proj n' = proj n →
  (<[a := n']> σ) !! x ≫= proj = σ !! x ≫= proj.
Proof.
  intros Ha Hp. rewrite field_insert. destruct (decide (x = a)) as [->|];
    [|done]. by rewrite Ha.
Qed.

Lemma alloc_insert σ a n n' x :
  σ !! a = Some n → is_Some ((<[a := n']> σ) !! x) ↔ is_Some (σ !! x).
Proof.
  intros Ha. rewrite lookup_insert. destruct (decide (a = x)) as [->|];
    [|done]. rewrite Ha. split; eauto.
Qed.

(** One field assignment. *)
Ltac same_field n :=
  let x := fresh "x" in
  intros x;
  first [ by apply field_insert_same with n
        | by apply (alloc_insert _ _ n) ].

Lemma upd_right σ a v σ' :
  upd a (set_right_sibling v) σ = Some σ' →
  (∀ x, right_of σ' x = if decide (x = a) then v else right_of σ x)
  ∧ same_left σ σ' ∧ same_parent σ σ' ∧ same_child σ σ' ∧ same_data σ σ'
  ∧ same_alloc σ σ'.
Proof.
  intros (n & Hn & ->)%upd_inv.
  split; [|split; [|split; [|split; [|split]]]]; try same_field n.
  intros x. unfold right_of. by rewrite field_insert.
Qed.

Lemma upd_left σ a v σ' :
  upd a (set_left_sibling v) σ = Some σ' →
  (∀ x, left_of σ' x = if decide (x = a) then v else left_of σ x)
  ∧ same_right σ σ' ∧ same_parent σ σ' ∧ same_child σ σ' ∧ same_data σ σ'
  ∧ same_alloc σ σ'.
Proof.
  intros (n & Hn & ->)%upd_inv.
  split; [|split; [|split; [|split; [|split]]]]; try same_field n.
  intros x. unfold left_of. by rewrite field_insert.
Qed.

Lemma upd_parent σ a (f : internal_structure → internal_structure) v σ' :
  (∀ n, parent (f n) = v) →
  (∀ n, right_sibling (f n) = right_sibling n) →
  (∀ n, left_sibling (f n) = left_sibling n) →
  (∀ n, child (f n) = child n) →
  (∀ n, data (f n) = data n) →
  upd a f σ = Some σ' →
  (∀ x, parent_of σ' x = if decide (x = a) then v else parent_of σ x)
  ∧ same_right σ σ' ∧ same_left σ σ' ∧ same_child σ σ' ∧ same_data σ σ'
  ∧ same_alloc σ σ'.
Proof.
  intros Hp Hr Hl Hc Hd (n & Hn & ->)%upd_inv.
  split; [|split; [|split; [|split; [|split]]]]; try same_field n.
  intros x. unfold parent_of. rewrite field_insert. by rewrite Hp.
Qed.

Lemma upd_child σ a (f : internal_structure → internal_structure) v σ' :
  (∀ n, child (f n) = v) →
  (∀ n, right_sibling (f n) = right_sibling n) →
  (∀ n, left_sibling (f n) = left_sibling n) →
  (∀ n, parent (f n) = parent n) →
  (∀ n, data (f n) = data n) →
  upd a f σ = Some σ' →
  (∀ x, child_of σ' x = if decide (x = a) then v else child_of σ x)
  ∧ same_right σ σ' ∧ same_left σ σ' ∧ same_parent σ σ' ∧ same_data σ σ'
  ∧ same_alloc σ σ'.
Proof.
  intros Hc Hr Hl Hp Hd (n & Hn & ->)%upd_inv.
  split; [|split; [|split; [|split; [|split]]]]; try same_field n.
  intros x. unfold child_of. rewrite field_insert. by rewrite Hc.
Qed.

Lemma upd_other σ a (f : internal_structure → internal_structure) σ' :
  (∀ n, right_sibling (f n) = right_sibling n) →
  (∀ n, left_sibling (f n) = left_sibling n) →
  (∀ n, parent (f n) = parent n) →
  (∀ n, child (f n) = child n) →
  (∀ n, data (f n) = data n) →
  upd a f σ = Some σ' →
  same_right σ σ' ∧ same_left σ σ' ∧ same_parent σ σ' ∧ same_child σ σ'
  ∧ same_data σ σ' ∧ same_alloc σ σ'.
Proof.
  intros Hr Hl Hp Hc Hd (n & Hn & ->)%upd_inv.
  split; [|split; [|split; [|split; [|split]]]]; same_field n.
Qed.

Lemma upd_is_Some σ a f : is_Some (σ !! a) → is_Some (upd a f σ).
Proof. intros [n Hn]. rewrite (upd_Some _ _ _ n Hn). eauto. Qed.



Lemma same_nonsib_refl σ : same_nonsib σ σ.
Proof. by repeat split. Qed.

Lemma same_nonsib_trans σ1 σ2 σ3 :
  same_nonsib σ1 σ2 → same_nonsib σ2 σ3 → same_nonsib σ1 σ3.
Proof.
  intros (Hp & Hc & Hd & Ha) (Hp' & Hc' & Hd' & Ha').
  split; [|split; [|split]]; intros x.
  - by rewrite Hp', Hp.
  - by rewrite Hc', Hc.
  - by rewrite Hd', Hd.
  - etrans; [apply Ha'|apply Ha].
Qed.

Lemma same_sib_refl σ : same_sib σ σ.
Proof. by split. Qed.

Lemma same_sib_trans σ1 σ2 σ3 :
  same_sib σ1 σ2 → same_sib σ2 σ3 → same_sib σ1 σ3.
Proof.
  intros [Hr Hl] [Hr' Hl']. split; intros x.
  - by rewrite Hr', Hr.
  - by rewrite Hl', Hl.
Qed.

Lemma right_of_is_Some σ a b : right_of σ a = Some b → is_Some (σ !! a).
Proof. unfold right_of. destruct (σ !! a); [eauto|done]. Qed.
Lemma left_of_is_Some σ a b : left_of σ a = Some b → is_Some (σ !! a).
Proof. unfold left_of. destruct (σ !! a); [eauto|done]. Qed.
Lemma parent_of_is_Some σ a b : parent_of σ a = Some b → is_Some (σ !! a).
Proof. unfold parent_of. destruct (σ !! a); [eauto|done]. Qed.
Lemma data_of_is_Some σ a b : data_of σ a = Some b → is_Some (σ !! a).
Proof. unfold data_of. destruct (σ !! a); [eauto|done]. Qed.

(** Steps that succeed. *)
Lemma step_right σ a v :
  is_Some (σ !! a) →
  ∃ σ', upd a (set_right_sibling v) σ = Some σ'
    ∧ (∀ x, right_of σ' x = if decide (x = a) then v else right_of σ x)
    ∧ same_left σ σ' ∧ same_nonsib σ σ'.
Proof.
  intros [σ' Hσ']%(upd_is_Some _ _ (set_right_sibling v)). exists σ'.
  split; [done|]. apply upd_right in Hσ'. unfold same_nonsib. tauto.
Qed.

Lemma step_left σ a v :
  is_Some (σ !! a) →
  ∃ σ', upd a (set_left_sibling v) σ = Some σ'
    ∧ (∀ x, left_of σ' x = if decide (x = a) then v else left_of σ x)
    ∧ same_right σ σ' ∧ same_nonsib σ σ'.
Proof.
  intros [σ' Hσ']%(upd_is_Some _ _ (set_left_sibling v)). exists σ'.
  split; [done|]. apply upd_left in Hσ'. unfold same_nonsib. tauto.
Qed.

Lemma ring_alone_spec σ x :
  is_Some (σ !! x) →
  ∃ σ', ring_alone x σ = Some σ'
    ∧ (∀ y, right_of σ' y = if decide (y = x) then Some x else right_of σ y)
    ∧ (∀ y, left_of σ' y = if decide (y = x) then Some x else left_of σ y)
    ∧ same_nonsib σ σ'.
Proof.
  intros Hx. unfold ring_alone.
  destruct (step_right σ x (Some x) Hx) as (σ1 & -> & HR1 & HL1 & Hn1).
  simpl.
  destruct (step_left σ1 x (Some x)) as (σ2 & -> & HL2 & HR2 & Hn2).
  { by apply Hn1. }
  exists σ2. split; [done|]. split; [|split].
  - intros y. by rewrite HR2, HR1.
  - intros y. by rewrite HL2, HL1.
  - by apply same_nonsib_trans with σ1.
Qed.

Lemma ring_remove_spec σ x l r :
  left_of σ x = Some l → right_of σ x = Some r →
  is_Some (σ !! l) → is_Some (σ !! r) →
  ∃ σ', ring_remove x σ = Some σ'
    ∧ (∀ y, right_of σ' y = if decide (y = l) then Some r else right_of σ y)
    ∧ (∀ y, left_of σ' y = if decide (y = r) then Some l else left_of σ y)
    ∧ same_nonsib σ σ'.
Proof.
  intros Hl Hr Hal Har. unfold ring_remove. rewrite Hl, Hr. simpl.
  destruct (step_right σ l (Some r) Hal) as (σ1 & -> & HR1 & HL1 & Hn1).
  simpl.
  destruct (step_left σ1 r (Some l)) as (σ2 & -> & HL2 & HR2 & Hn2).
  { by apply Hn1. }
  exists σ2. split; [done|]. split; [|split].
  - intros y. by rewrite HR2, HR1.
  - intros y. by rewrite HL2, HL1.
  - by apply same_nonsib_trans with σ1.
Qed.

Lemma ring_splice_spec σ a b ra rb :
  right_of σ a = Some ra → right_of σ b = Some rb → a ≠ b →
  is_Some (σ !! ra) → is_Some (σ !! rb) →
  ∃ σ', ring_splice a b σ = Some σ'
    ∧ (∀ y, right_of σ' y =
            if decide (y = b) then Some ra
            else if decide (y = a) then Some rb else right_of σ y)
    ∧ (∀ y, left_of σ' y =
            if decide (y = ra) then Some b
            else if decide (y = rb) then Some a else left_of σ y)
    ∧ same_nonsib σ σ'.
Proof.
  intros Ha Hb Hab Hra Hrb. unfold ring_splice. rewrite Ha, Hb. simpl.
  destruct (step_right σ a (Some rb)) as (σ1 & -> & HR1 & HL1 & Hn1).
  { by eapply right_of_is_Some. }
  simpl.
  destruct (step_left σ1 rb (Some a)) as (σ2 & -> & HL2 & HR2 & Hn2).
  { by apply Hn1. }
  simpl.
  destruct (step_right σ2 b (Some ra)) as (σ3 & -> & HR3 & HL3 & Hn3).
  { apply Hn2, Hn1. by eapply right_of_is_Some. }
  simpl.
  destruct (step_left σ3 ra (Some b)) as (σ4 & -> & HL4 & HR4 & Hn4).
  { by apply Hn3, Hn2, Hn1. }
  exists σ4. split; [done|]. split; [|split].
  - intros y. by rewrite HR4, HR3, HR2, HR1.
  - intros y. by rewrite HL4, HL3, HL2, HL1.
  - eauto using same_nonsib_trans.
Qed.

End Store.

(** ** The ring operations on rings *)

Section RingOps.
Implicit Types (σ : gmap positive internal_structure) (a b x y : addr).

Abbreviation ring σ l := (cycle (right_of σ) (left_of σ) l).

Lemma ring_alloc σ l x : ring σ l → x ∈ l → is_Some (σ !! x).
Proof.
  intros Hc Hx. destruct (cycle_right_in _ _ _ _ Hc Hx) as (y & Hy & _).
  by eapply right_of_is_Some.
Qed.

Lemma ring_hd_right σ a l : ring σ (a :: l) → right_of σ a = Some (hd a l).
Proof. by intros [_ (? & _)]. Qed.

Lemma ring_frame σ σ' l :
  (∀ x, x ∈ l → right_of σ' x = right_of σ x ∧ left_of σ' x = left_of σ x) →
  ring σ l → ring σ' l.
Proof. apply cycle_frame. Qed.

(** Splicing two disjoint rings. *)
Lemma splice_rings σ a la b lb :
  ring σ (a :: la) → ring σ (b :: lb) →
  (∀ x, x ∈ a :: la → x ∉ b :: lb) →
  ∃ σ', ring_splice a b σ = Some σ'
    ∧ ring σ' (a :: lb ++ b :: la)
    ∧ same_nonsib σ σ'
    ∧ (∀ y, y ∉ a :: la → y ∉ b :: lb →
         right_of σ' y = right_of σ y ∧ left_of σ' y = left_of σ y).
Proof.
  intros Ha Hb Hdisj.
  pose proof (ring_hd_right _ _ _ Ha) as HRa.
  pose proof (ring_hd_right _ _ _ Hb) as HRb.
  assert (Hra : hd a la ∈ a :: la) by (destruct la; set_solver).
  assert (Hrb : hd b lb ∈ b :: lb) by (destruct lb; set_solver).
  destruct (ring_splice_spec σ a b (hd a la) (hd b lb))
    as (σ' & Hσ' & HR & HL & Hn); [done|done|set_solver| | |].
  { by apply (ring_alloc σ (a :: la)). }
  { by apply (ring_alloc σ (b :: lb)). }
  exists σ'. split; [done|]. split; [|split; [done|]].
  - apply (cycle_splice (right_of σ) (left_of σ)); try done;
      intros; rewrite ?HR, ?HL; repeat case_decide; subst; try done;
      try congruence.
    exfalso. apply (Hdisj _ Hra). congruence.
  - intros y Hya Hyb. rewrite HR, HL.
    rewrite !decide_False by set_solver. done.
Qed.

(** Taking an element out of a ring of at least two. *)
Lemma remove_from_ring σ x l :
  ring σ (x :: l) → l ≠ [] →
  ∃ σ', ring_remove x σ = Some σ'
    ∧ ring σ' l
    ∧ same_nonsib σ σ'
    ∧ (∀ y, y ∉ l → right_of σ' y = right_of σ y ∧ left_of σ' y = left_of σ y).
Proof.
  intros Hc Hne.
  pose proof (ring_hd_right _ _ _ Hc) as HRx.
  destruct (cycle_left_in _ _ _ x Hc) as (y & Hy & Hyin); [set_solver|].
  assert (Hr : hd x l ∈ l) by (destruct l; set_solver).
  assert (Hyl : y ∈ l).
  { destruct Hc as [_ Hseg].
    destruct l as [|z l0 _] using rev_ind; [done|].
    change (x :: l0 ++ [z]) with ((x :: l0) ++ [z]) in Hseg.
    apply seg_app in Hseg as [_ (_ & Hz & _)]. simpl in Hz.
    rewrite Hy in Hz. injection Hz as ->. set_solver. }
  destruct (ring_remove_spec σ x y (hd x l))
    as (σ' & Hσ' & HR & HL & Hn); [done|done| | |].
  { apply (ring_alloc σ (x :: l)); [done|set_solver]. }
  { apply (ring_alloc σ (x :: l)); [done|set_solver]. }
  exists σ'. split; [done|]. split; [|split; [done|]].
  - apply (cycle_remove (right_of σ) (left_of σ) _ _ x l (hd x l) y);
      try done;
      intros; rewrite ?HR, ?HL; repeat case_decide; subst; try done;
      congruence.
  - intros z Hz. rewrite HR, HL. rewrite !decide_False by set_solver. done.
Qed.

(** Taking the only element out of a ring changes no pointer. *)
Lemma remove_from_ring_single σ x :
  ring σ [x] →
  ∃ σ', ring_remove x σ = Some σ'
    ∧ same_sib σ σ' ∧ same_nonsib σ σ'.
Proof.
  intros [_ (HR & HL & _)]. simpl in *.
  destruct (ring_remove_spec σ x x x)
    as (σ' & Hσ' & HR' & HL' & Hn); [done|done| | |].
  { by eapply right_of_is_Some. }
  { by eapply right_of_is_Some. }
  exists σ'. split; [done|]. split; [|done]. split; intros y.
  - rewrite HR'. destruct (decide (y = x)) as [->|]; done.
  - rewrite HL'. destruct (decide (y = x)) as [->|]; done.
Qed.

(** A node made a ring of its own. *)
Lemma alone_ring σ x :
  is_Some (σ !! x) →
  ∃ σ', ring_alone x σ = Some σ'
    ∧ ring σ' [x]
    ∧ same_nonsib σ σ'
    ∧ (∀ y, y ≠ x →
         right_of σ' y = right_of σ y ∧ left_of σ' y = left_of σ y).
Proof.
  intros Hx. destruct (ring_alone_spec σ x Hx) as (σ' & Hσ' & HR & HL & Hn).
  exists σ'. split; [done|]. split; [|split; [done|]].
  - apply cycle_single; [rewrite HR|rewrite HL]; by rewrite decide_True.
  - intros y Hy. rewrite HR, HL. by rewrite !decide_False.
Qed.

(** The members of a ring, from a pointer into it. *)
Lemma ring_members_spec σ l e fuel :
  ring σ l → entry_ok e l → (length l ≤ fuel)%nat →
  ∃ l', ring_members fuel σ e = Some l' ∧ l' ≡ₚ l ∧ ring σ l'
        ∧ match e with Some a => hd a l' = a ∧ l' ≠ [] | None => l' = [] end.
Proof.
  intros Hc He Hfuel. destruct e as [a|]; simpl in *.
  - apply list_elem_of_split in He as (l1 & l2 & ->).
    exists (a :: l2 ++ l1). split; [|split; [|split]].
    + by eapply ring_walk_cycle.
    + by rewrite (comm (++) l1), <- app_comm_cons.
    + by apply cycle_rotate in Hc.
    + done.
  - subst l. exists []. repeat split; [done|constructor].
Qed.

End RingOps.

(** ** Well-formed heaps: consequences *)

Section WellFormed.
Context {K T : Type}.
Variable Compare : K → K → bool.
Implicit Types (σ : gmap positive internal_structure)
  (δ : gmap positive (internal_data.t K T)) (G : gmap positive (K * T))
  (a b x y : addr).

#[local] Abbreviation ring σ l := (cycle (right_of σ) (left_of σ) l).
#[local] Abbreviation wf := (wf Compare).

Lemma grounded_in P F a : grounded P F a → a ∈ F.
Proof. by intros []. Qed.

Lemma grounded_parent_in P F a p :
  grounded P F a → P a = Some p → p ∈ F.
Proof.
  intros [? ? Hr|? p' ? Hp Hg] Ha; [congruence|].
  assert (p' = p) as -> by congruence. by eapply grounded_in.
Qed.

Lemma wf_alloc σ δ G top a : wf σ δ G top → a ∈ dom G → is_Some (σ !! a).
Proof.
  intros Hwf [kv Ha]%elem_of_dom.
  destruct (wf_data _ _ _ _ _ Hwf a kv Ha) as (d & dn & Hd & _).
  by eapply data_of_is_Some.
Qed.

Lemma wf_parent_in σ δ G top a p :
  wf σ δ G top → a ∈ dom G → parent_of σ a = Some p → p ∈ dom G.
Proof.
  intros Hwf Ha Hp. eapply grounded_parent_in; [|done].
  by apply (wf_grounded _ _ _ _ _ Hwf).
Qed.

Lemma wf_fresh σ δ G top : wf σ δ G top → fresh (dom σ) ∉ dom G.
Proof.
  intros Hwf Hin. apply (wf_alloc _ _ _ _ _ Hwf) in Hin.
  apply elem_of_dom in Hin. by apply (is_fresh (dom σ)).
Qed.

(** Every node has a root above it. *)
Lemma grounded_root_above P F a :
  grounded P F a → ∃ r, r ∈ F ∧ P r = None.
Proof. induction 1; eauto. Qed.

(** A heap whose [min] is null has no node. *)
Lemma wf_top_None σ δ G : wf σ δ G None → G = ∅.
Proof.
  intros Hwf. apply map_empty. intros a.
  destruct (G !! a) as [kv|] eqn:Ha; [|done]. exfalso.
  assert (Hin : a ∈ dom G) by (apply elem_of_dom; eauto).
  destruct (grounded_root_above _ _ _ (wf_grounded _ _ _ _ _ Hwf a Hin))
    as (r & Hr & HPr).
  destruct (wf_roots _ _ _ _ _ Hwf) as (l & _ & Hmem & Htop).
  simpl in Htop. subst l. by apply (elem_of_nil r), Hmem.
Qed.

Lemma wf_top_root σ δ G m :
  wf σ δ G (Some m) → m ∈ dom G ∧ parent_of σ m = None.
Proof.
  intros Hwf. destruct (wf_roots _ _ _ _ _ Hwf) as (l & _ & Hmem & Htop).
  by apply Hmem.
Qed.

(** Data objects belong to one node each. *)
Lemma wf_data_inj σ δ G top a b d :
  wf σ δ G top → a ∈ dom G → b ∈ dom G →
  data_of σ a = Some d → data_of σ b = Some d → a = b.
Proof.
  intros Hwf [kva Ha]%elem_of_dom [kvb Hb]%elem_of_dom Hda Hdb.
  destruct (wf_data _ _ _ _ _ Hwf a kva Ha) as (d1 & dn1 & H1 & H1' & H1'' & _).
  destruct (wf_data _ _ _ _ _ Hwf b kvb Hb) as (d2 & dn2 & H2 & H2' & H2'' & _).
  congruence.
Qed.

Lemma wf_key_of σ δ G top a k v :
  wf σ δ G top → G !! a = Some (k, v) → key_of σ δ a = Some k.
Proof.
  intros Hwf Ha.
  destruct (wf_data _ _ _ _ _ Hwf a _ Ha) as (d & dn & Hd & Hdn & _ & Hkv).
  unfold key_of. unfold data_of in Hd.
  destruct (σ !! a) as [n|]; [|done]. simpl in *. rewrite Hd. simpl.
  rewrite Hdn. simpl. congruence.
Qed.

End WellFormed.

(** ** [insert] keeps the heap well formed *)

Section Insert.
Context {K T : Type}.
Variable Compare : K → K → bool.
Implicit Types (σ : gmap positive internal_structure)
  (δ : gmap positive (internal_data.t K T)) (G : gmap positive (K * T))
  (a b x y : addr).

#[local] Abbreviation ring σ l := (cycle (right_of σ) (left_of σ) l).
#[local] Abbreviation wf := (wf Compare).
#[local] Abbreviation heap_inv := (heap_inv Compare).

Hypothesis Compare_asym : ∀ k1 k2 : K,
  Compare k1 k2 = true → Compare k2 k1 = false.
Hypothesis Compare_ntrans : ∀ k1 k2 k3 : K,
  Compare k1 k2 = false → Compare k2 k3 = false → Compare k1 k3 = false.

Lemma Compare_irrefl k : Compare k k = false.
Proof.
  destruct (Compare k k) eqn:E; [|done]. by rewrite (Compare_asym _ _ E) in E.
Qed.

Lemma Compare_trans k1 k2 k3 :
  Compare k1 k2 = true → Compare k2 k3 = true → Compare k1 k3 = true.
Proof.
  intros H12 H23. destruct (Compare k1 k3) eqn:E; [done|].
  (* not k1 < k3 and not k3 < k2 would give not k1 < k2 *)
  rewrite (Compare_ntrans k1 k3 k2 E (Compare_asym _ _ H23)) in H12. done.
Qed.

(** A new root joins the forest: the other fields of the invariant
    follow once the new root ring is known. *)
Lemma wf_add_root σ δ G top σ' x d k v top' l' :
  wf σ δ G top →
  x ∉ dom G → δ !! d = None →
  (∀ y, parent_of σ' y = if decide (y = x) then None else parent_of σ y) →
  (∀ y, child_of σ' y = if decide (y = x) then None else child_of σ y) →
  (∀ y, data_of σ' y = if decide (y = x) then Some d else data_of σ y) →
  (∀ y p, y ∈ dom G → parent_of σ y = Some p →
     right_of σ' y = right_of σ y ∧ left_of σ' y = left_of σ y) →
  ring σ' l' →
  (∀ a, a ∈ l' ↔ a = x ∨ (a ∈ dom G ∧ parent_of σ a = None)) →
  entry_ok top' l' →
  wf σ' (<[d := internal_data.mk (Some x) k v]> δ) (<[x := (k, v)]> G) top'.
Proof.
  intros Hwf Hx Hd HP HC HD Hsib Hring Hmem Htop.
  assert (Hnochild : ∀ a, a ∈ dom G → parent_of σ a ≠ Some x).
  { intros a Ha Hpa. apply Hx. by eapply wf_parent_in. }
  split.
  - (* data *)
    intros a kv. rewrite lookup_insert. case_decide as Hax.
    + intros [= <-]. subst a. exists d, (internal_data.mk (Some x) k v).
      rewrite HD, decide_True by done. by rewrite lookup_insert_eq.
    + intros Ha.
      destruct (wf_data _ _ _ _ _ Hwf a kv Ha) as (d0 & dn & Hd0 & Hdn & Hrest).
      exists d0, dn. rewrite HD, decide_False by done.
      split; [done|]. split; [|done].
      rewrite lookup_insert_ne; [done|congruence].
  - (* roots *)
    exists l'. split; [done|]. split; [|done].
    intros a. rewrite Hmem, dom_insert_L, HP.
    case_decide; [subst|]; set_solver.
  - (* children *)
    intros p. rewrite dom_insert_L. intros [->%elem_of_singleton|Hp]%elem_of_union.
    + exists []. split; [apply cycle_nil|]. split.
      * intros a. rewrite HP, ?dom_insert_L. split; [by intros ?%elem_of_nil|].
        intros [Ha Hpa]. case_decide; [done|]. exfalso.
        apply (Hnochild a); [set_solver|done].
      * rewrite HC, decide_True by done. done.
    + destruct (wf_children _ _ _ _ _ Hwf p Hp) as (l & Hl & Hlmem & Hentry).
      exists l. split; [|split].
      * revert Hl. apply ring_frame. intros y Hy.
        apply Hlmem in Hy as [Hy Hyp]. by apply (Hsib y p).
      * intros a. rewrite Hlmem, HP, ?dom_insert_L.
        case_decide; [subst|]; set_solver.
      * rewrite HC, decide_False; [done|]. intros ->. done.
  - (* order *)
    intros a p ka va kp vp. rewrite !lookup_insert, HP.
    destruct (decide (a = x)) as [->|Hax]; [done|].
    rewrite decide_False by done. intros Ha Hpa.
    rewrite decide_False.
    + intros Hp. by apply (wf_order _ _ _ _ _ Hwf a p ka va kp vp).
    + intros ->. apply (Hnochild a); [|done]. apply elem_of_dom; eauto.
  - (* grounded *)
    intros a. rewrite dom_insert_L.
    intros [->%elem_of_singleton|Ha]%elem_of_union.
    + apply grounded_root; [set_solver|]. by rewrite HP, decide_True.
    + pose proof (wf_grounded _ _ _ _ _ Hwf a Ha) as Hg.
      induction Hg as [a Ha' Hr|a p Ha' Hp Hg IH].
      * apply grounded_root; [set_solver|]. rewrite HP.
        by case_decide.
      * apply grounded_child with p; [set_solver| |].
        -- rewrite HP. case_decide; [subst; done|done].
        -- apply IH. by eapply grounded_in.
Qed.


Lemma size_t_wrap_small z : 0 ≤ z < size_t_modulus → size_t_wrap z = z.
Proof. intros Hz. unfold size_t_wrap. by apply Z.mod_small. Qed.

(** Bringing an element of a ring to the front. *)
Lemma ring_rotate_to σ l a :
  ring σ l → a ∈ l → ∃ la, ring σ (a :: la) ∧ a :: la ≡ₚ l.
Proof.
  intros Hc (l1 & l2 & ->)%list_elem_of_split.
  exists (l2 ++ l1). split.
  - by apply cycle_rotate in Hc.
  - by rewrite (comm (++) l1), <- app_comm_cons.
Qed.

Lemma insert_core_inv this k v σ δ G h :
  heap_inv σ δ G h →
  Z.of_nat (base.size G) + 1 < size_t_modulus →
  ∃ σ' h',
    insert_core Compare this k v σ δ h
    = Some (σ', <[fresh (dom δ) := internal_data.mk (Some (fresh (dom σ))) k v]> δ,
            h', mk_node (Some (fresh (dom δ))))
    ∧ G !! fresh (dom σ) = None
    ∧ heap_inv σ'
        (<[fresh (dom δ) := internal_data.mk (Some (fresh (dom σ))) k v]> δ)
        (<[fresh (dom σ) := (k, v)]> G) h'.
Proof.
  intros [Hwf Hmin Hsize Hbound] Hroom.
  unfold insert_core.
  set (x := fresh (dom σ)). set (d := fresh (dom δ)).
  set (σ1 := <[x := _]> σ).
  assert (Hσx : σ !! x = None) by apply not_elem_of_dom, is_fresh.
  assert (Hδd : δ !! d = None) by apply not_elem_of_dom, is_fresh.
  assert (HxG : x ∉ dom G) by by eapply wf_fresh.
  assert (HGx : G !! x = None) by by apply not_elem_of_dom.
  assert (HR1 : ∀ y, right_of σ1 y
                     = if decide (y = x) then Some x else right_of σ y)
    by (intros y; unfold right_of, σ1; by rewrite field_insert).
  assert (HL1 : ∀ y, left_of σ1 y
                     = if decide (y = x) then Some x else left_of σ y)
    by (intros y; unfold left_of, σ1; by rewrite field_insert).
  assert (HP1 : ∀ y, parent_of σ1 y
                     = if decide (y = x) then None else parent_of σ y)
    by (intros y; unfold parent_of, σ1; by rewrite field_insert).
  assert (HC1 : ∀ y, child_of σ1 y
                     = if decide (y = x) then None else child_of σ y)
    by (intros y; unfold child_of, σ1; by rewrite field_insert).
  assert (HD1 : ∀ y, data_of σ1 y
                     = if decide (y = x) then Some d else data_of σ y)
    by (intros y; unfold data_of, σ1; by rewrite field_insert).
  assert (Hx1 : ring σ1 [x])
    by (apply cycle_single; [rewrite HR1|rewrite HL1]; by rewrite decide_True).
  assert (Hlen : size_t_wrap (_size h + 1) = Z.of_nat (base.size (<[x := (k, v)]> G))).
  { rewrite map_size_insert_None by done. rewrite Hsize.
    rewrite size_t_wrap_small; lia. }
  assert (Hlen' : Z.of_nat (base.size (<[x := (k, v)]> G)) < size_t_modulus).
  { rewrite map_size_insert_None by done. lia. }
  destruct (min h) as [m|] eqn:Hm.
  - (* the heap has nodes: the new one is spliced into the root ring *)
    destruct (wf_roots _ _ _ _ _ Hwf) as (l & Hl & Hlmem & Htop).
    simpl in Htop.
    destruct (ring_rotate_to _ _ _ Hl Htop) as (la & Hla & Hperm).
    assert (Hxl : x ∉ m :: la).
    { rewrite Hperm. intros Hin. apply Hlmem in Hin as [? _]. done. }
    assert (Hla1 : ring σ1 (m :: la)).
    { revert Hla. apply ring_frame. intros y Hy.
      rewrite HR1, HL1. rewrite !decide_False; [done|set_solver..]. }
    destruct (splice_rings σ1 m la x [] Hla1 Hx1)
      as (σ2 & -> & Hring2 & (HP2 & HC2 & HD2 & HA2) & Hframe2);
      [set_solver|].
    simpl.
    assert (Hmroot : m ∈ dom G ∧ parent_of σ m = None) by by apply Hlmem.
    destruct Hmroot as [[[km vm] HGm]%elem_of_dom Hmroot].
    rewrite (wf_key_of _ _ _ _ _ _ _ _ Hwf HGm). simpl.
    eexists _, _. split; [done|]. split; [done|].
    assert (Hwf' : ∀ top', entry_ok top' (m :: x :: la) →
              wf σ2 (<[d := internal_data.mk (Some x) k v]> δ)
                 (<[x := (k, v)]> G) top').
    { intros top' Htop'.
      apply (wf_add_root σ δ G (Some m) σ2 x d k v top' (m :: x :: la));
        try done.
      - intros y. by rewrite HP2, HP1.
      - intros y. by rewrite HC2, HC1.
      - intros y. by rewrite HD2, HD1.
      - intros y p Hy Hyp.
        destruct (Hframe2 y) as [-> ->].
        + rewrite Hperm. intros Hin. apply Hlmem in Hin as [_ ?]. congruence.
        + intros ->%list_elem_of_singleton. done.
        + rewrite HR1, HL1. rewrite !decide_False; [done|by intros ->..].
      - intros a. rewrite <- Hlmem, <- Hperm. set_solver. }
    split.
    + apply Hwf'. simpl. destruct (Compare k km); set_solver.
    + intros m' r km' vm' kr vr Htop' Hm' Hr Hroot.
      rewrite HP2, HP1 in Hroot.
      rewrite lookup_insert in Hm', Hr.
      destruct (Compare k km) eqn:Hk; injection Htop' as <-.
      * rewrite decide_True in Hm' by done. injection Hm' as <- <-.
        destruct (decide (x = r)) as [<-|Hxr].
        -- injection Hr as <- <-. apply Compare_irrefl.
        -- rewrite decide_False in Hroot by done.
           pose proof (Hmin m r km vm kr vr eq_refl HGm Hr Hroot) as Hle.
           destruct (Compare kr k) eqn:E; [|done].
           by rewrite (Compare_trans _ _ _ E Hk) in Hle.
      * rewrite decide_False in Hm' by (intros ->; congruence).
        assert (km' = km) as -> by congruence.
        destruct (decide (x = r)) as [<-|Hxr].
        -- by injection Hr as <- <-.
        -- rewrite decide_False in Hroot by done.
           by apply (Hmin m r km vm kr vr).
    + simpl. done.
    + done.
  - (* the heap is empty *)
    assert (G = ∅) as -> by by eapply wf_top_None.
    eexists _, _. split; [done|]. split; [done|]. split.
    + apply (wf_add_root σ δ ∅ None σ1 x d k v (Some x) [x]); try done.
      * intros a. set_solver.
      * simpl. set_solver.
    + intros m' r km' vm' kr vr [= <-] Hm' Hr _.
      rewrite lookup_insert in Hm', Hr.
      rewrite decide_True in Hm' by done. injection Hm' as <- <-.
      case_decide; [|done]. injection Hr as <- <-. apply Compare_irrefl.
    + simpl. done.
    + done.
Qed.

End Insert.

(** ** Taking the minimum out of the forest *)

Section Unlink.
Context {K T : Type}.
Variable Compare : K → K → bool.
Implicit Types (σ : gmap positive internal_structure)
  (δ : gmap positive (internal_data.t K T)) (G : gmap positive (K * T))
  (a b x y z : addr).

#[local] Abbreviation ring σ l := (cycle (right_of σ) (left_of σ) l).
#[local] Abbreviation wf := (wf Compare).

(** The forest without [z], whose children [cs] have become roots next to
    the other roots [lr]. *)
Lemma wf_after_unlink σ δ G z σ' (cs lr rest : list addr) top' :
  wf σ δ G (Some z) →
  (∀ a, a ∈ cs ↔ a ∈ dom G ∧ parent_of σ a = Some z) →
  (∀ a, a ∈ lr ↔ a ∈ dom G ∧ parent_of σ a = None ∧ a ≠ z) →
  (∀ y, parent_of σ' y = if decide (y ∈ cs) then None else parent_of σ y) →
  (∀ y, y ≠ z → child_of σ' y = child_of σ y) →
  same_data σ σ' →
  ring σ' rest →
  (∀ a, a ∈ rest ↔ a ∈ cs ∨ a ∈ lr) →
  (∀ y p, y ∈ dom G → parent_of σ y = Some p → p ≠ z →
     right_of σ' y = right_of σ y ∧ left_of σ' y = left_of σ y) →
  entry_ok top' rest →
  wf σ' δ (delete z G) top'.
Proof.
  intros Hwf Hcs Hlr HP HC HD Hring Hrest Hsib Htop.
  destruct (wf_top_root _ _ _ _ _ Hwf) as [HzG Hzroot].
  assert (Hzcs : z ∉ cs) by (intros [_ ?]%Hcs; congruence).
  split.
  - intros a kv [Haz Ha]%lookup_delete_Some.
    destruct (wf_data _ _ _ _ _ Hwf a kv Ha) as (d & dn & Hd & Hrest').
    exists d, dn. by rewrite HD.
  - exists rest. split; [done|]. split; [|done].
    intros a. rewrite Hrest, Hcs, Hlr, dom_delete_L, HP.
    case_decide as Hin.
    + apply Hcs in Hin as [? ?]. set_solver.
    + rewrite Hcs in Hin. set_solver.
  - intros p Hp. rewrite dom_delete_L in Hp.
    apply elem_of_difference in Hp as [HpG Hpz%not_elem_of_singleton].
    destruct (wf_children _ _ _ _ _ Hwf p HpG) as (l & Hl & Hlmem & Hentry).
    exists l. split; [|split].
    * revert Hl. apply ring_frame. intros y Hy.
      apply Hlmem in Hy as [Hy Hyp]. by apply (Hsib y p).
    * intros a. rewrite Hlmem, dom_delete_L, HP.
      case_decide as Hin.
      -- apply Hcs in Hin as [? ?]. split; [intros [? ?]; congruence|].
         by intros [? ?].
      -- split; [|set_solver]. intros [? ?]. split; [|done].
         apply elem_of_difference. split; [done|].
         intros ->%elem_of_singleton. congruence.
    * by rewrite HC.
  - intros a p ka va kp vp [Haz Ha]%lookup_delete_Some Hpa
      [Hpz Hp]%lookup_delete_Some.
    rewrite HP in Hpa. case_decide; [done|].
    by apply (wf_order _ _ _ _ _ Hwf a p ka va kp vp).
  - intros a. rewrite dom_delete_L.
    intros [Ha Haz%not_elem_of_singleton]%elem_of_difference.
    pose proof (wf_grounded _ _ _ _ _ Hwf a Ha) as Hg.
    induction Hg as [a Ha' Hr|a p Ha' Hp Hg IH].
    + apply grounded_root; [set_solver|]. rewrite HP. by case_decide.
    + destruct (decide (p = z)) as [->|Hpz].
      * apply grounded_root; [set_solver|]. rewrite HP.
        rewrite decide_True; [done|]. by apply Hcs.
      * apply grounded_child with p; [set_solver| |].
        -- rewrite HP. rewrite decide_False; [done|].
           intros [_ ?]%Hcs. congruence.
        -- apply IH; [|done]. by eapply grounded_in.
Qed.


(** A ring inside the forest is no longer than the forest is large. *)
Lemma ring_length_le (l : list addr) G :
  NoDup l → (∀ a, a ∈ l → a ∈ dom G) → (length l ≤ base.size G)%nat.
Proof.
  intros Hnd Hin. rewrite <- size_dom.
  change (base.size (dom G)) with (length (elements (dom G))).
  apply submseteq_length, NoDup_submseteq; [done|].
  intros a Ha. apply elem_of_elements. by apply Hin.
Qed.

Lemma upd_all_promote (cs : list addr) σ :
  (∀ c, c ∈ cs → is_Some (σ !! c)) →
  ∃ σ', upd_all cs (λ n, set_childcut false (set_parent None n)) σ = Some σ'
    ∧ (∀ y, parent_of σ' y
            = if decide (y ∈ cs) then None else parent_of σ y)
    ∧ same_sib σ σ' ∧ same_child σ σ' ∧ same_data σ σ' ∧ same_alloc σ σ'.
Proof.
  revert σ. induction cs as [|c cs IH]; intros σ Halloc; simpl.
  - exists σ. split; [done|]. split; [|by repeat split].
    intros y. by destruct (decide (y ∈ [])) as [?%elem_of_nil|].
  - destruct (upd_is_Some σ c (λ n, set_childcut false (set_parent None n)))
      as [σ1 Hσ1]; [apply Halloc; set_solver|].
    rewrite Hσ1. simpl.
    apply (upd_parent _ _ _ None) in Hσ1
      as (HP1 & HR1 & HL1 & HC1 & HD1 & HA1); try done.
    destruct (IH σ1) as (σ' & Hσ' & HP & [HR HL] & HC & HD & HA).
    { intros c' Hc'. apply HA1, Halloc. set_solver. }
    exists σ'. split; [done|]. split; [|split; [split|split; [|split]]].
    + intros y. rewrite HP, HP1.
      destruct (decide (y = c)) as [->|];
        repeat case_decide; try done; set_solver.
    + intros y. by rewrite HR, HR1.
    + intros y. by rewrite HL, HL1.
    + intros y. by rewrite HC, HC1.
    + intros y. by rewrite HD, HD1.
    + intros y. etrans; [apply HA|apply HA1].
Qed.

Lemma child_of_lookup σ a n : σ !! a = Some n → child_of σ a = child n.
Proof. unfold child_of. by intros ->. Qed.

Lemma detach_min_spec σ δ G z fuel :
  wf σ δ G (Some z) → (base.size G ≤ fuel)%nat →
  ∃ σ' top',
    detach_min fuel z σ = Some σ'
    ∧ wf σ' δ (delete z G) top'
    ∧ same_data σ σ' ∧ same_alloc σ σ'
    ∧ child_of σ' z = None
    ∧ (∀ r, top' = Some r → right_of σ' z = Some r).
Proof.
  intros Hwf Hfuel.
  destruct (wf_top_root _ _ _ _ _ Hwf) as [HzG Hzroot].
  destruct (wf_alloc _ _ _ _ _ _ Hwf HzG) as [nz Hnz].
  destruct (wf_roots _ _ _ _ _ Hwf) as (l & Hl & Hlmem & Hlz). simpl in Hlz.
  destruct (ring_rotate_to _ _ _ Hl Hlz) as (lr & Hlr & Hlrperm).
  destruct (wf_children _ _ _ _ _ Hwf z HzG) as (lc & Hlc & Hlcmem & Hlce).
  rewrite (child_of_lookup _ _ _ Hnz) in Hlce.
  destruct (ring_members_spec σ lc (child nz) fuel Hlc Hlce)
    as (cs & Hcs & Hcsperm & Hcsring & Hcshd).
  { etrans; [|exact Hfuel]. apply ring_length_le; [apply Hlc|].
    intros a Ha. by apply Hlcmem. }
  assert (Hcsmem : ∀ a, a ∈ cs ↔ a ∈ dom G ∧ parent_of σ a = Some z).
  { intros a. by rewrite Hcsperm. }
  assert (Hlrmem : ∀ a, a ∈ lr ↔ a ∈ dom G ∧ parent_of σ a = None ∧ a ≠ z).
  { intros a. destruct Hlr as [Hnd _]. apply NoDup_cons in Hnd as [Hzlr _].
    specialize (Hlmem a). rewrite <- Hlrperm in Hlmem.
    rewrite elem_of_cons in Hlmem. split.
    - intros Ha. split; [|split]; [apply Hlmem; by right..|].
      by intros ->.
    - intros (? & ? & ?). destruct Hlmem as [_ [->|?]]; done. }
  unfold detach_min. rewrite Hnz. simpl. rewrite Hcs. simpl.
  (* the children lose their parent *)
  destruct (upd_all_promote cs σ) as (σA & -> & HPA & [HRA HLA] & HCA & HDA & HAA).
  { intros c Hc. apply Hcsmem in Hc as [Hc _]. by eapply wf_alloc. }
  simpl.
  assert (HlrA : ring σA (z :: lr)).
  { revert Hlr. apply ring_frame. intros y _. by rewrite HRA, HLA. }
  assert (HcsA : ring σA cs).
  { revert Hcsring. apply ring_frame. intros y _. by rewrite HRA, HLA. }
  (* they join the root ring *)
  assert (∃ σB rest,
    match child nz with
    | Some c => ring_splice z c σA
    | None => Some σA
    end = Some σB
    ∧ ring σB (z :: rest) ∧ (∀ a, a ∈ rest ↔ a ∈ cs ∨ a ∈ lr)
    ∧ same_nonsib σA σB
    ∧ (∀ y, y ∉ z :: lr → y ∉ cs →
         right_of σB y = right_of σA y ∧ left_of σB y = left_of σA y))
    as (σB & rest & -> & HrestB & Hrestmem & HnB & HframeB).
  { destruct (child nz) as [c|].
    - destruct Hcshd as [Hhd Hne]. destruct cs as [|c' cs']; [done|].
      simpl in Hhd. subst c'.
      destruct (splice_rings σA z lr c cs' HlrA HcsA)
        as (σB & HσB & Hring & Hn & Hframe).
      { intros a [->|Ha]%elem_of_cons Hin%Hcsmem.
        - destruct Hin as [_ ?]. congruence.
        - apply Hlrmem in Ha as (_ & ? & _). destruct Hin. congruence. }
      exists σB, (cs' ++ c :: lr). split; [done|]. split; [done|].
      split; [set_solver|]. split; [done|]. done.
    - subst cs. exists σA, lr. split; [done|]. split; [done|].
      split; [set_solver|]. split; [apply same_nonsib_refl|]. done. }
  simpl.
  (* [z] has no child left *)
  destruct (upd_is_Some σB z (λ n, set_degree 0 (set_child None n)))
    as [σC HσC].
  { apply HnB, HAA. eauto. }
  rewrite HσC. simpl.
  apply (upd_child _ _ _ None) in HσC
    as (HCC & HRC & HLC & HPC & HDC & HAC); try done.
  assert (HrestC : ring σC (z :: rest)).
  { revert HrestB. apply ring_frame. intros y _. by rewrite HRC, HLC. }
  destruct HnB as (HPB & HCB & HDB & HAB).
  (* and leaves the root ring *)
  assert (∃ σD,
    ring_remove z σC = Some σD
    ∧ ring σD rest ∧ same_nonsib σC σD
    ∧ (∀ y, y ∉ rest →
         right_of σD y = right_of σC y ∧ left_of σD y = left_of σC y))
    as (σD & -> & HrestD & (HPD & HCD & HDD & HAD) & HframeD).
  { destruct (decide (rest = [])) as [->|Hne].
    - destruct (remove_from_ring_single σC z HrestC)
        as (σD & HσD & [HR HL] & Hn).
      exists σD. split; [done|]. split; [apply cycle_nil|]. split; [done|].
      intros y _. by rewrite HR, HL.
    - destruct (remove_from_ring σC z rest HrestC Hne)
        as (σD & HσD & Hring & Hn & Hframe).
      by exists σD. }
  exists σD, (if decide (rest = []) then None else Some (hd z rest)).
  split; [done|].
  assert (Hzrest : z ∉ rest).
  { destruct HrestC as [Hnd _]. by apply NoDup_cons in Hnd as [? _]. }
  split; [|split; [|split; [|split]]].
  - apply (wf_after_unlink σ δ G z σD cs lr rest); try done.
    + intros y. by rewrite HPD, HPC, HPB, HPA.
    + intros y Hyz. rewrite HCD, HCC, HCB, HCA. by rewrite decide_False.
    + intros y. by rewrite HDD, HDC, HDB, HDA.
    + intros y p Hy Hyp Hpz.
      assert (Hycs : y ∉ cs) by (intros [_ ?]%Hcsmem; congruence).
      assert (Hylr : y ∉ z :: lr).
      { intros [->|[_ [? _]]%Hlrmem]%elem_of_cons; congruence. }
      destruct (HframeD y) as [-> ->]; [set_solver|].
      rewrite HRC, HLC.
      destruct (HframeB y) as [-> ->]; [done..|].
      by rewrite HRA, HLA.
    + case_decide as Hr; [done|]. simpl. destruct rest; [done|]. set_solver.
  - intros y. by rewrite HDD, HDC, HDB, HDA.
  - intros y. etrans; [apply HAD|]. etrans; [apply HAC|].
    etrans; [apply HAB|apply HAA].
  - rewrite HCD, HCC. by rewrite decide_True.
  - intros r Hr. case_decide as Hne; [done|]. injection Hr as <-.
    destruct (HframeD z Hzrest) as [-> _]. rewrite HRC.
    by apply ring_hd_right in HrestB.
Qed.

End Unlink.

(** ** Linking two roots *)

Section Link.
Context {K T : Type}.
Variable Compare : K → K → bool.
Implicit Types (σ : gmap positive internal_structure)
  (δ : gmap positive (internal_data.t K T)) (G : gmap positive (K * T))
  (a b x y z w u : addr).

#[local] Abbreviation ring σ l := (cycle (right_of σ) (left_of σ) l).
#[local] Abbreviation wf := (wf Compare).

(** The forest after the root [u] has become a child of the root [w]. *)
Lemma wf_after_link σ δ G top σ' w u kw vw ku vu
    (lroots lw : list addr) top' :
  wf σ δ G top →
  w ≠ u →
  G !! w = Some (kw, vw) → parent_of σ w = None →
  G !! u = Some (ku, vu) → parent_of σ u = None →
  Compare ku kw = false →
  (∀ y, parent_of σ' y = if decide (y = u) then Some w else parent_of σ y) →
  same_data σ σ' →
  (∀ y, y ≠ w → child_of σ' y = child_of σ y) →
  ring σ' lroots →
  (∀ a, a ∈ lroots ↔ a ∈ dom G ∧ parent_of σ a = None ∧ a ≠ u) →
  entry_ok top' lroots →
  ring σ' lw →
  (∀ a, a ∈ lw ↔ a = u ∨ (a ∈ dom G ∧ parent_of σ a = Some w)) →
  entry_ok (child_of σ' w) lw →
  (∀ y p, y ∈ dom G → parent_of σ y = Some p → p ≠ w →
     right_of σ' y = right_of σ y ∧ left_of σ' y = left_of σ y) →
  wf σ' δ G top'.
Proof.
  intros Hwf Hwu HGw HPw HGu HPu Hle HP HD HC Hroots Hrmem Htop
    Hlw Hlwmem Hlwe Hsib.
  assert (HuG : u ∈ dom G) by (apply elem_of_dom; eauto).
  assert (HwG : w ∈ dom G) by (apply elem_of_dom; eauto).
  split.
  - intros a kv Ha.
    destruct (wf_data _ _ _ _ _ Hwf a kv Ha) as (d & dn & Hd & Hrest').
    exists d, dn. by rewrite HD.
  - exists lroots. split; [done|]. split; [|done].
    intros a. rewrite Hrmem, HP. case_decide; [subst|]; set_solver.
  - intros p Hp. destruct (decide (p = w)) as [->|Hpw].
    + exists lw. split; [done|]. split; [|done].
      intros a. rewrite Hlwmem, HP. case_decide; [subst|]; set_solver.
    + destruct (wf_children _ _ _ _ _ Hwf p Hp) as (l & Hl & Hlmem & Hentry).
      exists l. split; [|split].
      * revert Hl. apply ring_frame. intros y Hy.
        apply Hlmem in Hy as [Hy Hyp]. by apply (Hsib y p).
      * intros a. rewrite Hlmem, HP. case_decide; [subst|done].
        split; intros [? ?]; congruence.
      * by rewrite HC.
  - intros a p ka va kp vp Ha Hpa Hp. rewrite HP in Hpa.
    case_decide; [|by apply (wf_order _ _ _ _ _ Hwf a p ka va kp vp)].
    subst. congruence.
  - intros a Ha.
    pose proof (wf_grounded _ _ _ _ _ Hwf a Ha) as Hg.
    induction Hg as [a Ha' Hr|a p Ha' Hp Hg IH].
    + destruct (decide (a = u)) as [->|Hau].
      * apply grounded_child with w; [done|by rewrite HP, decide_True|].
        apply grounded_root; [done|]. by rewrite HP, decide_False.
      * apply grounded_root; [done|]. by rewrite HP, decide_False.
    + apply grounded_child with p; [done| |].
      * rewrite HP, decide_False; [done|]. intros ->. congruence.
      * apply IH. by eapply grounded_in.
Qed.


Lemma ring_same_sib σ σ' (l : list addr) :
  same_right σ σ' → same_left σ σ' → ring σ l → ring σ' l.
Proof. intros HR HL. apply ring_frame. intros y _. by rewrite HR, HL. Qed.

Lemma link_spec σ δ G top w u kw vw ku vu :
  wf σ δ G top →
  w ≠ u →
  G !! w = Some (kw, vw) → parent_of σ w = None →
  G !! u = Some (ku, vu) → parent_of σ u = None →
  Compare ku kw = false →
  ∃ σ', link w u σ = Some σ'
    ∧ wf σ' δ G (Some w)
    ∧ (∀ y, parent_of σ' y
            = if decide (y = u) then Some w else parent_of σ y)
    ∧ same_data σ σ' ∧ same_alloc σ σ'.
Proof.
  intros Hwf Hwu HGw HPw HGu HPu Hle.
  assert (HuG : u ∈ dom G) by (apply elem_of_dom; eauto).
  assert (HwG : w ∈ dom G) by (apply elem_of_dom; eauto).
  destruct (wf_roots _ _ _ _ _ Hwf) as (l & Hl & Hlmem & _).
  destruct (ring_rotate_to σ l u Hl) as (l' & Hl' & Hperm); [by apply Hlmem|].
  assert (Hl'mem : ∀ a, a ∈ l' ↔ a ∈ dom G ∧ parent_of σ a = None ∧ a ≠ u).
  { intros a. destruct Hl' as [Hnd _]. apply NoDup_cons in Hnd as [Hul' _].
    specialize (Hlmem a). rewrite <- Hperm in Hlmem.
    rewrite elem_of_cons in Hlmem. split.
    - intros Ha. split; [|split]; [apply Hlmem; by right..|].
      by intros ->.
    - intros (? & ? & ?). destruct Hlmem as [_ [->|?]]; done. }
  assert (Hwl' : w ∈ l') by by apply Hl'mem.
  destruct (wf_children _ _ _ _ _ Hwf w HwG) as (lc & Hlc & Hlcmem & Hlce).
  unfold link.
  (* [u] leaves the root ring *)
  destruct (remove_from_ring σ u l' Hl')
    as (σ1 & -> & Hl1 & (HP1 & HC1 & HD1 & HA1) & Hframe1);
    [by intros ->; apply elem_of_nil in Hwl'|].
  simpl.
  destruct (alone_ring σ1 u)
    as (σ2 & -> & Hu2 & (HP2 & HC2 & HD2 & HA2) & Hframe2).
  { apply HA1. by eapply wf_alloc. }
  simpl.
  assert (Hul' : u ∉ l') by (intros (_ & _ & ?)%Hl'mem; done).
  assert (Hl2 : ring σ2 l').
  { revert Hl1. apply ring_frame. intros y Hy. apply Hframe2.
    by intros ->. }
  destruct (wf_alloc _ _ _ _ _ _ Hwf HwG) as [nw0 Hnw0].
  assert (is_Some (σ2 !! w)) as [nw Hnw] by (apply HA2, HA1; eauto).
  rewrite Hnw. simpl.
  assert (Hcw : child nw = child_of σ w).
  { rewrite <- HC1, <- HC2. by rewrite (child_of_lookup _ _ _ Hnw). }
  assert (Hlc2 : ring σ2 lc).
  { revert Hlc. apply ring_frame. intros y [Hy Hyp]%Hlcmem.
    destruct (Hframe2 y) as [-> ->]; [intros ->; congruence|].
    apply Hframe1. intros (_ & ? & _)%Hl'mem. congruence. }
  (* and joins the children of [w] *)
  assert (∃ σ3 lw,
    match child nw with
    | Some c => ring_splice c u σ2
    | None => upd w (set_child (Some u)) σ2
    end = Some σ3
    ∧ ring σ3 lw
    ∧ (∀ a, a ∈ lw ↔ a = u ∨ (a ∈ dom G ∧ parent_of σ a = Some w))
    ∧ entry_ok (child_of σ3 w) lw
    ∧ (∀ y, y ≠ w → child_of σ3 y = child_of σ2 y)
    ∧ same_parent σ2 σ3 ∧ same_data σ2 σ3 ∧ same_alloc σ2 σ3
    ∧ (∀ y, y ≠ u → y ∉ lc →
         right_of σ3 y = right_of σ2 y ∧ left_of σ3 y = left_of σ2 y))
    as (σ3 & lw & -> & Hlw & Hlwmem & Hlwe & HC3 & HP3 & HD3 & HA3 & Hframe3).
  { rewrite Hcw. destruct (child_of σ w) as [c|] eqn:Hc; simpl in Hlce.
    - destruct (ring_rotate_to σ2 lc c Hlc2 Hlce) as (lc' & Hlc' & Hcperm).
      destruct (splice_rings σ2 c lc' u [] Hlc' Hu2)
        as (σ3 & Hσ3 & Hring & (HP3 & HC3 & HD3 & HA3) & Hframe).
      { intros a Ha ->%list_elem_of_singleton.
        rewrite Hcperm in Ha. apply Hlcmem in Ha as [_ ?]. congruence. }
      exists σ3, (c :: u :: lc'). split; [done|]. split; [done|].
      split; [|split; [|split; [|split; [|split; [|split]]]]]; try done.
      + intros a. rewrite <- Hlcmem, <- Hcperm. set_solver.
      + rewrite HC3, HC2, HC1, Hc. simpl. set_solver.
      + intros y Hyu Hylc. apply Hframe; [by rewrite Hcperm|set_solver].
    - subst lc.
      destruct (upd_is_Some σ2 w (set_child (Some u))) as [σ3 Hσ3]; [eauto|].
      exists σ3, [u]. split; [done|].
      apply (upd_child _ _ _ (Some u)) in Hσ3
        as (HC3 & HR3 & HL3 & HP3 & HD3 & HA3); try done.
      split; [by apply (ring_same_sib σ2)|].
      split; [|split; [|split; [|split; [|split; [|split]]]]]; try done.
      + intros a. rewrite <- Hlcmem. set_solver.
      + rewrite HC3, decide_True by done. simpl. set_solver.
      + intros y Hy. by rewrite HC3, decide_False. }
  simpl.
  destruct (upd_is_Some σ3 u (set_parent (Some w))) as [σ4 Hσ4].
  { apply HA3, HA2, HA1. by eapply wf_alloc. }
  rewrite Hσ4. simpl.
  apply (upd_parent _ _ _ (Some w)) in Hσ4
    as (HP4 & HR4 & HL4 & HC4 & HD4 & HA4); try done.
  destruct (upd_is_Some σ4 w
              (λ n, set_degree (size_t_wrap (degree n + 1)) n)) as [σ5 Hσ5].
  { apply HA4, HA3. eauto. }
  rewrite Hσ5. simpl.
  apply upd_other in Hσ5 as (HR5 & HL5 & HP5 & HC5 & HD5 & HA5); try done.
  destruct (upd_is_Some σ5 u (set_childcut false)) as [σ6 Hσ6].
  { apply HA5, HA4, HA3, HA2, HA1. by eapply wf_alloc. }
  rewrite Hσ6.
  apply upd_other in Hσ6 as (HR6 & HL6 & HP6 & HC6 & HD6 & HA6); try done.
  exists σ6. split; [done|].
  assert (HP : ∀ y, parent_of σ6 y
                    = if decide (y = u) then Some w else parent_of σ y).
  { intros y. by rewrite HP6, HP5, HP4, HP3, HP2, HP1. }
  assert (HD : same_data σ σ6).
  { intros y. by rewrite HD6, HD5, HD4, HD3, HD2, HD1. }
  assert (Hsib456 : ∀ y, right_of σ6 y = right_of σ3 y
                         ∧ left_of σ6 y = left_of σ3 y).
  { intros y. by rewrite HR6, HR5, HR4, HL6, HL5, HL4. }
  split; [|split; [done|split; [done|]]].
  - apply (wf_after_link σ δ G top σ6 w u kw vw ku vu l' lw); try done.
    + intros y Hy. by rewrite HC6, HC5, HC4, HC3, HC2, HC1.
    + revert Hl2. apply ring_frame. intros y Hy.
      destruct (Hsib456 y) as [-> ->]. apply Hframe3; [by intros ->|].
      intros [_ ?]%Hlcmem. apply Hl'mem in Hy as (_ & ? & _). congruence.
    + revert Hlw. apply ring_frame. intros y _. apply Hsib456.
    + by rewrite HC6, HC5, HC4.
    + intros y p Hy Hyp Hpw.
      destruct (Hsib456 y) as [-> ->].
      destruct (Hframe3 y) as [-> ->].
      { intros ->. congruence. }
      { intros [_ ?]%Hlcmem. congruence. }
      destruct (Hframe2 y) as [-> ->]; [intros ->; congruence|].
      apply Hframe1. intros (_ & ? & _)%Hl'mem. congruence.
  - intros y. etrans; [apply HA6|]. etrans; [apply HA5|].
    etrans; [apply HA4|]. etrans; [apply HA3|]. etrans; [apply HA2|].
    apply HA1.
Qed.

End Link.

(** ** Consolidation: linking the roots of equal degree *)

Section Consolidate.
Context {K T : Type}.
Variable Compare : K → K → bool.
Implicit Types (σ : gmap positive internal_structure)
  (δ : gmap positive (internal_data.t K T)) (G : gmap positive (K * T))
  (A : gmap Z positive) (a b x y z w u : addr).

#[local] Abbreviation ring σ l := (cycle (right_of σ) (left_of σ) l).
#[local] Abbreviation wf := (wf Compare).
#[local] Abbreviation consolidating := (consolidating Compare).

Hypothesis Compare_asym : ∀ k1 k2 : K,
  Compare k1 k2 = true → Compare k2 k1 = false.

Lemma same_data_refl σ : same_data σ σ.
Proof. done. Qed.
Lemma same_data_trans σ1 σ2 σ3 :
  same_data σ1 σ2 → same_data σ2 σ3 → same_data σ1 σ3.
Proof. intros H1 H2 x. by rewrite H2, H1. Qed.
Lemma same_alloc_refl σ : same_alloc σ σ.
Proof. done. Qed.
Lemma same_alloc_trans σ1 σ2 σ3 :
  same_alloc σ1 σ2 → same_alloc σ2 σ3 → same_alloc σ1 σ3.
Proof. intros H1 H2 x. etrans; [apply H2|apply H1]. Qed.

(** The root [w] in hand goes into a free slot of the index. *)
Lemma consolidating_store σ δ G A X w d :
  consolidating σ δ G A (w :: X) → A !! d = None →
  consolidating σ δ G (<[d := w]> A) X.
Proof.
  intros [Hwf Hnd Hapart Hinj Hroots] Hd.
  apply NoDup_cons in Hnd as [HwX Hnd].
  assert (Hw : ¬ is_entry A w) by (apply Hapart; left).
  split; try done.
  - intros a Ha [d' Hd']. apply lookup_insert_Some in Hd' as [[_ ->]|[_ Hd']].
    + done.
    + apply (Hapart a); [by right|by exists d'].
  - intros d1 d2 a H1 H2.
    apply lookup_insert_Some in H1 as [[<- <-]|[? H1]];
      apply lookup_insert_Some in H2 as [[<- Ha]|[? H2]]; try done.
    + exfalso. apply Hw. by exists d2.
    + subst a. exfalso. apply Hw. by exists d1.
    + by apply (Hinj d1 d2 a).
  - intros a. rewrite Hroots, elem_of_cons. split.
    + intros [[->|?]|[d' Hd']]; [right; exists d; by rewrite lookup_insert_eq
                                |by left|].
      right. exists d'. rewrite lookup_insert_ne; [done|].
      intros ->. congruence.
    + intros [?|[d' [[_ ->]|[_ Hd']]%lookup_insert_Some]];
        [left; by right|left; by left|right; by exists d'].
Qed.

(** The root in hand and the entry at its degree are linked: [keep] is the
    one that stays a root. *)
Lemma consolidating_link σ δ G A X w u d σ' keep drop :
  consolidating σ δ G A (w :: X) → A !! d = Some u →
  (keep = w ∧ drop = u) ∨ (keep = u ∧ drop = w) →
  wf σ' δ G (Some keep) →
  (∀ y, parent_of σ' y
        = if decide (y = drop) then Some keep else parent_of σ y) →
  consolidating σ' δ G (delete d A) (keep :: X).
Proof.
  intros [Hwf Hnd Hapart Hinj Hroots] Hd Hcase Hwf' HP.
  apply NoDup_cons in Hnd as [HwX Hnd].
  assert (Hw : ¬ is_entry A w) by (apply Hapart; left).
  assert (Hu : is_entry A u) by by exists d.
  assert (Hwu : w ≠ u) by by intros ->.
  assert (HuX : u ∉ X) by (intros ?; apply (Hapart u); [by right|done]).
  assert (Hdel : ∀ a, is_entry (delete d A) a ↔ is_entry A a ∧ a ≠ u).
  { intros a. split.
    - intros [d' [Hne Hd']%lookup_delete_Some]. split; [by exists d'|].
      intros ->. apply Hne. by apply (Hinj d d' u).
    - intros [[d' Hd'] Hau]. exists d'. apply lookup_delete_Some.
      split; [|done]. intros ->. congruence. }
  split.
  - eauto.
  - apply NoDup_cons. split; [|done]. by destruct Hcase as [[-> _]|[-> _]].
  - intros a [->|Ha]%elem_of_cons; rewrite Hdel.
    + destruct Hcase as [[-> _]|[-> _]]; tauto.
    + intros [? _]. apply (Hapart a); [by right|done].
  - intros d1 d2 a [_ H1]%lookup_delete_Some [_ H2]%lookup_delete_Some.
    by apply (Hinj d1 d2 a).
  - intros a. rewrite HP, Hdel, elem_of_cons.
    specialize (Hroots a). rewrite elem_of_cons in Hroots.
    clear Hdel Hapart Hinj Hwf Hwf' HP Hd Hnd.
    destruct (decide (a = drop)) as [->|Hadrop].
    + split; [by intros [_ ?]|]. intros Hrhs. exfalso.
      destruct Hcase as [[-> ->]|[-> ->]]; intuition congruence.
    + rewrite Hroots. destruct (decide (a = u)) as [->|Hau];
        destruct Hcase as [[-> ->]|[-> ->]]; intuition congruence.
Qed.

Lemma consolidating_root σ δ G A X a :
  consolidating σ δ G A X → a ∈ X ∨ is_entry A a →
  ∃ k v, G !! a = Some (k, v) ∧ parent_of σ a = None.
Proof.
  intros HI Ha. apply (cons_roots _ _ _ _ _ _ HI) in Ha as [Ha Hroot].
  apply elem_of_dom in Ha as [[k v] Ha]. eauto.
Qed.

Lemma link_loop_spec fuel σ δ G A w X d :
  consolidating σ δ G A (w :: X) → (base.size A < fuel)%nat →
  ∃ σ' A', link_loop Compare fuel δ σ A w d = Some (σ', A')
    ∧ consolidating σ' δ G A' X ∧ same_data σ σ' ∧ same_alloc σ σ'.
Proof.
  revert σ A w d. induction fuel as [|fuel IH]; intros σ A w d HI Hfuel;
    [lia|].
  simpl. destruct (A !! d) as [u|] eqn:Hd.
  - assert (Hwu : u ≠ w).
    { intros ->. apply (cons_apart _ _ _ _ _ _ HI w); [left|by exists d]. }
    rewrite decide_False by done.
    destruct (consolidating_root _ _ _ _ _ u HI) as (ku & vu & HGu & HPu);
      [right; by exists d|].
    destruct (consolidating_root _ _ _ _ _ w HI) as (kw & vw & HGw & HPw);
      [left; left|].
    destruct (cons_wf _ _ _ _ _ _ HI) as [top Hwf].
    rewrite (wf_key_of _ _ _ _ _ _ _ _ Hwf HGu),
      (wf_key_of _ _ _ _ _ _ _ _ Hwf HGw). simpl.
    destruct (Compare ku kw) eqn:Hcmp.
    + destruct (link_spec Compare σ δ G top u w ku vu kw vw)
        as (σ1 & -> & Hwf1 & HP1 & HD1 & HA1); try done.
      { by apply Compare_asym. }
      simpl.
      destruct (IH σ1 (delete d A) u (d + 1)) as (σ' & A' & -> & HI' & HD & HA).
      { apply (consolidating_link σ δ G A X w u d σ1 u w); auto. }
      { rewrite map_size_delete_Some by eauto.
        assert (base.size A ≠ 0%nat)
          by (apply (map_size_ne_0_lookup_2 A d); eauto).
        lia. }
      exists σ', A'. split; [done|]. split; [done|].
      split; [by apply same_data_trans with σ1
             |by apply same_alloc_trans with σ1].
    + destruct (link_spec Compare σ δ G top w u kw vw ku vu)
        as (σ1 & -> & Hwf1 & HP1 & HD1 & HA1); try done.
      simpl.
      destruct (IH σ1 (delete d A) w (d + 1)) as (σ' & A' & -> & HI' & HD & HA).
      { apply (consolidating_link σ δ G A X w u d σ1 w u); auto. }
      { rewrite map_size_delete_Some by eauto.
        assert (base.size A ≠ 0%nat)
          by (apply (map_size_ne_0_lookup_2 A d); eauto).
        lia. }
      exists σ', A'. split; [done|]. split; [done|].
      split; [by apply same_data_trans with σ1
             |by apply same_alloc_trans with σ1].
  - exists σ, (<[d := w]> A). split; [done|].
    split; [by apply consolidating_store|done].
Qed.

#[local] Arguments link_loop : simpl never.

Lemma consolidate_roots_spec (W : list addr) σ δ G A :
  consolidating σ δ G A W →
  ∃ σ' A', consolidate_roots Compare δ W σ A = Some (σ', A')
    ∧ consolidating σ' δ G A' [] ∧ same_data σ σ' ∧ same_alloc σ σ'.
Proof.
  revert σ A. induction W as [|w W IH]; intros σ A HI; simpl.
  - by exists σ, A.
  - destruct (consolidating_root _ _ _ _ _ w HI) as (kw & vw & HGw & HPw);
      [left; left|].
    assert (is_Some (σ !! w)) as [nw Hnw].
    { destruct (cons_wf _ _ _ _ _ _ HI) as [top Hwf].
      apply (wf_alloc _ _ _ _ _ _ Hwf). apply elem_of_dom. eauto. }
    rewrite Hnw. simpl.
    destruct (link_loop_spec (S (base.size A)) σ δ G A w W (degree nw) HI)
      as (σ1 & A1 & -> & HI1 & HD1 & HA1); [lia|].
    simpl.
    destruct (IH σ1 A1 HI1) as (σ' & A' & -> & HI' & HD & HA).
    exists σ', A'. split; [done|]. split; [done|].
    split; [by apply same_data_trans with σ1
           |by apply same_alloc_trans with σ1].
Qed.

End Consolidate.

(** ** What consolidation leaves alone *)

Section Frame.
Context {K T : Type}.
Variable Compare : K → K → bool.
Implicit Types (σ : gmap positive internal_structure)
  (δ : gmap positive (internal_data.t K T))
  (A : gmap Z positive) (a b x y z w u e : addr).

Lemma upd_same_child σ a f σ' :
  (∀ n, child (f n) = child n) → upd a f σ = Some σ' → same_child σ σ'.
Proof.
  intros Hf (n & Hn & ->)%upd_inv y. unfold child_of.
  apply field_insert_same with n; [done|apply Hf].
Qed.

Lemma upd_child_frame σ a f σ' y :
  upd a f σ = Some σ' → y ≠ a → child_of σ' y = child_of σ y.
Proof.
  intros (n & Hn & ->)%upd_inv Hy. unfold child_of.
  rewrite field_insert. by destruct (decide (y = a)).
Qed.

Lemma ring_splice_child a b σ σ' :
  ring_splice a b σ = Some σ' → same_child σ σ'.
Proof.
  unfold ring_splice. intros H.
  apply bind_Some in H as (ra & _ & H). apply bind_Some in H as (rb & _ & H).
  apply bind_Some in H as (σ1 & H1 & H). apply bind_Some in H as (σ2 & H2 & H).
  apply bind_Some in H as (σ3 & H3 & H).
  apply upd_same_child in H1; [|done]. apply upd_same_child in H2; [|done].
  apply upd_same_child in H3; [|done]. apply upd_same_child in H; [|done].
  intros y. by rewrite H, H3, H2, H1.
Qed.

Lemma ring_remove_child x σ σ' :
  ring_remove x σ = Some σ' → same_child σ σ'.
Proof.
  unfold ring_remove. intros H.
  apply bind_Some in H as (l & _ & H). apply bind_Some in H as (r & _ & H).
  apply bind_Some in H as (σ1 & H1 & H).
  apply upd_same_child in H1; [|done]. apply upd_same_child in H; [|done].
  intros y. by rewrite H, H1.
Qed.

Lemma ring_alone_child x σ σ' :
  ring_alone x σ = Some σ' → same_child σ σ'.
Proof.
  unfold ring_alone. intros H.
  apply bind_Some in H as (σ1 & H1 & H).
  apply upd_same_child in H1; [|done]. apply upd_same_child in H; [|done].
  intros y. by rewrite H, H1.
Qed.

(** Linking [b] below [a] changes the child pointer of [a] at most. *)
Lemma link_child a b σ σ' y :
  link a b σ = Some σ' → y ≠ a → child_of σ' y = child_of σ y.
Proof.
  unfold link. intros H Hy.
  apply bind_Some in H as (σ1 & H1%ring_remove_child & H).
  apply bind_Some in H as (σ2 & H2%ring_alone_child & H).
  apply bind_Some in H as (na & _ & H).
  apply bind_Some in H as (σ3 & H3 & H).
  apply bind_Some in H as (σ4 & H4 & H).
  apply bind_Some in H as (σ5 & H5 & H).
  apply upd_same_child in H4; [|done]. apply upd_same_child in H5; [|done].
  apply upd_same_child in H; [|done].
  rewrite H, H5, H4, <- H1, <- H2.
  destruct (child na) as [c|].
  - by apply ring_splice_child in H3.
  - by apply (upd_child_frame _ _ _ _ _ H3).
Qed.

Lemma link_loop_child fuel δ σ A w d σ' A' :
  link_loop Compare fuel δ σ A w d = Some (σ', A') →
  (∀ y, y ≠ w → ¬ is_entry A y → child_of σ' y = child_of σ y)
  ∧ (∀ a, is_entry A' a → a = w ∨ is_entry A a).
Proof.
  revert σ A w d. induction fuel as [|fuel IH]; intros σ A w d; [done|].
  simpl.
  assert (Hstop : Some (σ, <[d := w]> A) = Some (σ', A') →
    (∀ y, y ≠ w → ¬ is_entry A y → child_of σ' y = child_of σ y)
    ∧ (∀ a, is_entry A' a → a = w ∨ is_entry A a)).
  { intros [= <- <-]. split; [done|].
    intros a [d' [[_ <-]|[_ Hd']]%lookup_insert_Some]; [by left|].
    right. by exists d'. }
  destruct (A !! d) as [u|] eqn:Hd; [|done].
  destruct (decide (u = w)) as [->|Hu]; [done|].
  intros H.
  apply bind_Some in H as (ku & _ & H). apply bind_Some in H as (kw & _ & H).
  apply bind_Some in H as (σ1 & Hlink & H).
  apply IH in H as [Hch Hent].
  assert (Hdel : ∀ a, is_entry (delete d A) a → is_entry A a).
  { intros a [d' [_ Hd']%lookup_delete_Some]. by exists d'. }
  assert (Huw : ∀ a, a = (if Compare ku kw then u else w) →
            a = w ∨ is_entry A a).
  { intros a ->. destruct (Compare ku kw); [right; by exists d|by left]. }
  split.
  - intros y Hyw Hy.
    assert (Hy' : y ≠ (if Compare ku kw then u else w)).
    { intros Heq. destruct (Huw y Heq); tauto. }
    rewrite Hch; [|done|by intros ?%Hdel].
    by apply (link_child _ _ _ _ _ Hlink).
  - intros a [Ha|Ha]%Hent; [by apply Huw|right; by apply Hdel].
Qed.

Lemma consolidate_roots_child δ (W : list addr) σ A σ' A' y :
  consolidate_roots Compare δ W σ A = Some (σ', A') →
  y ∉ W → ¬ is_entry A y → child_of σ' y = child_of σ y.
Proof.
  revert σ A. induction W as [|w W IH]; intros σ A; cbn [consolidate_roots].
  - by intros [= <- <-].
  - intros H HyW Hy.
    apply bind_Some in H as (nw & _ & H).
    apply bind_Some in H as ([σ1 A1] & Hloop & H).
    apply link_loop_child in Hloop as [Hch Hent].
    assert (Hyw : y ≠ w) by (intros ->; apply HyW; left).
    rewrite (IH σ1 A1 H).
    + by apply Hch.
    + intros Hin. apply HyW. by right.
    + intros [?|?]%Hent; tauto.
Qed.

End Frame.

(** ** Consolidation: the new root ring and the new minimum *)

Section Rebuild.
Context {K T : Type}.
Variable Compare : K → K → bool.
Implicit Types (σ : gmap positive internal_structure)
  (δ : gmap positive (internal_data.t K T)) (G : gmap positive (K * T))
  (A : gmap Z positive) (a b x y z w u e : addr).

#[local] Abbreviation ring σ l := (cycle (right_of σ) (left_of σ) l).
#[local] Abbreviation wf := (wf Compare).
#[local] Abbreviation consolidating := (consolidating Compare).

Hypothesis Compare_asym : ∀ k1 k2 : K,
  Compare k1 k2 = true → Compare k2 k1 = false.
Hypothesis Compare_ntrans : ∀ k1 k2 k3 : K,
  Compare k1 k2 = false → Compare k2 k3 = false → Compare k1 k3 = false.

(** Another pointer into the root ring. *)
Lemma wf_retop σ δ G top m :
  wf σ δ G top → m ∈ dom G → parent_of σ m = None → wf σ δ G (Some m).
Proof.
  intros [Hdata (l & Hl & Hlmem & _) Hch Hord Hgr] Hm Hroot.
  split; try done. exists l. split; [done|]. split; [done|].
  simpl. by apply Hlmem.
Qed.

(** The roots are put into a new ring. *)
Lemma wf_reroot σ δ G top σ' (L : list addr) top' :
  wf σ δ G top →
  same_nonsib σ σ' →
  (∀ y p, y ∈ dom G → parent_of σ y = Some p →
     right_of σ' y = right_of σ y ∧ left_of σ' y = left_of σ y) →
  ring σ' L →
  (∀ a, a ∈ L ↔ a ∈ dom G ∧ parent_of σ a = None) →
  entry_ok top' L →
  wf σ' δ G top'.
Proof.
  intros Hwf (HP & HC & HD & HA) Hsib HL HLmem Htop.
  split.
  - intros a kv Ha.
    destruct (wf_data _ _ _ _ _ Hwf a kv Ha) as (d & dn & Hd & Hrest').
    exists d, dn. by rewrite HD.
  - exists L. split; [done|]. split; [|done].
    intros a. by rewrite HLmem, HP.
  - intros p Hp.
    destruct (wf_children _ _ _ _ _ Hwf p Hp) as (l & Hl & Hlmem & Hentry).
    exists l. split; [|split].
    + revert Hl. apply ring_frame. intros y Hy.
      apply Hlmem in Hy as [Hy Hyp]. by apply (Hsib y p).
    + intros a. by rewrite Hlmem, HP.
    + by rewrite HC.
  - intros a p ka va kp vp Ha Hpa Hp. rewrite HP in Hpa.
    by apply (wf_order _ _ _ _ _ Hwf a p ka va kp vp).
  - intros a Ha.
    pose proof (wf_grounded _ _ _ _ _ Hwf a Ha) as Hg.
    induction Hg as [a Ha' Hr|a p Ha' Hp Hg IH].
    + apply grounded_root; [done|]. by rewrite HP.
    + apply grounded_child with p; [done|by rewrite HP|].
      apply IH. by eapply grounded_in.
Qed.

Lemma rebuild_ring_spec (rest : list addr) σ e (acc : list addr) :
  ring σ (e :: acc) → NoDup (e :: acc ++ rest) →
  (∀ a, a ∈ rest → is_Some (σ !! a)) →
  ∃ σ' L, rebuild_ring e rest σ = Some σ'
    ∧ ring σ' (e :: L)
    ∧ (∀ a, a ∈ L ↔ a ∈ acc ∨ a ∈ rest)
    ∧ same_nonsib σ σ'
    ∧ (∀ y, y ∉ e :: acc ++ rest →
         right_of σ' y = right_of σ y ∧ left_of σ' y = left_of σ y).
Proof.
  revert σ acc. induction rest as [|e' rest IH]; intros σ acc Hring Hnd Halloc.
  - exists σ, acc. simpl. split; [done|]. split; [done|].
    split; [|split; [apply same_nonsib_refl|done]].
    intros a. rewrite elem_of_nil. tauto.
  - simpl.
    assert (Hnd' : NoDup (e' :: e :: acc ++ rest)).
    { assert (Hperm : e' :: e :: acc ++ rest ≡ₚ e :: acc ++ e' :: rest).
      { rewrite (Permutation_swap e e'). constructor.
        by rewrite Permutation_middle. }
      by rewrite Hperm. }
    apply NoDup_cons in Hnd' as [He' Hnd'].
    destruct (alone_ring σ e') as (σ1 & -> & He1 & Hn1 & Hframe1).
    { apply Halloc. left. }
    simpl.
    assert (Hring1 : ring σ1 (e :: acc)).
    { revert Hring. apply ring_frame. intros y Hy. apply Hframe1.
      intros ->. apply He'. rewrite app_comm_cons. apply elem_of_app. by left. }
    destruct (splice_rings σ1 e acc e' [] Hring1 He1)
      as (σ2 & -> & Hring2 & Hn2 & Hframe2).
    { intros a Ha ->%list_elem_of_singleton. apply He'.
      rewrite app_comm_cons. apply elem_of_app. by left. }
    simpl.
    destruct (IH σ2 (e' :: acc)) as (σ' & L & -> & HL & HLmem & Hn & Hframe).
    { done. }
    { assert (Hperm : e :: (e' :: acc) ++ rest ≡ₚ e :: acc ++ e' :: rest).
      { constructor. simpl. by rewrite Permutation_middle. }
      by rewrite Hperm. }
    { intros a Ha. apply Hn2, Hn1, Halloc. by right. }
    exists σ', L. split; [done|]. split; [done|].
    split; [|split].
    + intros a. rewrite HLmem, !elem_of_cons. tauto.
    + eauto using same_nonsib_trans.
    + intros y Hy.
      assert (Hye' : y ≠ e').
      { intros ->. apply Hy. right. apply elem_of_app. right. left. }
      destruct (Hframe y) as [-> ->].
      { intros Hin. apply Hy. revert Hin.
        rewrite !elem_of_cons, !elem_of_app, !elem_of_cons. tauto. }
      destruct (Hframe2 y) as [-> ->].
      { intros Hin. apply Hy. revert Hin.
        rewrite !elem_of_cons, !elem_of_app. tauto. }
      { by intros ->%list_elem_of_singleton. }
      by apply Hframe1.
Qed.

Lemma smallest_spec σ δ G top (rest : list addr) best kb vb :
  wf σ δ G top →
  G !! best = Some (kb, vb) →
  (∀ a, a ∈ rest → a ∈ dom G) →
  ∃ m km vm, smallest Compare σ δ best rest = Some m
    ∧ m ∈ best :: rest
    ∧ G !! m = Some (km, vm)
    ∧ Compare kb km = false
    ∧ (∀ a ka va, a ∈ rest → G !! a = Some (ka, va) → Compare ka km = false).
Proof.
  intros Hwf. revert best kb vb.
  induction rest as [|e rest IH]; intros best kb vb Hbest Hin; simpl.
  - exists best, kb, vb. split; [done|]. split; [left|]. split; [done|].
    split; [by apply (Compare_irrefl Compare)|].
    intros a ka va Ha. by apply elem_of_nil in Ha.
  - assert (He : e ∈ dom G) by (apply Hin; left).
    apply elem_of_dom in He as [[ke ve] He].
    rewrite (wf_key_of _ _ _ _ _ _ _ _ Hwf He),
      (wf_key_of _ _ _ _ _ _ _ _ Hwf Hbest). simpl.
    destruct (Compare ke kb) eqn:Hcmp.
    + destruct (IH e ke ve He) as (m & km & vm & -> & Hm & HGm & Hle & Hall).
      { intros a Ha. apply Hin. by right. }
      exists m, km, vm. split; [done|].
      split; [rewrite !elem_of_cons in *; tauto|]. split; [done|].
      assert (Hb : Compare kb km = false).
      { destruct (Compare kb km) eqn:E; [|done].
        by rewrite (Compare_trans Compare Compare_asym Compare_ntrans
                      _ _ _ Hcmp E) in Hle. }
      split; [done|].
      intros a ka va [->|Ha]%elem_of_cons HGa.
      * congruence.
      * by apply (Hall a ka va).
    + destruct (IH best kb vb Hbest) as (m & km & vm & -> & Hm & HGm & Hle & Hall).
      { intros a Ha. apply Hin. by right. }
      exists m, km, vm. split; [done|].
      split; [rewrite !elem_of_cons in *; tauto|]. split; [done|].
      split; [done|].
      intros a ka va [->|Ha]%elem_of_cons HGa.
      * assert (ka = ke) as -> by congruence.
        by apply (Compare_ntrans ke kb km).
      * by apply (Hall a ka va).
Qed.

Lemma consolidate_spec fuel σ δ G r :
  wf σ δ G (Some r) → (base.size G ≤ fuel)%nat →
  ∃ σ' m, consolidate Compare fuel δ r σ = Some (σ', Some m)
    ∧ wf σ' δ G (Some m) ∧ min_ok Compare σ' G (Some m)
    ∧ same_data σ σ' ∧ same_alloc σ σ'
    ∧ (∀ y, y ∉ dom G → child_of σ' y = child_of σ y).
Proof.
  intros Hwf Hfuel. unfold consolidate.
  destruct (wf_roots _ _ _ _ _ Hwf) as (l & Hl & Hlmem & Hlr).
  destruct (ring_members_spec σ l (Some r) fuel Hl Hlr)
    as (W & -> & HWl & HW & _).
  { etrans; [|apply Hfuel]. apply ring_length_le; [apply Hl|].
    intros a Ha. by apply Hlmem. }
  simpl.
  assert (HI : consolidating σ δ G ∅ W).
  { split.
    - by exists (Some r).
    - apply HW.
    - intros a _ [d Hd]. by rewrite lookup_empty in Hd.
    - intros d1 d2 a Hd. by rewrite lookup_empty in Hd.
    - intros a. rewrite <- Hlmem, <- HWl. split; [by left|].
      intros [Ha|[d Hd]]; [done|]. by rewrite lookup_empty in Hd. }
  destruct (consolidate_roots_spec Compare Compare_asym W σ δ G ∅ HI)
    as (σ1 & A & Hcr & HI1 & HD1 & HA1).
  rewrite Hcr. simpl.
  destruct (cons_wf _ _ _ _ _ _ HI1) as [top1 Hwf1].
  assert (HE : ∀ a, a ∈ (map_to_list A).*2 ↔ is_entry A a).
  { intros a. rewrite list_elem_of_fmap. split.
    - intros ([d a'] & -> & Hin). exists d. by apply elem_of_map_to_list.
    - intros [d Hd]. exists (d, a). split; [done|].
      by apply elem_of_map_to_list. }
  assert (HEroot : ∀ a, a ∈ (map_to_list A).*2 ↔
            a ∈ dom G ∧ parent_of σ1 a = None).
  { intros a. rewrite HE, (cons_roots _ _ _ _ _ _ HI1 a), elem_of_nil.
    tauto. }
  assert (HEnd : NoDup (map_to_list A).*2).
  { apply NoDup_fmap_2_strong; [|apply NoDup_map_to_list].
    intros [d1 a1] [d2 a2] H1%elem_of_map_to_list H2%elem_of_map_to_list.
    simpl. intros <-. f_equal.
    by apply (cons_inj _ _ _ _ _ _ HI1 d1 d2 a1). }
  destruct (wf_top_root _ _ _ _ _ Hwf) as [HrG _].
  destruct (grounded_root_above _ _ _ (wf_grounded _ _ _ _ _ Hwf1 r HrG))
    as (r1 & Hr1G & Hr1).
  assert (Hr1E : r1 ∈ (map_to_list A).*2) by by apply HEroot.
  destruct ((map_to_list A).*2) as [|e rest] eqn:HEeq.
  { by apply elem_of_nil in Hr1E. }
  destruct (alone_ring σ1 e) as (σ2 & -> & He2 & Hn2 & Hframe2).
  { apply (wf_alloc _ _ _ _ _ _ Hwf1). apply HEroot. left. }
  simpl.
  destruct (rebuild_ring_spec rest σ2 e [] He2)
    as (σ3 & L & -> & HL & HLmem & Hn3 & Hframe3).
  { done. }
  { intros a Ha. apply Hn2. apply (wf_alloc _ _ _ _ _ _ Hwf1).
    apply HEroot. by right. }
  simpl.
  assert (He : e ∈ dom G ∧ parent_of σ1 e = None) by (apply HEroot; left).
  destruct He as [HeG Heroot].
  assert (Hn13 : same_nonsib σ1 σ3) by eauto using same_nonsib_trans.
  assert (Hwf3 : wf σ3 δ G (Some e)).
  { apply (wf_reroot σ1 δ G top1 σ3 (e :: L) (Some e) Hwf1 Hn13).
    - intros y p HyG Hyp.
      assert (HyE : y ∉ e :: rest).
      { intros Hy%HEroot. destruct Hy as [_ Hy]. congruence. }
      destruct (Hframe3 y) as [-> ->]; [done|].
      apply Hframe2. intros ->. apply HyE. left.
    - done.
    - intros a. etrans; [|apply HEroot].
      rewrite !elem_of_cons, HLmem, elem_of_nil. tauto.
    - left. }
  apply elem_of_dom in HeG as [[ke ve] HGe].
  destruct (smallest_spec σ3 δ G (Some e) rest e ke ve Hwf3 HGe)
    as (m & km & vm & -> & Hm & HGm & Hem & Hall).
  { intros a Ha. apply HEroot. by right. }
  simpl. exists σ3, m. split; [done|].
  assert (Hmroot : m ∈ dom G ∧ parent_of σ1 m = None) by by apply HEroot.
  destruct Hn13 as (HP13 & HC13 & HD13 & HA13).
  split; [|split; [|split; [|split]]].
  - apply (wf_retop σ3 δ G (Some e)); [done|tauto|].
    rewrite HP13. tauto.
  - intros m' r' km' vm' kr vr [= <-] HGm' HGr Hr'.
    assert (km' = km) as -> by congruence.
    rewrite HP13 in Hr'.
    assert (Hr'E : r' ∈ e :: rest).
    { apply HEroot. split; [|done]. apply elem_of_dom. eauto. }
    apply elem_of_cons in Hr'E as [->|Hr'E].
    + congruence.
    + by apply (Hall r' kr vr).
  - intros x. by rewrite HD13, HD1.
  - intros x. etrans; [apply HA13|apply HA1].
  - intros y Hy. rewrite HC13.
    apply (consolidate_roots_child Compare δ W σ ∅ σ1 A y Hcr).
    + rewrite HWl. intros Hin%Hlmem. tauto.
    + intros [d Hd]. by rewrite lookup_empty in Hd.
Qed.

End Rebuild.

(** ** Extraction of the minimum *)

Section ExtractMin.
Context {K T : Type}.
Variable Compare : K → K → bool.
Implicit Types (σ : gmap positive internal_structure)
  (δ : gmap positive (internal_data.t K T)) (G : gmap positive (K * T))
  (a b x y z w u e : addr).

#[local] Abbreviation ring σ l := (cycle (right_of σ) (left_of σ) l).
#[local] Abbreviation wf := (wf Compare).
#[local] Abbreviation heap_inv := (heap_inv Compare).

Hypothesis Compare_asym : ∀ k1 k2 : K,
  Compare k1 k2 = true → Compare k2 k1 = false.
Hypothesis Compare_ntrans : ∀ k1 k2 k3 : K,
  Compare k1 k2 = false → Compare k2 k3 = false → Compare k1 k3 = false.

(** No key in the heap is less than the key of [min]. *)
Lemma heap_min_least σ δ G h z kz vz :
  heap_inv σ δ G h → min h = Some z → G !! z = Some (kz, vz) →
  ∀ a ka va, G !! a = Some (ka, va) → Compare ka kz = false.
Proof.
  intros [Hwf Hmin _ _] Hz HGz a ka va HGa.
  assert (Ha : a ∈ dom G) by (apply elem_of_dom; eauto).
  pose proof (wf_grounded _ _ _ _ _ Hwf a Ha) as Hg.
  revert ka va HGa. clear Ha.
  induction Hg as [a Ha Hr|a p Ha Hp Hg IH]; intros ka va HGa.
  - by apply (Hmin z a kz vz ka va).
  - assert (Hpin : p ∈ dom G) by by eapply grounded_in.
    apply elem_of_dom in Hpin as [[kp vp] HGp].
    apply (Compare_ntrans ka kp kz).
    + by apply (wf_order _ _ _ _ _ Hwf a p ka va kp vp).
    + by apply (IH kp vp).
Qed.

(** The empty forest, in any memory. *)
Lemma wf_empty σ δ : wf σ δ ∅ None.
Proof.
  split.
  - intros a kv Ha. by rewrite lookup_empty in Ha.
  - exists []. split; [apply cycle_nil|]. split; [|done].
    intros a. rewrite dom_empty_L, elem_of_nil, elem_of_empty. tauto.
  - intros p Hp. by rewrite dom_empty_L, elem_of_empty in Hp.
  - intros a p ka va kp vp Ha. by rewrite lookup_empty in Ha.
  - intros a Ha. by rewrite dom_empty_L, elem_of_empty in Ha.
Qed.

Lemma heap_inv_empty σ δ : heap_inv σ δ ∅ (mk_heap None 0).
Proof.
  split; simpl.
  - apply wf_empty.
  - by intros m r km vm kr vr.
  - by rewrite map_size_empty.
  - by rewrite map_size_empty.
Qed.

Lemma unlink_min_spec σ δ G h z :
  heap_inv σ δ G h → min h = Some z →
  ∃ σ' h', unlink_min Compare z σ δ h = Some (σ', h')
    ∧ heap_inv σ' δ (delete z G) h'
    ∧ same_data σ σ' ∧ same_alloc σ σ' ∧ child_of σ' z = None.
Proof.
  intros [Hwf Hmin Hsize Hbound] Hz. rewrite Hz in Hwf.
  destruct (wf_top_root _ _ _ _ _ Hwf) as [HzG _].
  apply elem_of_dom in HzG as [kvz HGz].
  assert (Hsz : base.size G = S (base.size (delete z G))).
  { rewrite map_size_delete_Some by eauto.
    assert (base.size G ≠ 0%nat)
      by (apply (map_size_ne_0_lookup_2 G z); eauto).
    lia. }
  unfold unlink_min. rewrite Hsize, Nat2Z.id.
  destruct (detach_min_spec Compare σ δ G z (base.size G) Hwf)
    as (σ1 & top1 & -> & Hwf1 & HD1 & HA1 & Hch1 & Hright); [done|].
  simpl.
  assert (Hlen : size_t_wrap (Z.of_nat (base.size G) - 1)
                 = Z.of_nat (base.size (delete z G))).
  { rewrite size_t_wrap_small; lia. }
  rewrite Hlen.
  destruct (decide (Z.of_nat (base.size (delete z G)) = 0)) as [He|Hne].
  - exists σ1, (mk_heap None (Z.of_nat (base.size (delete z G)))).
    split; [done|]. split; [|done].
    assert (HG0 : delete z G = ∅).
    { apply map_size_empty_iff. lia. }
    rewrite HG0, map_size_empty. apply heap_inv_empty.
  - destruct top1 as [r|]; cycle 1.
    { apply wf_top_None in Hwf1. rewrite Hwf1, map_size_empty in Hne. done. }
    rewrite (Hright r eq_refl). simpl.
    destruct (consolidate_spec Compare Compare_asym Compare_ntrans
                (base.size G) σ1 δ (delete z G) r Hwf1)
      as (σ2 & m & -> & Hwf2 & Hmin2 & HD2 & HA2 & Hch2); [lia|].
    simpl. exists σ2, (mk_heap (Some m) (Z.of_nat (base.size (delete z G)))).
    split; [done|]. split; [|split; [|split]].
    + split; simpl; [done|done|done|lia].
    + intros x. by rewrite HD2, HD1.
    + intros x. etrans; [apply HA2|apply HA1].
    + rewrite Hch2; [done|]. rewrite dom_delete_L. set_solver.
Qed.

(** Once [z] is out of the forest, its structure object can go, and its
    data object no longer belongs to a node. *)
Lemma wf_forget σ δ G top z d dn dn' :
  wf σ δ G top → z ∉ dom G →
  δ !! d = Some dn → internal_data.structure dn = Some z →
  wf (delete z σ) (<[d := dn']> δ) G top.
Proof.
  intros Hwf Hz Hd Hdn.
  assert (Hfield : ∀ {A} (proj : internal_structure → option A) x,
            x ≠ z → delete z σ !! x ≫= proj = σ !! x ≫= proj).
  { intros A proj x Hx. by rewrite lookup_delete_ne. }
  assert (Hne : ∀ x, x ∈ dom G → x ≠ z) by (intros x Hx ->; done).
  assert (HP : ∀ x, x ∈ dom G → parent_of (delete z σ) x = parent_of σ x).
  { intros x Hx. apply Hfield. by apply Hne. }
  assert (Hsib : ∀ x, x ∈ dom G →
            right_of (delete z σ) x = right_of σ x
            ∧ left_of (delete z σ) x = left_of σ x).
  { intros x Hx. split; apply Hfield; by apply Hne. }
  split.
  - intros a kv Ha.
    assert (HaG : a ∈ dom G) by (apply elem_of_dom; eauto).
    destruct (wf_data _ _ _ _ _ Hwf a kv Ha) as (d1 & dn1 & Hd1 & Hdn1 & Hs1 & Hkv).
    exists d1, dn1. split; [|split; [|done]].
    + unfold data_of. rewrite Hfield; [done|by apply Hne].
    + rewrite lookup_insert_ne; [done|].
      intros <-. apply (Hne a HaG). congruence.
  - destruct (wf_roots _ _ _ _ _ Hwf) as (l & Hl & Hlmem & Htop).
    exists l. split; [|split; [|done]].
    + revert Hl. apply ring_frame. intros x Hx. apply Hsib. by apply Hlmem.
    + intros a. rewrite Hlmem. split.
      * intros [Ha Hr]. by rewrite HP.
      * intros [Ha Hr]. by rewrite HP in Hr.
  - intros p Hp.
    destruct (wf_children _ _ _ _ _ Hwf p Hp) as (l & Hl & Hlmem & Hentry).
    exists l. split; [|split].
    + revert Hl. apply ring_frame. intros x Hx. apply Hsib. by apply Hlmem.
    + intros a. rewrite Hlmem. split.
      * intros [Ha Hr]. by rewrite HP.
      * intros [Ha Hr]. by rewrite HP in Hr.
    + unfold child_of. rewrite Hfield; [done|by apply Hne].
  - intros a p ka va kp vp Ha Hpa Hp.
    rewrite HP in Hpa by (apply elem_of_dom; eauto).
    by apply (wf_order _ _ _ _ _ Hwf a p ka va kp vp).
  - intros a Ha.
    pose proof (wf_grounded _ _ _ _ _ Hwf a Ha) as Hg.
    induction Hg as [a Ha' Hr|a p Ha' Hp Hg IH].
    + apply grounded_root; [done|]. by rewrite HP.
    + apply grounded_child with p; [done|by rewrite HP|].
      apply IH. by eapply grounded_in.
Qed.

End ExtractMin.

(** ** The member functions on a well-formed heap *)

Section Methods.
Context {K T : Type}.
Variable Compare : K → K → bool.
Implicit Types (σ : gmap positive internal_structure)
  (δ : gmap positive (internal_data.t K T)) (G : gmap positive (K * T))
  (a b x y z w u e : addr).

#[local] Abbreviation memory := (@memory K T).
#[local] Abbreviation M := (@M K T).
#[local] Abbreviation wf := (wf Compare).
#[local] Abbreviation heap_inv := (heap_inv Compare).

Hypothesis Compare_asym : ∀ k1 k2 : K,
  Compare k1 k2 = true → Compare k2 k1 = false.
Hypothesis Compare_ntrans : ∀ k1 k2 k3 : K,
  Compare k1 k2 = false → Compare k2 k3 = false → Compare k1 k3 = false.

#[local] Abbreviation represents := (represents Compare).

Lemma insert_spec (m : memory) this G k v :
  represents m this G →
  Z.of_nat (base.size G) + 1 < size_t_modulus →
  ∃ n m' x, insert Compare this k v m = Done (n, m')
    ∧ G !! x = None ∧ represents m' this (<[x := (k, v)]> G).
Proof.
  intros (h & Hh & Hinv) Hroom.
  destruct (insert_core_inv Compare Compare_asym Compare_ntrans
              (Some this) k v _ _ G h Hinv Hroom) as (σ' & h' & Hcore & Hx & Hinv').
  unfold insert. rewrite Hh. simpl. rewrite Hcore.
  eexists _, _, _. split; [done|]. split; [done|].
  exists h'. simpl. by rewrite lookup_insert_eq.
Qed.

Lemma remove_empty (m : memory) this :
  represents m this ∅ → remove Compare this m = Done (None, m).
Proof.
  intros (h & Hh & [Hwf _ _ _]).
  unfold remove.
  erewrite bind_Done; [|unfold deref_h; by rewrite Hh].
  destruct (min h) as [z|]; [|done].
  apply wf_top_root in Hwf as [Hz _]. by rewrite dom_empty_L in Hz.
Qed.

Lemma remove_nonempty (m : memory) this G :
  represents m this G → G ≠ ∅ →
  ∃ z kz vz d dn m',
    G !! z = Some (kz, vz)
    ∧ remove Compare this m = Done (Some (mk_node (Some d)), m')
    ∧ represents m' this (delete z G)
    ∧ datas m' !! d = Some dn
    ∧ internal_data.key dn = kz ∧ internal_data.data dn = vz
    ∧ (∀ a ka va, G !! a = Some (ka, va) → Compare ka kz = false).
Proof.
  intros (h & Hh & Hinv) HG.
  destruct (min h) as [z|] eqn:Hz; cycle 1.
  { destruct Hinv as [Hwf _ _ _]. rewrite Hz in Hwf.
    by apply wf_top_None in Hwf. }
  pose proof (inv_wf _ _ _ _ _ Hinv) as Hwf. rewrite Hz in Hwf.
  destruct (wf_top_root _ _ _ _ _ Hwf) as [HzG _].
  apply elem_of_dom in HzG as [[kz vz] HGz].
  destruct (wf_data _ _ _ _ _ Hwf z _ HGz) as (d & dn & Hd & Hdn & Hstr & Hkv).
  destruct (unlink_min_spec Compare Compare_asym Compare_ntrans
              _ _ G h z Hinv Hz)
    as (σ' & h' & Hunlink & Hinv' & HD & HA & Hch).
  assert (is_Some (structs m !! z)) as [nz Hnz]
    by by eapply data_of_is_Some.
  assert (is_Some (σ' !! z)) as [nz' Hnz'] by (apply HA; eauto).
  assert (Hd' : data nz' = Some d).
  { specialize (HD z). unfold data_of in HD. rewrite Hnz' in HD.
    simpl in HD. by rewrite HD. }
  assert (Hdz : data nz = Some d).
  { unfold data_of in Hd. by rewrite Hnz in Hd. }
  assert (Hch' : child nz' = None).
  { unfold child_of in Hch. by rewrite Hnz' in Hch. }
  exists z, kz, vz, d, (set_structure None dn),
    (mk_memory (delete z σ') (<[d := set_structure None dn]> (datas m))
       (<[this := h']> (heaps m))).
  split; [done|]. split; [|split; [|split; [|split; [|split]]]].
  - unfold remove.
    erewrite bind_Done; [|unfold deref_h; by rewrite Hh].
    rewrite Hz.
    erewrite bind_Done;
      [|unfold node_of; erewrite bind_Done;
          [|unfold deref_s; by rewrite Hnz]; reflexivity].
    erewrite bind_Done; [|by rewrite Hunlink].
    rewrite Hdz.
    erewrite bind_Done; [reflexivity|].
    unfold destroy_structure.
    erewrite bind_Done; [|unfold deref_s; simpl; by rewrite Hnz'].
    erewrite bind_Done;
      [|unfold modify_d; simpl; rewrite Hd'; by rewrite Hdn].
    erewrite bind_Done;
      [|unfold deref_s; simpl; by rewrite Hnz'].
    rewrite Hch'. simpl.
    erewrite bind_Done; [|reflexivity].
    reflexivity.
  - exists h'. simpl. split; [by rewrite lookup_insert_eq|].
    destruct Hinv' as [Hwf' Hmin' Hsize' Hbound'].
    assert (HzG' : z ∉ dom (delete z G)) by (rewrite dom_delete_L; set_solver).
    split; [|  |done|done].
    + by apply (wf_forget Compare _ _ _ _ z d dn).
    + intros m0 r km vm kr vr Hm0 HGm HGr Hr.
      apply (Hmin' m0 r km vm kr vr Hm0 HGm HGr).
      rewrite <- Hr. unfold parent_of. rewrite lookup_delete_ne; [done|].
      intros <-. by rewrite lookup_delete_eq in HGr.
  - simpl. by rewrite lookup_insert_eq.
  - simpl. by inversion Hkv.
  - simpl. by inversion Hkv.
  - by apply (heap_min_least Compare Compare_ntrans
                (structs m) (datas m) G h z kz vz).
Qed.

End Methods.

(** ** The sort law *)

Section SortLaw.
Context {K T : Type}.
Variable Compare : K → K → bool.
Implicit Types (G : gmap positive (K * T)) (S : list (K * T)).

#[local] Abbreviation memory := (@memory K T).
#[local] Abbreviation represents := (represents Compare).
#[local] Abbreviation key_le := (key_le Compare).

Hypothesis Compare_asym : ∀ k1 k2 : K,
  Compare k1 k2 = true → Compare k2 k1 = false.
Hypothesis Compare_ntrans : ∀ k1 k2 k3 : K,
  Compare k1 k2 = false → Compare k2 k3 = false → Compare k1 k3 = false.

Lemma contents_empty : contents (∅ : gmap positive (K * T)) = [].
Proof. unfold contents. by rewrite map_to_list_empty. Qed.

Lemma contents_insert G x kv :
  G !! x = None → contents (<[x := kv]> G) ≡ₚ kv :: contents G.
Proof.
  intros Hx. unfold contents. by rewrite map_to_list_insert.
Qed.

Lemma contents_delete G z kv :
  G !! z = Some kv → contents G ≡ₚ kv :: contents (delete z G).
Proof.
  intros Hz. unfold contents.
  by rewrite <- (map_to_list_delete G z kv Hz).
Qed.

Lemma contents_length G : length (contents G) = base.size G.
Proof. unfold contents. by rewrite length_fmap, length_map_to_list. Qed.

Lemma elem_of_contents G kv : kv ∈ contents G → ∃ a, G !! a = Some kv.
Proof.
  unfold contents. intros ([a kv'] & -> & Hin)%list_elem_of_fmap.
  exists a. by apply elem_of_map_to_list.
Qed.

Lemma for_each_insert_spec S (m : memory) this G :
  represents m this G →
  Z.of_nat (base.size G) + Z.of_nat (length S) < size_t_modulus →
  ∃ m' G', for_each_insert (insert Compare) this S m = Done (tt, m')
    ∧ represents m' this G' ∧ contents G' ≡ₚ S ++ contents G.
Proof.
  revert m G. induction S as [|[k v] S IH]; intros m G Hrep Hroom.
  - exists m, G. by repeat split.
  - cbn [for_each_insert length] in *.
    destruct (insert_spec Compare Compare_asym Compare_ntrans m this G k v Hrep)
      as (n & m1 & x & Hins & Hx & Hrep1); [lia|].
    erewrite bind_Done by exact Hins.
    destruct (IH m1 (<[x := (k, v)]> G) Hrep1) as (m' & G' & -> & Hrep' & Hperm).
    { rewrite map_size_insert_None by done. lia. }
    exists m', G'. split; [done|]. split; [done|].
    rewrite Hperm, contents_insert by done. simpl.
    by rewrite <- Permutation_middle.
Qed.

Lemma extract_all_spec fuel (m : memory) this G :
  represents m this G → (base.size G < fuel)%nat →
  ∃ out m', extract_all Compare fuel this m = Done (out, m')
    ∧ out ≡ₚ contents G ∧ StronglySorted key_le out.
Proof.
  revert m G. induction fuel as [|fuel IH]; intros m G Hrep Hfuel; [lia|].
  cbn [extract_all].
  destruct (map_eq_dec_empty G) as [->|HG].
  - erewrite bind_Done by (by apply remove_empty).
    exists [], m. split; [done|]. rewrite contents_empty.
    split; [done|constructor].
  - destruct (remove_nonempty Compare Compare_asym Compare_ntrans m this G Hrep HG)
      as (z & kz & vz & d & dn & m1 & HGz & Hrem & Hrep1 & Hdn & Hk & Hv & Hleast).
    erewrite bind_Done by exact Hrem. cbv beta iota.
    erewrite bind_Done;
      [|unfold node_key; erewrite bind_Done;
          [|unfold deref_d; simpl; by rewrite Hdn]; reflexivity].
    erewrite bind_Done;
      [|unfold node_data; erewrite bind_Done;
          [|unfold deref_d; simpl; by rewrite Hdn]; reflexivity].
    destruct (IH m1 (delete z G) Hrep1) as (out & m' & Hout & Hperm & Hsorted).
    { rewrite map_size_delete_Some by eauto.
      assert (base.size G ≠ 0%nat)
        by (apply (map_size_ne_0_lookup_2 G z); eauto).
      lia. }
    erewrite bind_Done by exact Hout.
    exists ((kz, vz) :: out), m'. rewrite Hk, Hv. split; [done|]. split.
    + rewrite (contents_delete G z (kz, vz) HGz). by constructor.
    + constructor; [done|].
      apply Forall_forall. intros [ka va] Hin.
      rewrite Hperm in Hin.
      apply elem_of_contents in Hin as [a [_ Ha]%lookup_delete_Some].
      by apply (Hleast a ka va).
Qed.

(** C1.  Sort law: for a comparator that is a strict weak order, a heap
    built from the pairs of [S] by [insert] and emptied by [remove] hands
    back the pairs of [S], each as often as [S] has it, and no pair comes
    before one with a smaller key. *)
Theorem sort_law S (m : memory) this fuel :
  Z.of_nat (length S) < size_t_modulus → (length S < fuel)%nat →
  ∃ out m', sort_run Compare fuel this S m = Done (out, m')
    ∧ out ≡ₚ S ∧ StronglySorted key_le out.
Proof.
  intros Hroom Hfuel.
  set (m0 := with_heaps (<[this := mk_heap None 0]> (heaps m)) m).
  assert (Hrep0 : represents m0 this ∅).
  { exists (mk_heap None 0). split; [apply lookup_insert_eq|].
    apply heap_inv_empty. }
  destruct (for_each_insert_spec S m0 this ∅ Hrep0) as (m1 & G & Hins & Hrep & HG).
  { by rewrite map_size_empty. }
  rewrite contents_empty, app_nil_r in HG.
  destruct (extract_all_spec fuel m1 this G Hrep) as (out & m' & Hout & Hperm & Hs).
  { by rewrite <- contents_length, HG. }
  exists out, m'. split; [|split; [by rewrite Hperm|done]].
  assert (Hbuilt : list_constructor Compare this S m = Done (tt, m1)).
  { unfold list_constructor, list_constructor_with.
    erewrite bind_Done by (unfold store_h; reflexivity). exact Hins. }
  unfold sort_run. erewrite bind_Done by exact Hbuilt. exact Hout.
Qed.

End SortLaw.

(** ** Meld *)

Section Meld.
Context {K T : Type}.
Variable Compare : K → K → bool.
Implicit Types (σ : gmap positive internal_structure)
  (δ : gmap positive (internal_data.t K T)) (G : gmap positive (K * T))
  (a b x y z w u e : addr).

#[local] Abbreviation ring σ l := (cycle (right_of σ) (left_of σ) l).
#[local] Abbreviation memory := (@memory K T).
#[local] Abbreviation wf := (wf Compare).
#[local] Abbreviation heap_inv := (heap_inv Compare).
#[local] Abbreviation represents := (represents Compare).

Hypothesis Compare_asym : ∀ k1 k2 : K,
  Compare k1 k2 = true → Compare k2 k1 = false.
Hypothesis Compare_ntrans : ∀ k1 k2 k3 : K,
  Compare k1 k2 = false → Compare k2 k3 = false → Compare k1 k3 = false.

(** In the union of two forests every node sees its own forest only. *)
Lemma union_side σ δ G1 G2 top1 top2 a :
  wf σ δ G1 top1 → wf σ δ G2 top2 → G1 ##ₘ G2 →
  a ∈ dom (G1 ∪ G2) →
  ∃ Gi topi, wf σ δ Gi topi ∧ a ∈ dom Gi
    ∧ (∀ x kv, Gi !! x = Some kv → (G1 ∪ G2) !! x = Some kv)
    ∧ (∀ x p, x ∈ dom (G1 ∪ G2) → parent_of σ x = Some p →
         p ∈ dom Gi → x ∈ dom Gi).
Proof.
  intros Hwf1 Hwf2 Hdisj Ha.
  assert (Hapart : ∀ x, x ∈ dom G1 → x ∈ dom G2 → False).
  { intros x H1 H2. apply map_disjoint_dom in Hdisj. set_solver. }
  rewrite dom_union_L in Ha. apply elem_of_union in Ha as [Ha|Ha].
  - exists G1, top1. split; [done|]. split; [done|]. split.
    + intros x kv Hx. by apply lookup_union_Some_l.
    + intros x p Hx Hp HpG. rewrite dom_union_L in Hx.
      apply elem_of_union in Hx as [Hx|Hx]; [done|]. exfalso.
      apply (Hapart p); [done|].
      by apply (wf_parent_in Compare σ δ G2 top2 x p).
  - exists G2, top2. split; [done|]. split; [done|]. split.
    + intros x kv Hx. by apply lookup_union_Some_r.
    + intros x p Hx Hp HpG. rewrite dom_union_L in Hx.
      apply elem_of_union in Hx as [Hx|Hx]; [|done]. exfalso.
      apply (Hapart p); [|done].
      by apply (wf_parent_in Compare σ δ G1 top1 x p).
Qed.

(** Two forests whose root rings have been joined are one forest. *)
Lemma wf_union σ δ G1 G2 top1 top2 σ' (L : list addr) top' :
  wf σ δ G1 top1 → wf σ δ G2 top2 → G1 ##ₘ G2 →
  same_nonsib σ σ' →
  (∀ y p, y ∈ dom (G1 ∪ G2) → parent_of σ y = Some p →
     right_of σ' y = right_of σ y ∧ left_of σ' y = left_of σ y) →
  ring σ' L →
  (∀ a, a ∈ L ↔ a ∈ dom (G1 ∪ G2) ∧ parent_of σ a = None) →
  entry_ok top' L →
  wf σ' δ (G1 ∪ G2) top'.
Proof.
  intros Hwf1 Hwf2 Hdisj (HP & HC & HD & HA) Hsib HL HLmem Htop.
  pose proof (union_side σ δ G1 G2 top1 top2) as Hside.
  assert (Hown : ∀ (Gi : gmap positive (K * T)) x kv,
            (∀ x kv, Gi !! x = Some kv → (G1 ∪ G2) !! x = Some kv) →
            x ∈ dom Gi → (G1 ∪ G2) !! x = Some kv → Gi !! x = Some kv).
  { intros Gi x kv Hsub [kv' Hx]%elem_of_dom Hu.
    rewrite (Hsub x kv' Hx) in Hu. congruence. }
  assert (Hdom : ∀ (Gi : gmap positive (K * T)) x,
            (∀ x kv, Gi !! x = Some kv → (G1 ∪ G2) !! x = Some kv) →
            x ∈ dom Gi → x ∈ dom (G1 ∪ G2)).
  { intros Gi x Hsub [kv Hx]%elem_of_dom. apply elem_of_dom. eauto. }
  split.
  - intros a kv Ha.
    destruct (Hside a Hwf1 Hwf2 Hdisj) as (Gi & topi & Hwfi & Hai & Hsub & _).
    { apply elem_of_dom. eauto. }
    destruct (wf_data _ _ _ _ _ Hwfi a kv) as (d & dn & Hd & Hrest).
    { by apply Hown. }
    exists d, dn. by rewrite HD.
  - exists L. split; [done|]. split; [|done].
    intros a. by rewrite HLmem, HP.
  - intros p Hp.
    destruct (Hside p Hwf1 Hwf2 Hdisj Hp)
      as (Gi & topi & Hwfi & Hpi & Hsub & Hclosed).
    destruct (wf_children _ _ _ _ _ Hwfi p Hpi) as (l & Hl & Hlmem & Hentry).
    exists l. split; [|split].
    + revert Hl. apply ring_frame. intros y Hy.
      apply Hlmem in Hy as [Hy Hyp]. apply (Hsib y p); [|done].
      by apply (Hdom Gi).
    + intros a. rewrite Hlmem, HP. split.
      * intros [Ha Hpa]. split; [by apply (Hdom Gi)|done].
      * intros [Ha Hpa]. split; [|done]. by apply (Hclosed a p).
    + by rewrite HC.
  - intros a p ka va kp vp Ha Hpa Hp. rewrite HP in Hpa.
    destruct (Hside a Hwf1 Hwf2 Hdisj) as (Gi & topi & Hwfi & Hai & Hsub & _).
    { apply elem_of_dom. eauto. }
    apply (wf_order _ _ _ _ _ Hwfi a p ka va kp vp); [|done|].
    + by apply Hown.
    + apply Hown; [done| |done].
      by apply (wf_parent_in Compare σ δ Gi topi a p).
  - intros a Ha.
    destruct (Hside a Hwf1 Hwf2 Hdisj Ha) as (Gi & topi & Hwfi & Hai & Hsub & _).
    pose proof (wf_grounded _ _ _ _ _ Hwfi a Hai) as Hg.
    induction Hg as [a Ha' Hr|a p Ha' Hp Hg IH].
    + apply grounded_root; [done|]. by rewrite HP.
    + apply grounded_child with p; [done|by rewrite HP|].
      apply IH; [|by eapply grounded_in].
      apply (Hdom Gi); [done|]. by eapply grounded_in.
Qed.

Lemma splice_forests σ δ GH GG a b :
  wf σ δ GH (Some a) → wf σ δ GG (Some b) → GH ##ₘ GG →
  ∃ σ' (lH lG l' : list addr), ring_splice a b σ = Some σ'
    ∧ same_nonsib σ σ'
    ∧ ring σ lH ∧ a ∈ lH ∧ ring σ lG ∧ b ∈ lG
    ∧ ring σ' l' ∧ l' ≡ₚ lH ++ lG
    ∧ (∀ top', entry_ok top' l' → wf σ' δ (GH ∪ GG) top').
Proof.
  intros HwfH HwfG Hdisj.
  destruct (wf_roots _ _ _ _ _ HwfH) as (lH0 & HlH0 & HmemH0 & HaH). simpl in HaH.
  destruct (wf_roots _ _ _ _ _ HwfG) as (lG0 & HlG0 & HmemG0 & HbG). simpl in HbG.
  destruct (ring_rotate_to σ lH0 a HlH0 HaH) as (la & Hla & HpermH).
  destruct (ring_rotate_to σ lG0 b HlG0 HbG) as (lb & Hlb & HpermG).
  assert (HmemH : ∀ x, x ∈ a :: la ↔ x ∈ dom GH ∧ parent_of σ x = None).
  { intros x. by rewrite HpermH. }
  assert (HmemG : ∀ x, x ∈ b :: lb ↔ x ∈ dom GG ∧ parent_of σ x = None).
  { intros x. by rewrite HpermG. }
  clear HmemH0 HmemG0 HaH HbG HlH0 HlG0 HpermH HpermG.
  assert (Hapart : ∀ x, x ∈ dom GH → x ∈ dom GG → False).
  { intros x H1 H2. apply map_disjoint_dom in Hdisj.
    apply (Hdisj x H1 H2). }
  destruct (splice_rings σ a la b lb Hla Hlb)
    as (σ' & Hsplice & Hring & Hn & Hframe).
  { intros x [Hx _]%HmemH [Hx' _]%HmemG. by apply (Hapart x). }
  exists σ', (a :: la), (b :: lb), (a :: lb ++ b :: la).
  split; [done|]. split; [done|]. split; [done|]. split; [left|].
  split; [done|]. split; [left|]. split; [done|]. split.
  { simpl. constructor. rewrite <- !Permutation_middle. constructor.
    apply Permutation_app_comm. }
  intros top' Htop'.
  apply (wf_union σ δ GH GG (Some a) (Some b) σ' (a :: lb ++ b :: la));
    try done.
  - intros y p Hy Hp. apply Hframe.
    + intros [_ Hr]%HmemH. congruence.
    + intros [_ Hr]%HmemG. congruence.
  - intros x.
    assert (Hsplit : x ∈ a :: lb ++ b :: la ↔ x ∈ a :: la ∨ x ∈ b :: lb).
    { rewrite !elem_of_cons, elem_of_app, !elem_of_cons. tauto. }
    rewrite Hsplit, HmemH, HmemG, dom_union_L, elem_of_union. tauto.
Qed.

Lemma min_ok_union σ σ' (GH GG : gmap positive (K * T)) a b ka va kb vb :
  same_parent σ σ' → GH ##ₘ GG →
  min_ok Compare σ GH (Some a) → min_ok Compare σ GG (Some b) →
  GH !! a = Some (ka, va) → GG !! b = Some (kb, vb) →
  min_ok Compare σ' (GH ∪ GG) (Some (if Compare kb ka then b else a)).
Proof.
  intros HP Hdisj HminH HminG Ha Hb m r km vm kr vr [= <-] Hm Hr Hroot.
  rewrite HP in Hroot.
  assert (Hkm : km = if Compare kb ka then kb else ka).
  { destruct (Compare kb ka).
    - rewrite (lookup_union_Some_r GH GG b (kb, vb) Hdisj Hb) in Hm.
      congruence.
    - rewrite (lookup_union_Some_l GH GG a (ka, va) Ha) in Hm.
      congruence. }
  subst km. clear Hm.
  apply lookup_union_Some in Hr; [|done]. destruct Hr as [Hr|Hr].
  - pose proof (HminH a r ka va kr vr eq_refl Ha Hr Hroot) as Hle.
    destruct (Compare kb ka) eqn:Hcmp; [|done].
    apply (Compare_ntrans kr ka kb); [done|]. by apply Compare_asym.
  - pose proof (HminG b r kb vb kr vr eq_refl Hb Hr Hroot) as Hle.
    destruct (Compare kb ka) eqn:Hcmp; [done|].
    by apply (Compare_ntrans kr kb ka).
Qed.

(** C4.  Meld of two well-formed heaps with separate nodes, under a
    comparator that is a strict weak order: the root ring of [other] is
    spliced into the root ring of [this]; [min] becomes the one of the two
    previous minima with the smaller key (that of [this] when neither key is
    smaller); the length of [other] is added to the length of [this];
    [other] is left empty; every node of [other], with its data object,
    key and data unchanged, is a node of [this]. *)
Theorem meld_splices (m : memory) this other GH GG hH hG :
  this ≠ other →
  heaps m !! this = Some hH → heap_inv (structs m) (datas m) GH hH →
  heaps m !! other = Some hG → heap_inv (structs m) (datas m) GG hG →
  GH ##ₘ GG →
  Z.of_nat (base.size GH) + Z.of_nat (base.size GG) < size_t_modulus →
  ∃ m' h' (lH lG l' : list addr),
    meld Compare this other m = Done (tt, m')
    ∧ heaps m' !! this = Some h'
    ∧ heap_inv (structs m') (datas m') (GH ∪ GG) h'
    ∧ (ring (structs m) lH ∧ entry_ok (min hH) lH
       ∧ ring (structs m) lG ∧ entry_ok (min hG) lG
       ∧ ring (structs m') l' ∧ entry_ok (min h') l' ∧ l' ≡ₚ lH ++ lG)
    ∧ match min hH, min hG with
      | Some a, Some b =>
          ∃ ka kb, key_of (structs m) (datas m) a = Some ka
            ∧ key_of (structs m) (datas m) b = Some kb
            ∧ min h' = Some (if Compare kb ka then b else a)
      | Some a, None => min h' = Some a
      | None, tb => min h' = tb
      end
    ∧ _size h' = _size hH + _size hG
    ∧ heaps m' !! other = Some (mk_heap None 0)
    ∧ datas m' = datas m
    ∧ (∀ x kv, GG !! x = Some kv →
         (GH ∪ GG) !! x = Some kv
         ∧ data_of (structs m') x = data_of (structs m) x).
Proof.
  intros Hne HhH HinvH HhG HinvG Hdisj Hroom.
  destruct HinvH as [HwfH HminH HsizeH HboundH].
  destruct HinvG as [HwfG HminG HsizeG HboundG].
  assert (Hlen : size_t_wrap (_size hH + _size hG)
                 = Z.of_nat (base.size (GH ∪ GG))).
  { rewrite map_size_disj_union by done. rewrite HsizeH, HsizeG.
    rewrite size_t_wrap_small; lia. }
  assert (Hsum : size_t_wrap (_size hH + _size hG) = _size hH + _size hG).
  { rewrite HsizeH, HsizeG. rewrite size_t_wrap_small; lia. }
  assert (Hbound : Z.of_nat (base.size (GH ∪ GG)) < size_t_modulus).
  { rewrite map_size_disj_union by done. lia. }
  assert (Hkeep : ∀ x kv, GG !! x = Some kv → (GH ∪ GG) !! x = Some kv).
  { intros x kv Hx. by apply lookup_union_Some_r. }
  destruct (wf_roots _ _ _ _ _ HwfH) as (lH & HlH & HmemH & HtopH).
  destruct (wf_roots _ _ _ _ _ HwfG) as (lG & HlG & HmemG & HtopG).
  unfold meld.
  erewrite bind_Done; [|unfold deref_h; by rewrite HhH].
  erewrite bind_Done; [|unfold deref_h; by rewrite HhG].
  destruct (min hG) as [b|] eqn:HminhG; cycle 1.
  { (* [other] is empty *)
    assert (HGG : GG = ∅) by by apply wf_top_None in HwfG.
    subst GG. simpl in HtopG. subst lG.
    rewrite (right_id_L ∅ (∪) GH) in *.
    erewrite bind_Done;
      [|instantiate (1 := m); instantiate (1 := tt); by destruct (min hH)].
    erewrite bind_Done; [|unfold modify_h; by rewrite HhH].
    eexists _, (set_size (size_t_wrap (_size hH + _size hG)) hH), lH, [], lH.
    split; [reflexivity|]. simpl.
    split; [rewrite lookup_insert_ne by done; by rewrite lookup_insert_eq|].
    split; [by split|].
    split; [rewrite app_nil_r; by repeat (split; [done|])|].
    split; [by destruct (min hH)|].
    split; [done|]. split; [by rewrite lookup_insert_eq|]. split; [done|].
    intros x kv Hx. by rewrite lookup_empty in Hx. }
  destruct (min hH) as [a|] eqn:HminhH; cycle 1.
  { (* [this] is empty *)
    assert (HGH : GH = ∅) by by apply wf_top_None in HwfH.
    subst GH. simpl in HtopH. subst lH.
    rewrite (left_id_L ∅ (∪) GG) in *.
    erewrite bind_Done; [|unfold modify_h; by rewrite HhH].
    erewrite bind_Done; [|unfold modify_h; simpl; by rewrite lookup_insert_eq].
    eexists _, (set_size (size_t_wrap (_size hH + _size hG))
                  (set_min (Some b) hH)), [], lG, lG.
    split; [reflexivity|]. simpl.
    split; [rewrite lookup_insert_ne by done; by rewrite lookup_insert_eq|].
    split; [by split|].
    split; [by repeat (split; [done|])|].
    split; [done|]. split; [done|].
    split; [by rewrite lookup_insert_eq|]. split; [done|].
    intros x kv Hx. done. }
  (* neither is empty *)
  destruct (wf_top_root _ _ _ _ _ HwfH) as [[[ka va] HGa]%elem_of_dom _].
  destruct (wf_top_root _ _ _ _ _ HwfG) as [[[kb vb] HGb]%elem_of_dom _].
  pose proof (wf_key_of _ _ _ _ _ _ _ _ HwfH HGa) as Hka.
  pose proof (wf_key_of _ _ _ _ _ _ _ _ HwfG HGb) as Hkb.
  destruct (splice_forests _ _ GH GG a b HwfH HwfG Hdisj)
    as (σ' & lH' & lG' & l' & Hsplice & Hn & HlH' & HaH' & HlG' & HbG'
        & Hl' & Hperm & Hwf').
  set (top' := if Compare kb ka then Some b else Some a).
  erewrite bind_Done; cycle 1.
  { erewrite bind_Done; [|unfold key_at; by rewrite Hka].
    erewrite bind_Done; [|unfold key_at; by rewrite Hkb].
    erewrite bind_Done; [|unfold core_s; by rewrite Hsplice].
    unfold modify_h. simpl. by rewrite HhH. }
  erewrite bind_Done; [|unfold modify_h; simpl; by rewrite lookup_insert_eq].
  eexists _, (set_size (size_t_wrap (_size hH + _size hG)) (set_min top' hH)),
    lH', lG', l'.
  split; [reflexivity|]. simpl.
  split; [rewrite lookup_insert_ne by done; by rewrite lookup_insert_eq|].
  assert (Htop' : top' = Some (if Compare kb ka then b else a)).
  { unfold top'. by destruct (Compare kb ka). }
  assert (Hentry : entry_ok top' l').
  { rewrite Htop'. simpl. rewrite Hperm, elem_of_app.
    destruct (Compare kb ka); [by right|by left]. }
  split; [|split; [|split; [|split; [|split; [|split]]]]].
  - split; simpl; [by apply Hwf'| |done|done].
    rewrite Htop'.
    apply (min_ok_union (structs m) σ' GH GG a b ka va kb vb);
      try done. apply Hn.
  - by repeat (split; [done|]).
  - exists ka, kb. by repeat (split; [done|]).
  - done.
  - by rewrite lookup_insert_eq.
  - done.
  - intros x kv Hx. split; [by apply Hkeep|]. apply Hn.
Qed.

(** A heap of one node. *)
Lemma heap_inv_singleton σ δ x d k v c s :
  σ !! x = Some (mk_structure c 0 (Some d) (Some x) (Some x) None None s) →
  δ !! d = Some (internal_data.mk (Some x) k v) →
  heap_inv σ δ {[x := (k, v)]} (mk_heap (Some x) 1).
Proof.
  intros Hx Hd.
  assert (HR : right_of σ x = Some x) by (unfold right_of; by rewrite Hx).
  assert (HL : left_of σ x = Some x) by (unfold left_of; by rewrite Hx).
  assert (HP : parent_of σ x = None) by (unfold parent_of; by rewrite Hx).
  assert (HC : child_of σ x = None) by (unfold child_of; by rewrite Hx).
  split; simpl.
  - split.
    + intros a kv [<- <-]%lookup_singleton_Some.
      exists d, (internal_data.mk (Some x) k v).
      split; [unfold data_of; by rewrite Hx|done].
    + exists [x]. split; [by apply cycle_single|]. split; [|left].
      intros a. rewrite dom_singleton_L, elem_of_singleton, list_elem_of_singleton.
      split; [by intros ->|tauto].
    + intros p Hp. rewrite dom_singleton_L, elem_of_singleton in Hp.
      subst p. exists [].
      split; [apply cycle_nil|]. split; [|by rewrite HC].
      intros a. rewrite dom_singleton_L, elem_of_singleton, elem_of_nil.
      split; [done|]. intros [-> Hp]. congruence.
    + intros a p ka va kp vp [<- _]%lookup_singleton_Some Hp. congruence.
    + intros a Ha. apply grounded_root; [done|].
      rewrite dom_singleton_L, elem_of_singleton in Ha. by subst a.
  - intros m r km vm kr vr [= <-] [_ [= <- <-]]%lookup_singleton_Some
      [_ [= <- <-]]%lookup_singleton_Some _.
    by apply (Compare_irrefl Compare).
  - by rewrite map_size_singleton.
  - rewrite map_size_singleton. done.
Qed.

End Meld.

(** ** [count_nodes] of test.cpp *)

Section CountNodes.
Context {K T : Type}.
Implicit Types (σ : gmap positive internal_structure) (t : tree)
  (ts cs rest : list tree) (a b x r : addr).

#[local] Abbreviation memory := (@memory K T).

Lemma size_t_wrap_add_l z1 z2 :
  size_t_wrap (size_t_wrap z1 + z2) = size_t_wrap (z1 + z2).
Proof. unfold size_t_wrap. by rewrite Zplus_mod_idemp_l. Qed.

Lemma size_t_wrap_add_r z1 z2 :
  size_t_wrap (z1 + size_t_wrap z2) = size_t_wrap (z1 + z2).
Proof. unfold size_t_wrap. by rewrite Zplus_mod_idemp_r. Qed.

Lemma count_step sum c :
  size_t_wrap (sum + size_t_wrap (1 + size_t_wrap c))
  = size_t_wrap (sum + (1 + c)).
Proof.
  rewrite size_t_wrap_add_r, Z.add_assoc, size_t_wrap_add_r. f_equal. lia.
Qed.

Lemma forest_size_cons t ts :
  forest_size (t :: ts) = (tree_size t + forest_size ts)%nat.
Proof. done. Qed.

Lemma tree_size_Node a cs : tree_size (Node a cs) = S (forest_size cs).
Proof.
  reflexivity.
Qed.

Lemma laid_out_Node σ a cs :
  laid_out σ (Node a cs)
  ↔ child_of σ a = head (tree_root <$> cs) ∧ forest_laid_out σ cs.
Proof.
  unfold forest_laid_out. simpl.
  assert (Heach : (fix each (cs : list tree) : Prop :=
                     match cs with
                     | [] => True
                     | c :: cs => laid_out σ c ∧ each cs
                     end) cs ↔ Forall (laid_out σ) cs).
  { induction cs as [|c cs IH]; [by split|].
    rewrite Forall_cons, <- IH. done. }
  rewrite Heach. tauto.
Qed.

Lemma chain_alloc σ (l : list addr) b x :
  chain (right_of σ) l b → x ∈ l → is_Some (σ !! x).
Proof.
  induction l as [|a l IH]; intros Hc Hx; [by apply elem_of_nil in Hx|].
  destruct Hc as [Ha Hc].
  apply elem_of_cons in Hx as [->|Hx]; [|by apply IH].
  by eapply right_of_is_Some.
Qed.

(** [count_nodes] counts the nodes of a forest, as a [size_t]: every closed
    sibling list is walked once around, and the children of each of its
    nodes are counted in the same way.  The null pointer counts 0. *)
Theorem count_nodes_counts fuel (m : memory) ts :
  forest_laid_out (structs m) ts → (forest_size ts < fuel)%nat →
  count_nodes fuel (head (tree_root <$> ts)) m
  = Done (size_t_wrap (Z.of_nat (forest_size ts)), m).
Proof.
  revert ts. induction fuel as [|f IH]; intros ts [[Hnd Hchain] Hall] Hfuel;
    [lia|].
  destruct ts as [|t1 ts]; [done|].
  cbn [fmap list_fmap head hd] in *. cbn [count_nodes].
  rewrite decide_False by done.
  set (r1 := tree_root t1) in *.
  match goal with |- ?loop _ _ _ _ = _ => set (L := loop) end.
  assert (HL : ∀ rest (n : nat) (sum : Z) t,
    Forall (laid_out (structs m)) (t :: rest) →
    chain (right_of (structs m)) (tree_root <$> t :: rest) r1 →
    (∀ x, x ∈ tree_root <$> rest → x ≠ r1) →
    (length (t :: rest) ≤ n)%nat →
    (forest_size (t :: rest) ≤ f)%nat →
    L n (Some (tree_root t)) sum m
    = Done (size_t_wrap (sum + Z.of_nat (forest_size (t :: rest))), m)).
  { clear Hnd Hchain Hall Hfuel.
    induction rest as [|t' rest IHrest];
      intros n sum [a cs] Hall [Hright Hchain] Hne Hlen Hsize;
      (destruct n as [|n]; [simpl in Hlen; lia|]);
      apply Forall_cons in Hall as [[Hchild Hcs]%laid_out_Node Hall];
      rewrite forest_size_cons, tree_size_Node in Hsize |- *;
      cbn [tree_root] in *.
    - assert (is_Some (structs m !! a)) as [s Hs]
        by by eapply right_of_is_Some.
      unfold L. fold L.
      erewrite bind_Done; [|unfold deref_s; by rewrite Hs].
      unfold child_of in Hchild. rewrite Hs in Hchild. simpl in Hchild.
      rewrite Hchild.
      erewrite bind_Done; [|apply IH; [done|lia]].
      erewrite bind_Done; [|unfold deref_s; by rewrite Hs].
      unfold right_of in Hright. rewrite Hs in Hright. simpl in Hright.
      rewrite Hright. simpl. rewrite decide_True by done.
      unfold mret, M_ret. do 2 f_equal.
      rewrite count_step. f_equal. simpl. lia.
    - assert (is_Some (structs m !! a)) as [s Hs]
        by by eapply right_of_is_Some.
      unfold L. fold L.
      erewrite bind_Done; [|unfold deref_s; by rewrite Hs].
      unfold child_of in Hchild. rewrite Hs in Hchild. simpl in Hchild.
      rewrite Hchild.
      erewrite bind_Done; [|apply IH; [done|lia]].
      erewrite bind_Done; [|unfold deref_s; by rewrite Hs].
      unfold right_of in Hright. rewrite Hs in Hright. simpl in Hright.
      rewrite Hright. cbn [fmap list_fmap hd].
      rewrite decide_False; cycle 1.
      { intros [= Heq]. apply (Hne (tree_root t')); [left|done]. }
      rewrite (IHrest n _ t' Hall Hchain).
      + do 2 f_equal. rewrite count_step, size_t_wrap_add_l.
        f_equal. rewrite (forest_size_cons t' rest). lia.
      + intros x Hx. apply Hne. by right.
      + simpl in Hlen |- *. lia.
      + lia. }
  etrans; [apply (HL ts f 0 t1)|by rewrite Z.add_0_l]; try done.
  - apply NoDup_cons in Hnd as [Hr1 _]. intros x Hx ->. done.
  - assert (length (t1 :: ts) ≤ forest_size (t1 :: ts))%nat; [|lia].
    clear. induction (t1 :: ts) as [|[a cs] l IHl]; [done|].
    rewrite forest_size_cons, tree_size_Node. simpl. lia.
  - lia.
Qed.

End CountNodes.

(** ** [element_in] of test.cpp *)

Section ElementIn.
Context {K T : Type}.
Implicit Types (σ : gmap positive internal_structure)
  (l path rest : list addr) (a b e x r mn p : addr).

#[local] Abbreviation memory := (@memory K T).

Lemma ascent_alloc σ path r : ascent σ path r → is_Some (σ !! hd r path).
Proof. destruct path as [|a path]; simpl; tauto. Qed.

(** The [while] loop of [element_in] climbs to the root. *)
Lemma root_of_ascent fuel (m : memory) path r :
  ascent (structs m) path r → (length path < fuel)%nat →
  root_of fuel (Some (hd r path)) m = Done (Some r, m).
Proof.
  revert fuel. induction path as [|a path IH]; intros fuel Hasc Hfuel;
    (destruct fuel as [|fuel]; [simpl in Hfuel; lia|]); cbn [root_of hd].
  - destruct Hasc as [[s Hs] Hp].
    erewrite bind_Done; [|unfold deref_s; by rewrite Hs].
    unfold parent_of in Hp. rewrite Hs in Hp. simpl in Hp.
    erewrite bind_Done; [|reflexivity]. cbn beta.
    destruct (parent s) as [q|]; [rewrite Hp|]; by rewrite decide_True.
  - destruct Hasc as (Hp & [s Hs] & Hasc).
    erewrite bind_Done; [|unfold deref_s; by rewrite Hs].
    unfold parent_of in Hp. rewrite Hs in Hp. simpl in Hp.
    erewrite bind_Done; [|reflexivity]. cbn beta. rewrite Hp.
    destruct (ascent_alloc _ _ _ Hasc) as [s' Hs']. rewrite Hs'.
    rewrite decide_False by done.
    apply IH; [done|simpl in Hfuel; lia].
Qed.

(** The [do]-[while] loop of [element_in], from a node of the root list
    on. *)
Lemma scan_roots_ring fuel (m : memory) mn e rest p :
  chain (right_of (structs m)) (p :: rest) mn →
  (∀ x, x ∈ rest → x ≠ mn) →
  (length rest < fuel)%nat →
  scan_roots fuel (Some mn) (Some e) (Some p) m
  = Done (bool_decide (e ∈ p :: rest), m).
Proof.
  revert fuel p. induction rest as [|p' rest IH];
    intros fuel p [Hright Hchain] Hne Hfuel;
    (destruct fuel as [|fuel]; [simpl in Hfuel; lia|]); cbn [scan_roots].
  - destruct (decide (Some p = Some e)) as [[= ->]|Hpe].
    { rewrite bool_decide_eq_true_2; [done|left]. }
    destruct (right_of_is_Some _ _ _ Hright) as [s Hs].
    erewrite bind_Done; [|unfold deref_s; by rewrite Hs].
    unfold right_of in Hright. rewrite Hs in Hright. simpl in Hright.
    rewrite Hright. simpl. rewrite decide_True by done.
    rewrite bool_decide_eq_false_2; [done|].
    intros ->%list_elem_of_singleton. done.
  - destruct (decide (Some p = Some e)) as [[= ->]|Hpe].
    { rewrite bool_decide_eq_true_2; [done|left]. }
    destruct (right_of_is_Some _ _ _ Hright) as [s Hs].
    erewrite bind_Done; [|unfold deref_s; by rewrite Hs].
    unfold right_of in Hright. rewrite Hs in Hright. simpl in Hright.
    rewrite Hright. cbn [hd]. rewrite decide_False; cycle 1.
    { intros [= Heq]. apply (Hne p'); [left|done]. }
    rewrite IH; [|done|intros x Hx; apply Hne; by right|simpl in Hfuel; lia].
    do 2 f_equal. apply bool_decide_ext.
    rewrite (elem_of_cons (p' :: rest) e p). split; [tauto|].
    intros [->|?]; [congruence|done].
Qed.

(** [element_in] finds an element exactly when the root above it is in
    the root list of the heap: from [e], parent pointers are followed to a
    node without a live parent, and the closed list entered at [min] is
    searched for that node. *)
Theorem element_in_decides fuel (m : memory) fh_ h mn l path r :
  heaps m !! fh_ = Some h → min h = Some mn →
  right_ring (structs m) (mn :: l) →
  ascent (structs m) path r →
  (length path < fuel)%nat → (length l < fuel)%nat →
  element_in fuel (Some (hd r path)) fh_ m
  = Done (bool_decide (r ∈ mn :: l), m).
Proof.
  intros Hh Hmin [Hnd Hchain] Hasc Hpath Hl. unfold element_in.
  erewrite bind_Done; [|by apply root_of_ascent].
  erewrite bind_Done; [|unfold deref_h; by rewrite Hh].
  rewrite Hmin. apply scan_roots_ring; [done| |done].
  apply NoDup_cons in Hnd as [Hmn _]. intros x Hx ->. done.
Qed.

(** On an empty heap, [element_in] dereferences the null [min]. *)
Theorem element_in_empty_heap fuel (m : memory) fh_ h path r :
  heaps m !! fh_ = Some h → min h = None →
  ascent (structs m) path r → (length path < fuel)%nat →
  element_in fuel (Some (hd r path)) fh_ m = NullDeref.
Proof.
  intros Hh Hmin Hasc Hpath. unfold element_in.
  erewrite bind_Done; [|by apply root_of_ascent].
  erewrite bind_Done; [|unfold deref_h; by rewrite Hh].
  rewrite Hmin. destruct fuel as [|fuel]; [lia|]. cbn [scan_roots].
  by rewrite decide_False.
Qed.

End ElementIn.

(** ** [test_min_ptr] of test.cpp *)

Section TestMinPtr.
Implicit Types (σ : gmap positive internal_structure)
  (δ : gmap positive (internal_data.t Z Z))
  (l rest : list addr) (ks : list Z) (a b x mn p : addr).

#[local] Abbreviation memory := (@memory Z Z).

Lemma key_of_Some σ δ a k :
  key_of σ δ a = Some k →
  ∃ s d dn, σ !! a = Some s ∧ data s = Some d ∧ δ !! d = Some dn
    ∧ internal_data.key dn = k.
Proof.
  unfold key_of. intros H.
  destruct (σ !! a) as [s|]; [|done]. simpl in H.
  destruct (data s) as [d|] eqn:Hd; [|done]. simpl in H.
  destruct (δ !! d) as [dn|] eqn:Hdn; [|done]. simpl in H.
  exists s, d, dn. repeat split; congruence.
Qed.

Lemma test_min_ptr_loop_ring fuel (m : memory) mn kmn rest ks p :
  key_of (structs m) (datas m) mn = Some kmn →
  chain (right_of (structs m)) rest mn →
  Forall2 (λ x k, key_of (structs m) (datas m) x = Some k) rest ks →
  (∀ x, x ∈ rest → x ≠ mn) →
  p = hd mn rest →
  (length rest < fuel)%nat →
  test_min_ptr_loop fuel (Some mn) (Some p) m
  = Done (forallb (λ k, kmn <=? k) ks, m).
Proof.
  intros (sm & dm & dnm & Hsm & Hdm & Hdnm & Hkm)%key_of_Some.
  revert fuel ks p. induction rest as [|a rest IH];
    intros fuel ks p Hchain Hkeys Hne -> Hfuel;
    (destruct fuel as [|fuel]; [simpl in Hfuel; lia|]);
    cbn [test_min_ptr_loop hd].
  - apply Forall2_nil_inv_l in Hkeys as ->. by rewrite decide_True.
  - apply Forall2_cons_inv_l in Hkeys as (k & ks' & Hk & Hkeys & ->).
    apply key_of_Some in Hk as (s & d & dn & Hs & Hd & Hdn & Hka).
    destruct Hchain as [Hright Hchain].
    rewrite decide_False; cycle 1.
    { intros [= Heq]. apply (Hne a); [left|done]. }
    erewrite bind_Done; [|unfold deref_s; by rewrite Hsm].
    erewrite bind_Done; [|unfold deref_d; rewrite Hdm; by rewrite Hdnm].
    erewrite bind_Done; [|unfold deref_s; by rewrite Hs].
    erewrite bind_Done; [|unfold deref_d; rewrite Hd; by rewrite Hdn].
    rewrite Hkm, Hka. cbn [forallb].
    destruct (kmn <=? k); [|done]. cbn [andb].
    erewrite bind_Done; [|unfold deref_s; by rewrite Hs].
    unfold right_of in Hright. rewrite Hs in Hright. simpl in Hright.
    rewrite Hright.
    apply IH; [done|done|intros x Hx; apply Hne; by right|done|].
    simpl in Hfuel. lia.
Qed.

(** [test_min_ptr] compares the key of [min] with the key of every other
    node of the root list, in list order, and passes exactly when none of
    them is smaller. *)
Theorem test_min_ptr_checks fuel (m : memory) fh_ h mn l kmn ks :
  heaps m !! fh_ = Some h → min h = Some mn →
  right_ring (structs m) (mn :: l) →
  key_of (structs m) (datas m) mn = Some kmn →
  Forall2 (λ x k, key_of (structs m) (datas m) x = Some k) l ks →
  (length l < fuel)%nat →
  test_min_ptr fuel fh_ m = Done (forallb (λ k, kmn <=? k) ks, m).
Proof.
  intros Hh Hmin [Hnd [Hright Hchain]] Hkmn Hkeys Hfuel. unfold test_min_ptr.
  erewrite bind_Done; [|unfold deref_h; by rewrite Hh].
  rewrite Hmin.
  destruct (right_of_is_Some _ _ _ Hright) as [s Hs].
  erewrite bind_Done; [|unfold deref_s; by rewrite Hs].
  unfold right_of in Hright. rewrite Hs in Hright. simpl in Hright.
  rewrite Hright. cbn [hd] in *.
  apply (test_min_ptr_loop_ring fuel m mn kmn l ks); try done.
  apply NoDup_cons in Hnd as [Hmn _]. intros x Hx ->. done.
Qed.

(** On an empty heap, [test_min_ptr] dereferences the null [min]. *)
Theorem test_min_ptr_empty_heap fuel (m : memory) fh_ h :
  heaps m !! fh_ = Some h → min h = None →
  test_min_ptr fuel fh_ m = NullDeref.
Proof.
  intros Hh Hmin. unfold test_min_ptr.
  erewrite bind_Done; [|unfold deref_h; by rewrite Hh].
  by rewrite Hmin.
Qed.

End TestMinPtr.

(** ** [top] on a well-formed heap *)

Section Top.
Context {K T : Type}.
Variable Compare : K → K → bool.
Implicit Types (G : gmap positive (K * T)).

#[local] Abbreviation memory := (@memory K T).
#[local] Abbreviation represents := (represents Compare).

Hypothesis Compare_ntrans : ∀ k1 k2 k3 : K,
  Compare k1 k2 = false → Compare k2 k3 = false → Compare k1 k3 = false.

(** [top] on a well-formed heap that is not empty returns, without a
    change to the memory, a handle through which [key] and [data] read the
    pair of a node of the heap, and no node of the heap has a smaller
    key. *)
Theorem top_is_least (m : memory) this G :
  represents m this G → G ≠ ∅ →
  ∃ n z kz vz,
    top this m = Done (n, m)
    ∧ G !! z = Some (kz, vz)
    ∧ node_key n m = Done (kz, m)
    ∧ node_data n m = Done (vz, m)
    ∧ ∀ a ka va, G !! a = Some (ka, va) → Compare ka kz = false.
Proof.
  intros (h & Hh & Hinv) HG.
  pose proof (inv_wf _ _ _ _ _ Hinv) as Hwf.
  destruct (min h) as [z|] eqn:Hz; cycle 1.
  { by apply wf_top_None in Hwf. }
  destruct (wf_top_root _ _ _ _ _ Hwf) as [[[kz vz] HGz]%elem_of_dom _].
  destruct (wf_data _ _ _ _ _ Hwf z _ HGz) as (d & dn & Hd & Hdn & _ & Hkv).
  destruct (data_of_is_Some _ _ _ Hd) as [s Hs].
  unfold data_of in Hd. rewrite Hs in Hd. simpl in Hd.
  exists (mk_node (Some d)), z, kz, vz.
  split; [|split; [done|split; [|split]]].
  - unfold top.
    erewrite bind_Done; [|unfold deref_h; by rewrite Hh].
    rewrite Hz. unfold node_of.
    erewrite bind_Done; [|unfold deref_s; by rewrite Hs].
    by rewrite Hd.
  - unfold node_key.
    erewrite bind_Done; [|unfold deref_d; simpl; by rewrite Hdn].
    unfold mret, M_ret. by inversion Hkv.
  - unfold node_data.
    erewrite bind_Done; [|unfold deref_d; simpl; by rewrite Hdn].
    unfold mret, M_ret. by inversion Hkv.
  - by apply (heap_min_least Compare Compare_ntrans
                (structs m) (datas m) G h z kz vz).
Qed.

End Top.

(** ** Copies never come back *)

Section Copies.
Context {K T : Type}.

#[local] Abbreviation memory := (@memory K T).
#[local] Abbreviation M := (@M K T).

Lemma bind_Done_inv {A B} (c : M A) (f : A → M B) (m : memory) r :
  (c ≫= f) m = Done r → ∃ a m', c m = Done (a, m') ∧ f a m' = Done r.
Proof.
  unfold mbind, M_bind. destruct (c m) as [[a m']| | |]; [eauto|done..].
Qed.

Lemma deref_h_Done_inv p (m m' : memory) h :
  deref_h p m = Done (h, m') →
  m' = m ∧ ∃ a, p = Some a ∧ heaps m !! a = Some h.
Proof.
  unfold deref_h. destruct p as [a|]; [|done].
  destruct (heaps m !! a) as [h'|] eqn:Ha; [|done].
  intros [= <- <-]. eauto.
Qed.

Lemma modify_s_heaps p f (m m' : memory) u :
  modify_s p f m = Done (u, m') → heaps m' = heaps m.
Proof.
  unfold modify_s. destruct p as [a|]; [|done].
  destruct (structs m !! a); [|done]. by intros [= _ <-].
Qed.

Lemma destructor_body_heaps this (m m' : memory) u :
  destructor_body this m = Done (u, m') → heaps m' = heaps m.
Proof.
  unfold destructor_body.
  intros (h & m1 & [-> _]%deref_h_Done_inv & H)%bind_Done_inv.
  destruct (decide (min h = None)).
  - by inversion H.
  - by apply modify_s_heaps in H.
Qed.

(** [duplicate_nodes] hands back a pointer only from its first line: the
    pointer is null, [root] equals [head], and nothing has been written.
    Whenever a node is to be copied, the call does not return one. *)
Theorem duplicate_nodes_returns_only_null
    fuel fh_ root head newhead (m m' : memory) r :
  duplicate_nodes fuel fh_ root head newhead m = Done (r, m') →
  root = head ∧ r = None ∧ m' = m.
Proof.
  intros H. destruct (decide (root = head)) as [Heq|Hne].
  - destruct fuel as [|fuel]; [done|]. cbn [duplicate_nodes] in H.
    rewrite decide_True in H by done. by inversion H.
  - by apply duplicate_nodes_not_done in H.
Qed.

(** Assignment from a heap that is not empty never completes: whatever
    the heap assigned to, [duplicate_nodes] is entered with the [min] of
    [old] and does not return. *)
Theorem copy_assignment_from_nonempty fuel this old (m : memory) o a r :
  heaps m !! old = Some o → min o = Some a →
  copy_assignment fuel this old m ≠ Done r.
Proof.
  intros Ho Hmin H. unfold copy_assignment in H.
  apply bind_Done_inv in H as (h & m1 & [-> (? & [= <-] & Hh)]%deref_h_Done_inv & H).
  apply bind_Done_inv in H as (u & m2 & Hclean & H).
  assert (Hheaps : heaps m2 = heaps m).
  { destruct (decide (min h = None)).
    - by inversion Hclean.
    - by apply destructor_body_heaps in Hclean. }
  apply bind_Done_inv in H as (o1 & m3 & [-> (? & [= <-] & Ho1)]%deref_h_Done_inv & H).
  rewrite Hheaps, Ho in Ho1. injection Ho1 as <-.
  apply bind_Done_inv in H as (u' & m4 & Hsize & H).
  unfold modify_h in Hsize. rewrite Hheaps, Hh in Hsize.
  injection Hsize as _ <-.
  apply bind_Done_inv in H as (o2 & m5 & [-> (? & [= <-] & Ho2)]%deref_h_Done_inv & H).
  apply bind_Done_inv in H as (p & m6 & Hdup & _).
  assert (Hmin2 : min o2 = Some a).
  { simpl in Ho2.
    destruct (decide (old = this)) as [->|Hne].
    - rewrite lookup_insert_eq in Ho2. injection Ho2 as <-.
      assert (h = o) as -> by congruence. done.
    - rewrite lookup_insert_ne in Ho2 by done. congruence. }
  revert Hdup. rewrite Hmin2. by apply duplicate_nodes_not_done.
Qed.

End Copies.

(** ** The guard of [~internal_data] *)

Section DataDestructor.
Context {K T : Type}.

#[local] Abbreviation memory := (@memory K T).

(** The guard in the destructor of [internal_data] follows the life of the
    structure object: for the data object of a node it throws as long as the
    node's structure object is there, and no longer once
    [~internal_structure] has run for it. *)
Theorem data_destructor_guard a (m : memory) s d dn :
  structs m !! a = Some s → data s = Some d → child s = None →
  datas m !! d = Some dn → internal_data.structure dn = Some a →
  data_destructor d m = Done (Some data_node_in_use, m)
  ∧ ∃ m', destroy_structure a m = Done (tt, m')
      ∧ data_destructor d m' = Done (None, m').
Proof.
  intros Hs Hd Hc Hdn Hstr. split.
  - unfold data_destructor.
    erewrite bind_Done; [|unfold deref_d; by rewrite Hdn].
    erewrite bind_Done; [|reflexivity]. cbn beta.
    rewrite Hstr, Hs. by rewrite decide_False.
  - eexists. split.
    + unfold destroy_structure.
      erewrite bind_Done; [|unfold deref_s; by rewrite Hs].
      erewrite bind_Done; [|unfold modify_d; rewrite Hd; by rewrite Hdn].
      erewrite bind_Done; [|unfold deref_s; simpl; by rewrite Hs].
      rewrite Hc. simpl.
      erewrite bind_Done; [|reflexivity].
      reflexivity.
    + unfold data_destructor.
      erewrite bind_Done;
        [|unfold deref_d; simpl; by rewrite lookup_insert_eq].
      erewrite bind_Done; [|reflexivity]. done.
Qed.

End DataDestructor.

(** ** The helpers of test.cpp on well-formed heaps *)

Section Helpers.
Context {K T : Type}.
Variable Compare : K → K → bool.
Implicit Types (σ : gmap positive internal_structure)
  (δ : gmap positive (internal_data.t K T)) (G : gmap positive (K * T))
  (l path : list addr) (a b x r mn : addr).

#[local] Abbreviation memory := (@memory K T).
#[local] Abbreviation wf := (wf Compare).
#[local] Abbreviation represents := (represents Compare).

Lemma seg_chain (R L : addr → ptr) l b : seg R L l b → chain R l b.
Proof.
  revert b. induction l as [|a l IH]; intros b; [done|].
  intros (HR & _ & Hseg). split; [done|by apply IH].
Qed.

Lemma cycle_right_ring σ l :
  cycle (right_of σ) (left_of σ) l → right_ring σ l.
Proof. intros [Hnd Hseg]. split; [done|by eapply seg_chain]. Qed.

(** The root list of a heap that is not empty, read from [min]. *)
Lemma wf_root_ring σ δ G mn :
  wf σ δ G (Some mn) →
  ∃ l, right_ring σ (mn :: l)
    ∧ ∀ a, a ∈ mn :: l ↔ a ∈ dom G ∧ parent_of σ a = None.
Proof.
  intros Hwf.
  destruct (wf_roots _ _ _ _ _ Hwf) as (l0 & Hl0 & Hmem & Hmn). simpl in Hmn.
  destruct (ring_rotate_to σ l0 mn Hl0 Hmn) as (l & Hl & Hperm).
  exists l. split; [by apply cycle_right_ring|].
  intros a. by rewrite Hperm.
Qed.

(** The way up from a node of the forest. *)
Lemma grounded_ascent σ (F : gset positive) x :
  (∀ y, y ∈ F → is_Some (σ !! y)) →
  grounded (parent_of σ) F x →
  ∃ path r, ascent σ path r ∧ hd r path = x
    ∧ r ∈ F ∧ parent_of σ r = None.
Proof.
  intros Halloc Hg. induction Hg as [x Hx Hroot|x p Hx Hp Hg IH].
  - exists [], x. simpl. rewrite Hroot. by repeat split; try apply Halloc.
  - destruct IH as (path & r & Hasc & Hhd & Hr & Hroot).
    exists (x :: path), r. simpl. rewrite Hhd.
    by repeat split; try apply Halloc.
Qed.

(** [element_in] finds every node of a well-formed heap. *)
Theorem element_in_finds_nodes (m : memory) this G x :
  represents m this G → x ∈ dom G →
  ∃ n, ∀ fuel, (n < fuel)%nat →
    element_in fuel (Some x) this m = Done (true, m).
Proof.
  intros (h & Hh & Hinv) Hx.
  pose proof (inv_wf _ _ _ _ _ Hinv) as Hwf.
  destruct (min h) as [mn|] eqn:Hmin; cycle 1.
  { apply wf_top_None in Hwf. subst G. by rewrite dom_empty_L in Hx. }
  destruct (wf_root_ring _ _ _ _ Hwf) as (l & Hring & Hmem).
  destruct (grounded_ascent (structs m) (dom G) x)
    as (path & r & Hasc & Hhd & Hr & Hroot).
  { intros y Hy. by apply (wf_alloc Compare _ _ _ _ _ Hwf). }
  { by apply (wf_grounded _ _ _ _ _ Hwf). }
  exists (length path `max` length l)%nat. intros fuel Hfuel.
  rewrite <- Hhd.
  rewrite (element_in_decides fuel m this h mn l path r); try done; try lia.
  rewrite bool_decide_eq_true_2; [done|]. by apply Hmem.
Qed.

End Helpers.

Section HelpersInt.
Implicit Types (σ : gmap positive internal_structure)
  (δ : gmap positive (internal_data.t Z Z)) (G : gmap positive (Z * Z))
  (l : list addr) (a b x mn : addr).

#[local] Abbreviation memory := (@memory Z Z).

(** [test_min_ptr] passes on every well-formed heap of [int] keys under
    [<] that is not empty. *)
Theorem test_min_ptr_passes (m : memory) this G :
  represents Z.ltb m this G → G ≠ ∅ →
  ∃ n, ∀ fuel, (n < fuel)%nat →
    test_min_ptr fuel this m = Done (true, m).
Proof.
  intros (h & Hh & Hinv) HG.
  pose proof (inv_wf _ _ _ _ _ Hinv) as Hwf.
  pose proof (inv_min _ _ _ _ _ Hinv) as Hmin_ok.
  destruct (min h) as [mn|] eqn:Hmin; cycle 1.
  { by apply wf_top_None in Hwf. }
  destruct (wf_root_ring _ _ _ _ _ Hwf) as (l & Hring & Hmem).
  destruct (wf_top_root _ _ _ _ _ Hwf) as [[[kmn vmn] HGmn]%elem_of_dom _].
  exists (length l). intros fuel Hfuel.
  set (key_at := λ x, default 0 (fst <$> G !! x)).
  rewrite (test_min_ptr_checks fuel m this h mn l kmn (key_at <$> l));
    try done.
  - do 2 f_equal. apply Is_true_true, forallb_True, Forall_fmap, Forall_forall.
    intros x Hx. simpl.
    assert (Hroot : x ∈ dom G ∧ parent_of (structs m) x = None)
      by (apply Hmem; by right).
    destruct Hroot as [[[kx vx] HGx]%elem_of_dom Hroot].
    unfold key_at. rewrite HGx. simpl.
    pose proof (Hmin_ok mn x kmn vmn kx vx eq_refl HGmn HGx Hroot) as Hle.
    apply Z.ltb_ge in Hle. apply Is_true_true, Z.leb_le. done.
  - by apply (wf_key_of Z.ltb _ _ _ _ _ _ vmn Hwf).
  - apply Forall2_fmap_r, Forall_Forall2_diag, Forall_forall.
    intros x Hx.
    assert (Hroot : x ∈ dom G ∧ parent_of (structs m) x = None)
      by (apply Hmem; by right).
    destruct Hroot as [[[kx vx] HGx]%elem_of_dom _].
    unfold compose, key_at. rewrite HGx. simpl.
    by apply (wf_key_of Z.ltb _ _ _ _ _ _ vx Hwf).
Qed.

End HelpersInt.

(** ** The destructor of a structure object *)

Section Destructor.
Context {K T : Type}.

#[local] Abbreviation memory := (@memory K T).


End Destructor.

(** ** Instances *)

Lemma Z_ltb_asym (k1 k2 : Z) : (k1 <? k2) = true → (k2 <? k1) = false.
Proof. intros H%Z.ltb_lt. apply Z.ltb_ge. lia. Qed.

Lemma Z_ltb_ntrans (k1 k2 k3 : Z) :
  (k1 <? k2) = false → (k2 <? k3) = false → (k1 <? k3) = false.
Proof. intros H1%Z.ltb_ge H2%Z.ltb_ge. apply Z.ltb_ge. lia. Qed.

(** C1, for [int] keys under [<]: four pairs, two of them with the same
    key, from a memory that holds an empty heap. *)
Lemma sort_law_witness :
  ∃ out m', sort_run Z.ltb 5 1%positive [(3, 30); (1, 10); (2, 20); (1, 11)]
              empty_heap_memory = Done (out, m')
    ∧ out ≡ₚ [(3, 30); (1, 10); (2, 20); (1, 11)]
    ∧ StronglySorted (key_le Z.ltb) out.
Proof.
  apply (sort_law Z.ltb Z_ltb_asym Z_ltb_ntrans).
  - vm_compute. reflexivity.
  - simpl. lia.
Defined.

(** C4, at [two_heaps_memory]: the heap at 2 is melded into the heap
    at 1. *)
Lemma meld_splices_witness :
  ∃ m' h' (lH lG l' : list addr),
    meld Z.ltb 1%positive 2%positive two_heaps_memory = Done (tt, m')
    ∧ heaps m' !! 1%positive = Some h'
    ∧ heap_inv Z.ltb (structs m') (datas m')
        ({[1%positive := (5, 50)]} ∪ {[2%positive := (3, 30)]}) h'
    ∧ (cycle (right_of (structs two_heaps_memory))
         (left_of (structs two_heaps_memory)) lH
       ∧ entry_ok (Some 1%positive) lH
       ∧ cycle (right_of (structs two_heaps_memory))
           (left_of (structs two_heaps_memory)) lG
       ∧ entry_ok (Some 2%positive) lG
       ∧ cycle (right_of (structs m')) (left_of (structs m')) l'
       ∧ entry_ok (min h') l' ∧ l' ≡ₚ lH ++ lG)
    ∧ (∃ ka kb,
         key_of (structs two_heaps_memory) (datas two_heaps_memory) 1%positive
           = Some ka
         ∧ key_of (structs two_heaps_memory) (datas two_heaps_memory)
             2%positive = Some kb
         ∧ min h' = Some (if Z.ltb kb ka then 2%positive else 1%positive))
    ∧ _size h' = 1 + 1
    ∧ heaps m' !! 2%positive = Some (mk_heap None 0)
    ∧ datas m' = datas two_heaps_memory
    ∧ (∀ x kv, ({[2%positive := (3, 30)]} : gmap positive (Z * Z)) !! x
               = Some kv →
         ({[1%positive := (5, 50)]} ∪ {[2%positive := (3, 30)]}
            : gmap positive (Z * Z)) !! x = Some kv
         ∧ data_of (structs m') x = data_of (structs two_heaps_memory) x).
Proof.
  apply (meld_splices Z.ltb Z_ltb_asym Z_ltb_ntrans
           two_heaps_memory 1%positive 2%positive
           {[1%positive := (5, 50)]} {[2%positive := (3, 30)]}
           (mk_heap (Some 1%positive) 1) (mk_heap (Some 2%positive) 1)).
  - done.
  - reflexivity.
  - by apply (heap_inv_singleton Z.ltb Z_ltb_asym _ _ 1%positive 1%positive
                5 50 false (Some 1%positive)).
  - reflexivity.
  - by apply (heap_inv_singleton Z.ltb Z_ltb_asym _ _ 2%positive 2%positive
                3 30 false (Some 2%positive)).
  - by apply map_disjoint_singleton_l, lookup_singleton_ne.
  - rewrite !map_size_singleton. vm_compute. reflexivity.
Defined.

(** Copy-construction from the empty heap of [empty_heap_memory]. *)
Lemma copy_constructor_empty_witness :
  copy_constructor 1 2%positive 1%positive empty_heap_memory
  = Done (tt, with_heaps (<[2%positive := mk_heap None (_size (mk_heap None 0))]>
                            (heaps empty_heap_memory)) empty_heap_memory).
Proof.
  apply (copy_constructor_empty 0 2%positive 1%positive empty_heap_memory
           (mk_heap None 0)); reflexivity.
Defined.

(** Self-assignment of the empty heap of [empty_heap_memory]. *)
Lemma self_assignment_empty_witness :
  copy_assignment 1 1%positive 1%positive empty_heap_memory
  = Done (tt, empty_heap_memory).
Proof.
  apply (self_assignment_empty 0 1%positive empty_heap_memory
           (mk_heap None 0)); reflexivity.
Defined.


(** ** Instances for the helpers *)

Lemma three_node_cases (a : addr) (kv : Z * Z) :
  three_node_contents !! a = Some kv →
  (a = 1%positive ∧ kv = (1, 10)) ∨ (a = 2%positive ∧ kv = (4, 40))
  ∨ (a = 3%positive ∧ kv = (6, 60)).
Proof.
  unfold three_node_contents.
  intros [[<- <-]|[_ [[<- <-]|[_ [<- <-]%lookup_singleton_Some]]%lookup_insert_Some]]%lookup_insert_Some;
    tauto.
Qed.

Lemma three_node_dom (a : addr) :
  a ∈ dom three_node_contents →
  a = 1%positive ∨ a = 2%positive ∨ a = 3%positive.
Proof.
  intros [kv Ha]%elem_of_dom. apply three_node_cases in Ha. tauto.
Qed.

(** [three_node_memory] holds a well-formed heap. *)
Lemma three_node_heap_inv :
  heap_inv Z.ltb (structs three_node_memory) (datas three_node_memory)
    three_node_contents (mk_heap (Some 1%positive) 3).
Proof.
  split; cbn [min _size].
  - split.
    + intros a kv [[-> ->]|[[-> ->]|[-> ->]]]%three_node_cases.
      * by exists 1%positive, (internal_data.mk (Some 1%positive) 1 10).
      * by exists 2%positive, (internal_data.mk (Some 2%positive) 4 40).
      * by exists 3%positive, (internal_data.mk (Some 3%positive) 6 60).
    + exists [1%positive; 2%positive]. split; [|split].
      * split; [compute_done|by vm_compute].
      * intros a. rewrite !elem_of_cons, elem_of_nil. split.
        -- intros [-> | [-> | Hf]]; [| |done]; by split; [compute_done|].
        -- intros [[-> | [-> | ->]]%three_node_dom Hp]; [tauto|tauto|done].
      * left.
    + intros p [-> | [-> | ->]]%three_node_dom.
      * exists []. split; [apply cycle_nil|]. split; [|done].
        intros a. rewrite elem_of_nil. split; [done|].
        intros [[-> | [-> | ->]]%three_node_dom Hp]; done.
      * exists [3%positive]. split; [by apply cycle_single|].
        split; [|by left].
        intros a. rewrite list_elem_of_singleton. split.
        -- intros ->. by split; [compute_done|].
        -- intros [[-> | [-> | ->]]%three_node_dom Hp]; done.
      * exists []. split; [apply cycle_nil|]. split; [|done].
        intros a. rewrite elem_of_nil. split; [done|].
        intros [[-> | [-> | ->]]%three_node_dom Hp]; done.
    + intros a p ka va kp vp [[-> [= -> ->]]|[[-> [= -> ->]]|[-> [= -> ->]]]]%three_node_cases Hp;
        try done.
      injection Hp as <-.
      by intros [[? [= -> ->]]|[[? [= -> ->]]|[? [= -> ->]]]]%three_node_cases.
    + assert (H1 : grounded (parent_of (structs three_node_memory))
                     (dom three_node_contents) 1%positive).
      { by apply grounded_root; [compute_done|]. }
      assert (H2 : grounded (parent_of (structs three_node_memory))
                     (dom three_node_contents) 2%positive).
      { by apply grounded_root; [compute_done|]. }
      intros a [-> | [-> | ->]]%three_node_dom; [done|done|].
      by apply grounded_child with 2%positive; [compute_done| |].
  - intros m r km vm kr vr [= <-] [[_ [= -> ->]]|[[? _]|[? _]]]%three_node_cases;
      [|done|done].
    intros [[-> [= -> ->]]|[[-> [= -> ->]]|[-> [= -> ->]]]]%three_node_cases Hp;
      done.
  - done.
  - done.
Qed.

Lemma three_node_represents :
  represents Z.ltb three_node_memory 1%positive three_node_contents.
Proof.
  exists (mk_heap (Some 1%positive) 3).
  split; [reflexivity|apply three_node_heap_inv].
Qed.

Lemma three_node_laid_out :
  forest_laid_out (structs three_node_memory) three_node_forest.
Proof.
  split; [split; [compute_done|by vm_compute]|].
  repeat constructor; try compute_done; by vm_compute.
Qed.

(** [duplicate_nodes], called as the copy constructor calls it for an empty
    heap. *)
Lemma duplicate_nodes_returns_only_null_witness :
  (None : ptr) = None ∧ (None : ptr) = None
  ∧ empty_heap_memory = empty_heap_memory.
Proof.
  apply (duplicate_nodes_returns_only_null 1 (Some 2%positive) None None None
           empty_heap_memory empty_heap_memory None).
  reflexivity.
Defined.

(** Assignment to the first heap of [two_heaps_memory] from the second. *)
Lemma copy_assignment_from_nonempty_witness :
  copy_assignment 5 1%positive 2%positive two_heaps_memory
  ≠ Done (tt, two_heaps_memory).
Proof.
  apply (copy_assignment_from_nonempty 5 1%positive 2%positive
           two_heaps_memory (mk_heap (Some 2%positive) 1) 2%positive);
    reflexivity.
Defined.

(** [top] on the heap of [three_node_memory]. *)
Lemma top_is_least_witness :
  ∃ n z kz vz,
    top 1%positive three_node_memory = Done (n, three_node_memory)
    ∧ three_node_contents !! z = Some (kz, vz)
    ∧ node_key n three_node_memory = Done (kz, three_node_memory)
    ∧ node_data n three_node_memory = Done (vz, three_node_memory)
    ∧ ∀ a ka va, three_node_contents !! a = Some (ka, va) →
        Z.ltb ka kz = false.
Proof.
  apply (top_is_least Z.ltb Z_ltb_ntrans three_node_memory 1%positive
           three_node_contents).
  - apply three_node_represents.
  - compute_done.
Defined.

(** [count_nodes] on the forest of [three_node_memory]. *)
Lemma count_nodes_counts_witness :
  count_nodes 4 (head (tree_root <$> three_node_forest)) three_node_memory
  = Done (size_t_wrap (Z.of_nat (forest_size three_node_forest)),
          three_node_memory).
Proof.
  apply (count_nodes_counts 4 three_node_memory three_node_forest).
  - apply three_node_laid_out.
  - simpl. lia.
Defined.

(** [element_in] for the node 3 of [three_node_memory], below the root 2. *)
Lemma element_in_decides_witness :
  element_in 3 (Some (hd 2%positive [3%positive])) 1%positive
    three_node_memory
  = Done (bool_decide (2%positive ∈ [1%positive; 2%positive]),
          three_node_memory).
Proof.
  apply (element_in_decides 3 three_node_memory 1%positive
           (mk_heap (Some 1%positive) 3) 1%positive [2%positive]
           [3%positive] 2%positive).
  - reflexivity.
  - reflexivity.
  - split; [compute_done|by vm_compute].
  - repeat split; by eexists.
  - simpl. lia.
  - simpl. lia.
Defined.

(** [element_in] for the node of [one_node_and_empty_memory] and the empty
    heap at address 2. *)
Lemma element_in_empty_heap_witness :
  element_in 2 (Some (hd 1%positive [])) 2%positive one_node_and_empty_memory
  = NullDeref.
Proof.
  apply (element_in_empty_heap 2 one_node_and_empty_memory 2%positive
           (mk_heap None 0) [] 1%positive).
  - reflexivity.
  - reflexivity.
  - repeat split; by eexists.
  - simpl. lia.
Defined.

(** [test_min_ptr] on the heap of [three_node_memory]. *)
Lemma test_min_ptr_checks_witness :
  test_min_ptr 2 1%positive three_node_memory
  = Done (forallb (λ k, 1 <=? k) [4], three_node_memory).
Proof.
  apply (test_min_ptr_checks 2 three_node_memory 1%positive
           (mk_heap (Some 1%positive) 3) 1%positive [2%positive] 1 [4]).
  - reflexivity.
  - reflexivity.
  - split; [compute_done|by vm_compute].
  - reflexivity.
  - by repeat constructor.
  - simpl. lia.
Defined.

(** [test_min_ptr] on the empty heap of [empty_heap_memory]. *)
Lemma test_min_ptr_empty_heap_witness :
  test_min_ptr 3 1%positive empty_heap_memory = NullDeref.
Proof.
  apply (test_min_ptr_empty_heap 3 empty_heap_memory 1%positive
           (mk_heap None 0)); reflexivity.
Defined.

(** [element_in] for the node 3 of [three_node_memory]. *)
Lemma element_in_finds_nodes_witness :
  ∃ n, ∀ fuel, (n < fuel)%nat →
    element_in fuel (Some 3%positive) 1%positive three_node_memory
    = Done (true, three_node_memory).
Proof.
  apply (element_in_finds_nodes Z.ltb three_node_memory 1%positive
           three_node_contents 3%positive).
  - apply three_node_represents.
  - compute_done.
Defined.

(** [test_min_ptr] on the heap of [three_node_memory]. *)
Lemma test_min_ptr_passes_witness :
  ∃ n, ∀ fuel, (n < fuel)%nat →
    test_min_ptr fuel 1%positive three_node_memory
    = Done (true, three_node_memory).
Proof.
  apply (test_min_ptr_passes three_node_memory 1%positive
           three_node_contents).
  - apply three_node_represents.
  - compute_done.
Defined.

(** The guard of [~internal_data] for the data object of [one_node_memory],
    before and after the destructor of its structure object. *)
Lemma data_destructor_guard_witness :
  data_destructor 1%positive one_node_memory
  = Done (Some data_node_in_use, one_node_memory)
  ∧ ∃ m', destroy_structure 1%positive one_node_memory = Done (tt, m')
      ∧ data_destructor 1%positive m' = Done (None, m').
Proof.
  apply (data_destructor_guard 1%positive one_node_memory
           (mk_structure false 0 (Some 1%positive) (Some 1%positive)
              (Some 1%positive) None None (Some 1%positive))
           1%positive (internal_data.mk (Some 1%positive) 1 1));
    reflexivity.
Defined.
